(** * A worker-thread pool with a shared task queue, and the graph
      traversal that runs on it

    Shallow embedding of [src/os_threadpool.c] and [src/parallel.c].

    The pool's shared fields are only read and written with the pool's
    mutex held, so each critical section (from [pthread_mutex_lock] or a
    return of [pthread_cond_wait] to the next [pthread_cond_wait] or
    [pthread_mutex_unlock]) is one function on the pool record, and the
    whole program is a transition system whose labels say which thread
    runs its next critical section. *)

From Stdlib Require Import ZArith Lia Bool.
From stdpp Require Import base tactics option numbers list.

(** ** Machine integers *)

(** [unsigned int]: arithmetic modulo 2^32. *)
Definition wrap_uint (z : Z) : Z := (z mod 2 ^ 32)%Z.

(** [int]: two's complement on 32 bits. *)
Definition wrap_int (z : Z) : Z := ((z + 2 ^ 31) mod 2 ^ 32 - 2 ^ 31)%Z.

(** ** The intrusive list of the task queue *)

Module OsList.
Section OsList.
Context {A : Type}.

(** [os_list.h] is not among the sources.  A circular doubly linked list
    with a sentinel [head] is modelled by the list of its nodes from
    [head.next] to [head.prev]. *)

(** Modelled from the spec: [list_init] of the missing [os_list.h]; the
    queue starts as the empty sequence. *)
Definition list_init : list A := [].

(** Modelled from the spec: [list_empty] of the missing [os_list.h]. *)
Definition list_empty (l : list A) : bool :=
  match l with [] => true | _ :: _ => false end.

(** Modelled from the spec: [list_add] of the missing [os_list.h].
    [pending] keeps insertion order and the entry taken is the oldest one;
    the source takes [head.prev], so [list_add] links the new node right
    after the sentinel, as [head.next]. *)
Definition list_add (l : list A) (node : A) : list A := node :: l.

(** Modelled from the spec: [list_entry(head.prev, ...)] of the missing
    [os_list.h], when the list has a node. *)
Definition list_prev (l : list A) : option A := last l.

(** Modelled from the spec: [list_del(head.prev)] of the missing
    [os_list.h]. *)
Definition list_del_prev (l : list A) : list A := removelast l.
End OsList.
End OsList.

(** ** Tasks, notifications and the pool record *)

(** The two condition variables of the pool. *)
Inductive cond := cond_queue | work_done.

(** [pthread_cond_signal] and [pthread_cond_broadcast], in the order a
    critical section issues them. *)
Inductive notify :=
| Signal (c : cond)
| Broadcast (c : cond).

Section Task.
(** [Fn] stands for the function pointers [void ( * )(void * )] and [Arg]
    for what a [void *] argument points to. *)
Context {Fn Arg : Type}.

(** [os_task_t], with the fields that [create_task] fills.  [self] is the
    address [malloc] returned for the task: the serial number of the
    allocation. *)
Record os_task := {
  self : nat;
  action : Fn;
  argument : Arg;
  destroy_arg : option Fn
}.

(** What a thread does to a task outside the pool's mutex. *)
Inductive event :=
| Created (t : os_task)               (* create_task returned t *)
| ActionCalled (t : os_task)          (* t->action(t->argument) *)
| DestroyArgCalled (t : os_task)      (* t->destroy_arg(t->argument) *)
| Freed (t : os_task).                (* free(t) *)

(** [create_task], lines 17-24.  [DIE] ends the process when [malloc]
    fails; allocation does not fail here. *)
Definition create_task (fresh : nat) (act : Fn) (arg : Arg)
    (destroy : option Fn) : os_task :=
  {| self := fresh; action := act; argument := arg; destroy_arg := destroy |}.

(** [destroy_task], lines 30-32. *)
Definition destroy_task (t : os_task) : list event :=
  (match destroy_arg t with
   | Some _ => [DestroyArgCalled t]
   | None => []
   end) ++ [Freed t].

(** Modelled from the spec: [os_threadpool.h] is not among the sources.
    [num_threads] is the [unsigned int] that [create_threadpool] receives;
    [waiting_threads] (the spec's idleWorkers) is a count held in an
    [unsigned int], [stop_work] (the spec's shuttingDown) an integer
    flag, and [head] the sentinel of the queue of pending tasks. *)
Record os_threadpool := {
  num_threads : Z;
  head : list os_task;
  waiting_threads : Z;
  stop_work : Z
}.

Definition set_head (l : list os_task) (tp : os_threadpool) :=
  {| num_threads := num_threads tp; head := l;
     waiting_threads := waiting_threads tp; stop_work := stop_work tp |}.

Definition set_waiting_threads (w : Z) (tp : os_threadpool) :=
  {| num_threads := num_threads tp; head := head tp;
     waiting_threads := w; stop_work := stop_work tp |}.

Definition set_stop_work (f : Z) (tp : os_threadpool) :=
  {| num_threads := num_threads tp; head := head tp;
     waiting_threads := waiting_threads tp; stop_work := f |}.

Definition queue_is_empty (tp : os_threadpool) : bool :=
  OsList.list_empty (head tp).

(** The spec's [pending]: the queued tasks, oldest first. *)
Definition pending (tp : os_threadpool) : list os_task := reverse (head tp).

(** [enqueue_task], lines 55-66. *)
Definition enqueue_task (tp : os_threadpool) (t : os_task)
    : os_threadpool * list notify :=
  let ns := if queue_is_empty tp then [Signal cond_queue] else [] in
  (set_head (OsList.list_add (head tp) t) tp, ns).

(** [dequeue_task], lines 92-97: the test against [num_threads - 1], then
    the increment. *)
Definition dequeue_enter (tp : os_threadpool) : os_threadpool * list notify :=
  let '(tp1, ns) :=
    if (waiting_threads tp =? wrap_uint (num_threads tp - 1))%Z
    then (set_stop_work 1 tp, [Broadcast cond_queue])
    else (tp, []) in
  (set_waiting_threads (wrap_uint (waiting_threads tp1 + 1)) tp1, ns).

(** [dequeue_task], lines 106-122: take [head.prev] if there is one,
    decrement, unlock, return. *)
Definition dequeue_leave (tp : os_threadpool)
    : os_threadpool * list notify * option os_task :=
  let '(tp1, ns, t) :=
    if negb (queue_is_empty tp)
    then (set_head (OsList.list_del_prev (head tp)) tp,
          [Signal work_done], OsList.list_prev (head tp))
    else (tp, [], None) in
  (set_waiting_threads (wrap_uint (waiting_threads tp1 - 1)) tp1, ns, t).

(** How a critical section of [dequeue_task] ends: in
    [pthread_cond_wait], or with the value returned. *)
Inductive outcome :=
| Blocked
| Returned (t : option os_task).

(** [dequeue_task], line 99 on: one evaluation of the loop condition with
    the mutex held, and what follows it. *)
Definition dequeue_loop (tp : os_threadpool)
    : os_threadpool * list notify * outcome :=
  if queue_is_empty tp && (stop_work tp =? 0)%Z
  then (tp, [], Blocked)
  else let '(tp1, ns, t) := dequeue_leave tp in (tp1, ns, Returned t).

(** A call of [dequeue_task] up to its first wait or its return. *)
Definition dequeue_task (tp : os_threadpool)
    : os_threadpool * list notify * outcome :=
  let '(tp1, ns1) := dequeue_enter tp in
  let '(tp2, ns2, o) := dequeue_loop tp1 in
  (tp2, ns1 ++ ns2, o).

(** The same call when [pthread_cond_wait] returns. *)
Definition dequeue_task_resume (tp : os_threadpool)
    : os_threadpool * list notify * outcome :=
  dequeue_loop tp.

(** [wait_for_completion], line 150: [true] when the caller goes into
    [pthread_cond_wait] on [work_done]. *)
Definition wait_for_completion_waits (tp : os_threadpool) : bool :=
  negb (queue_is_empty tp) && (stop_work tp =? 0)%Z.

(** [create_threadpool], lines 173-188, before the threads are started. *)
Definition create_threadpool (n : Z) : os_threadpool :=
  {| num_threads := n; head := OsList.list_init;
     waiting_threads := 0; stop_work := 0 |}.

(** [destroy_threadpool], lines 213-216: every node from [head.next] on
    is unlinked and its task destroyed. *)
Definition destroy_threadpool (tp : os_threadpool)
    : os_threadpool * list event :=
  (set_head [] tp, flat_map destroy_task (head tp)).

(** Section 4.1 of the specification, dequeue, in its own words, up to the
    point where the caller blocks: a non-empty [pending] gives its oldest
    entry and leaves idleWorkers alone; otherwise idleWorkers is
    incremented (1), shutdown is declared when it equals workerCount and
    [pending] is still empty (2), else the caller blocks unless shutdown
    was declared before (3), and a caller that leaves decrements
    idleWorkers and returns Done (4). *)
Definition dequeue_by_the_spec (tp : os_threadpool)
    : os_threadpool * list notify * outcome :=
  if negb (queue_is_empty tp)
  then (set_head (removelast (head tp)) tp, [Signal work_done],
        Returned (last (head tp)))
  else
    let tp1 := set_waiting_threads (waiting_threads tp + 1) tp in
    if (waiting_threads tp1 =? num_threads tp1)%Z && queue_is_empty tp1
    then (set_waiting_threads (waiting_threads tp1 - 1) (set_stop_work 1 tp1),
          [Broadcast cond_queue], Returned None)
    else if (stop_work tp1 =? 0)%Z
    then (tp1, [], Blocked)
    else (set_waiting_threads (waiting_threads tp1 - 1) tp1, [], Returned None).
End Task.

Arguments os_task : clear implicits.
Arguments event : clear implicits.
Arguments os_threadpool : clear implicits.
Arguments outcome : clear implicits.

(** ** Actions and the threads of the program *)

(** One step of a running action, as the pool sees it.  [C] is the state
    the actions share outside the pool and [L] the local state of one
    running action. *)
Inductive action_result (Fn Arg C L : Type) :=
| AFault                                  (* behaviour C leaves undefined *)
| ABlocked                                (* waits for a lock of its own *)
| AInternal (c : C) (l : L)               (* works on the shared state *)
| ASubmit (act : Fn) (arg : Arg) (destroy : option Fn) (c : C) (l : L)
                                          (* create_task, then enqueue_task *)
| AReturn (c : C).                        (* the action returns *)

Arguments AFault {Fn Arg C L}.
Arguments ABlocked {Fn Arg C L}.
Arguments AInternal {Fn Arg C L} c l.
Arguments ASubmit {Fn Arg C L} act arg destroy c l.
Arguments AReturn {Fn Arg C L} c.

(** The code behind the function pointers that tasks carry. *)
Class Client (Fn Arg C L : Type) := {
  action_entry : Fn -> Arg -> L;
  action_step : L -> C -> action_result Fn Arg C L
}.

Section Program.
Context {Fn Arg C L : Type} `{!Client Fn Arg C L}.

(** Where a worker is in [thread_loop_function]. *)
Inductive worker :=
| AtDequeue                             (* line 133, about to call dequeue_task *)
| InCondWait                            (* line 103, inside pthread_cond_wait *)
| Woken                                 (* unblocked, has to take the mutex again *)
| InAction (t : os_task Fn Arg) (l : L) (* line 136 *)
| Exited.                               (* line 140 *)

(** Where the submitter is: it submits its tasks, calls
    [wait_for_completion], then [destroy_threadpool]. *)
Inductive submitter :=
| Submitting (todo : list (Fn * Arg * option Fn))
| InWorkDoneWait                        (* line 154, inside pthread_cond_wait *)
| WorkDoneWoken
| Joining (i : Z)                       (* lines 160-161 *)
| Destroying                            (* wait_for_completion has returned *)
| Finished.                             (* destroy_threadpool has returned *)

Record sys := {
  tp : os_threadpool Fn Arg;
  threads : list worker;                (* tp->threads *)
  main : submitter;
  shared : C;
  allocated : nat;                      (* tasks created so far *)
  log : list (event Fn Arg)             (* oldest first *)
}.

Definition is_in_cond_wait (w : worker) : bool :=
  match w with InCondWait => true | _ => false end.

Definition wake (w : worker) : worker :=
  match w with InCondWait => Woken | _ => w end.

Definition wake_submitter (m : submitter) : submitter :=
  match m with InWorkDoneWait => WorkDoneWoken | _ => m end.

(** The effect of one notification.  [pthread_cond_signal] unblocks one
    of the threads waiting on the condition when there is any; [pick] is
    the one the system chooses (a signal that unblocks more than one is
    this step followed by returns without notification).  Only the
    submitter waits on [work_done]. *)
Definition deliver (pick : option nat) (n : notify)
    (wm : list worker * submitter) : option (list worker * submitter) :=
  let '(ws, m) := wm in
  match n with
  | Broadcast cond_queue => Some (map wake ws, m)
  | Signal cond_queue =>
      match pick with
      | Some j =>
          match ws !! j with
          | Some InCondWait => Some (<[j := Woken]> ws, m)
          | _ => None
          end
      | None => if existsb is_in_cond_wait ws then None else Some (ws, m)
      end
  | Signal work_done | Broadcast work_done => Some (ws, wake_submitter m)
  end.

Fixpoint deliver_all (pick : option nat) (ns : list notify)
    (wm : list worker * submitter) : option (list worker * submitter) :=
  match ns with
  | [] => Some wm
  | n :: ns' =>
      match deliver pick n wm with
      | Some wm' => deliver_all pick ns' wm'
      | None => None
      end
  end.

(** Lines 133-136: where a worker goes with the result of a critical
    section of [dequeue_task], and the call it makes. *)
Definition resume_at (o : outcome Fn Arg) : worker :=
  match o with
  | Blocked => InCondWait
  | Returned None => Exited
  | Returned (Some t) => InAction t (action_entry (action t) (argument t))
  end.

Definition outcome_events (o : outcome Fn Arg) : list (event Fn Arg) :=
  match o with
  | Returned (Some t) => [ActionCalled t]
  | _ => []
  end.

Definition after_dequeue (i : nat) (pick : option nat) (s : sys)
    (r : os_threadpool Fn Arg * list notify * outcome Fn Arg) : option sys :=
  let '(tp', ns, o) := r in
  match deliver_all pick ns (threads s, main s) with
  | None => None
  | Some (ws, m) =>
      Some {| tp := tp'; threads := <[i := resume_at o]> ws; main := m;
              shared := shared s; allocated := allocated s;
              log := log s ++ outcome_events o |}
  end.

(** [create_task] followed by [enqueue_task], by worker [i] (left in
    state [w]) or by the submitter (left in state [m]). *)
Definition submit (pick : option nat) (s : sys) (act : Fn) (arg : Arg)
    (destroy : option Fn) (c : C)
    (upd : list worker * submitter -> list worker * submitter) : option sys :=
  let t := create_task (allocated s) act arg destroy in
  let '(tp', ns) := enqueue_task (tp s) t in
  match deliver_all pick ns (threads s, main s) with
  | None => None
  | Some wm =>
      let '(ws, m) := upd wm in
      Some {| tp := tp'; threads := ws; main := m; shared := c;
              allocated := S (allocated s); log := log s ++ [Created t] |}
  end.

(** The next step of worker [i]. *)
Definition worker_step (i : nat) (pick : option nat) (s : sys) : option sys :=
  match threads s !! i with
  | Some AtDequeue => after_dequeue i pick s (dequeue_task (tp s))
  | Some Woken => after_dequeue i pick s (dequeue_task_resume (tp s))
  | Some (InAction t l) =>
      match action_step l (shared s) with
      | AInternal c l' =>
          Some {| tp := tp s; threads := <[i := InAction t l']> (threads s);
                  main := main s; shared := c; allocated := allocated s;
                  log := log s |}
      | ASubmit act arg destroy c l' =>
          submit pick s act arg destroy c
            (fun wm => (<[i := InAction t l']> (fst wm), snd wm))
      | AReturn c =>
          (* line 137 *)
          Some {| tp := tp s; threads := <[i := AtDequeue]> (threads s);
                  main := main s; shared := c; allocated := allocated s;
                  log := log s ++ destroy_task t |}
      | AFault | ABlocked => None
      end
  | _ => None
  end.

(** [wait_for_completion], lines 148-157, from the lock or from a return
    of [pthread_cond_wait]. *)
Definition wait_for_completion_section (s : sys) : sys :=
  {| tp := tp s; threads := threads s;
     main := if wait_for_completion_waits (tp s) then InWorkDoneWait else Joining 0;
     shared := shared s; allocated := allocated s; log := log s |}.

(** The next step of the submitter. *)
Definition main_step (pick : option nat) (s : sys) : option sys :=
  match main s with
  | Submitting ((act, arg, destroy) :: todo) =>
      submit pick s act arg destroy (shared s)
        (fun wm => (fst wm, Submitting todo))
  | Submitting [] => Some (wait_for_completion_section s)
  | WorkDoneWoken => Some (wait_for_completion_section s)
  | Joining i =>
      if (i <? num_threads (tp s))%Z
      then match threads s !! Z.to_nat i with
           | Some Exited =>
               Some {| tp := tp s; threads := threads s;
                       main := Joining (wrap_uint (i + 1));
                       shared := shared s; allocated := allocated s;
                       log := log s |}
           | _ => None                  (* pthread_join blocks *)
           end
      else Some {| tp := tp s; threads := threads s; main := Destroying;
                   shared := shared s; allocated := allocated s; log := log s |}
  | Destroying =>
      let '(tp', evs) := destroy_threadpool (tp s) in
      Some {| tp := tp'; threads := threads s; main := Finished;
              shared := shared s; allocated := allocated s;
              log := log s ++ evs |}
  | InWorkDoneWait | Finished => None
  end.

(** Who runs next.  A wait on a condition variable may also return
    without a notification; the last two labels are these returns. *)
Inductive label :=
| RunWorker (i : nat) (pick : option nat)
| RunMain (pick : option nat)
| SpuriousWorker (i : nat)
| SpuriousMain.

Definition is_spurious (a : label) : bool :=
  match a with
  | SpuriousWorker _ | SpuriousMain => true
  | RunWorker _ _ | RunMain _ => false
  end.

Definition step (a : label) (s : sys) : option sys :=
  match a with
  | RunWorker i pick => worker_step i pick s
  | RunMain pick => main_step pick s
  | SpuriousWorker i =>
      match threads s !! i with
      | Some InCondWait =>
          Some {| tp := tp s; threads := <[i := Woken]> (threads s);
                  main := main s; shared := shared s;
                  allocated := allocated s; log := log s |}
      | _ => None
      end
  | SpuriousMain =>
      match main s with
      | InWorkDoneWait =>
          Some {| tp := tp s; threads := threads s; main := WorkDoneWoken;
                  shared := shared s; allocated := allocated s; log := log s |}
      | _ => None
      end
  end.

Fixpoint run (tr : list label) (s : sys) : option sys :=
  match tr with
  | [] => Some s
  | a :: tr' =>
      match step a s with
      | Some s' => run tr' s'
      | None => None
      end
  end.

(** [create_threadpool(n)] has returned, no worker has run yet, and the
    submitter has [seeds] to submit. *)
Definition init (n : Z) (seeds : list (Fn * Arg * option Fn)) (c : C) : sys :=
  {| tp := create_threadpool n; threads := replicate (Z.to_nat n) AtDequeue;
     main := Submitting seeds; shared := c; allocated := 0; log := [] |}.

Definition reachable (n : Z) (seeds : list (Fn * Arg * option Fn)) (c : C)
    (s : sys) : Prop :=
  exists tr, run tr (init n seeds c) = Some s.

(** The values of [stop_work] along a run, and how often a list of
    values goes from zero to non-zero or back, starting from [prev]. *)
Fixpoint stop_work_history (tr : list label) (s : sys) : list Z :=
  stop_work (tp s) ::
  match tr with
  | [] => []
  | a :: tr' =>
      match step a s with
      | Some s' => stop_work_history tr' s'
      | None => []
      end
  end.

Fixpoint rises (prev : Z) (vs : list Z) : nat :=
  match vs with
  | [] => 0
  | v :: vs' =>
      (if (prev =? 0)%Z && negb (v =? 0)%Z then 1 else 0) + rises v vs'
  end.

Fixpoint falls (prev : Z) (vs : list Z) : nat :=
  match vs with
  | [] => 0
  | v :: vs' =>
      (if negb (prev =? 0)%Z && (v =? 0)%Z then 1 else 0) + falls v vs'
  end.

(** The steps of the program, as a relation. *)
Inductive transition (s : sys) : sys -> Prop :=
| T_dequeue i pick w tp' ns o ws m :
    threads s !! i = Some w ->
    (w = AtDequeue /\ dequeue_task (tp s) = (tp', ns, o)) \/
    (w = Woken /\ dequeue_task_resume (tp s) = (tp', ns, o)) ->
    deliver_all pick ns (threads s, main s) = Some (ws, m) ->
    transition s
      {| tp := tp'; threads := <[i := resume_at o]> ws; main := m;
         shared := shared s; allocated := allocated s;
         log := log s ++ outcome_events o |}
| T_internal i t l c l' :
    threads s !! i = Some (InAction t l) ->
    action_step l (shared s) = AInternal c l' ->
    transition s
      {| tp := tp s; threads := <[i := InAction t l']> (threads s);
         main := main s; shared := c; allocated := allocated s;
         log := log s |}
| T_submit i t l act arg destroy c l' pick tp' ns ws m :
    threads s !! i = Some (InAction t l) ->
    action_step l (shared s) = ASubmit act arg destroy c l' ->
    enqueue_task (tp s) (create_task (allocated s) act arg destroy) = (tp', ns) ->
    deliver_all pick ns (threads s, main s) = Some (ws, m) ->
    transition s
      {| tp := tp'; threads := <[i := InAction t l']> ws; main := m;
         shared := c; allocated := S (allocated s);
         log := log s ++ [Created (create_task (allocated s) act arg destroy)] |}
| T_return i t l c :
    threads s !! i = Some (InAction t l) ->
    action_step l (shared s) = AReturn c ->
    transition s
      {| tp := tp s; threads := <[i := AtDequeue]> (threads s);
         main := main s; shared := c; allocated := allocated s;
         log := log s ++ destroy_task t |}
| T_seed act arg destroy todo pick tp' ns ws m :
    main s = Submitting ((act, arg, destroy) :: todo) ->
    enqueue_task (tp s) (create_task (allocated s) act arg destroy) = (tp', ns) ->
    deliver_all pick ns (threads s, main s) = Some (ws, m) ->
    transition s
      {| tp := tp'; threads := ws; main := Submitting todo;
         shared := shared s; allocated := S (allocated s);
         log := log s ++ [Created (create_task (allocated s) act arg destroy)] |}
| T_wait :
    main s = Submitting [] \/ main s = WorkDoneWoken ->
    transition s (wait_for_completion_section s)
| T_join i :
    main s = Joining i ->
    (i < num_threads (tp s))%Z ->
    threads s !! Z.to_nat i = Some Exited ->
    transition s
      {| tp := tp s; threads := threads s; main := Joining (wrap_uint (i + 1));
         shared := shared s; allocated := allocated s; log := log s |}
| T_joined i :
    main s = Joining i ->
    (num_threads (tp s) <= i)%Z ->
    transition s
      {| tp := tp s; threads := threads s; main := Destroying;
         shared := shared s; allocated := allocated s; log := log s |}
| T_destroy :
    main s = Destroying ->
    transition s
      {| tp := set_head [] (tp s); threads := threads s; main := Finished;
         shared := shared s; allocated := allocated s;
         log := log s ++ flat_map destroy_task (head (tp s)) |}
| T_spurious_worker i :
    threads s !! i = Some InCondWait ->
    transition s
      {| tp := tp s; threads := <[i := Woken]> (threads s);
         main := main s; shared := shared s;
         allocated := allocated s; log := log s |}
| T_spurious_main :
    main s = InWorkDoneWait ->
    transition s
      {| tp := tp s; threads := threads s; main := WorkDoneWoken;
         shared := shared s; allocated := allocated s; log := log s |}.

(** Workers inside [dequeue_task], in [pthread_cond_wait] or just out of
    it. *)
Definition is_idle (w : worker) : bool :=
  match w with InCondWait | Woken => true | _ => false end.

Definition idle_count (ws : list worker) : nat :=
  length (filter (fun w => is_idle w = true) ws).

Definition idle_weight (w : worker) : nat := if is_idle w then 1 else 0.

(** The tasks that workers are executing. *)
Definition task_of (w : worker) : option (os_task Fn Arg) :=
  match w with InAction t _ => Some t | _ => None end.

Definition executing (ws : list worker) : list (os_task Fn Arg) :=
  omap task_of ws.

(** What a notification may do to a thread. *)
Definition woken (w w' : worker) : Prop := w' = w \/ w' = wake w.

Definition submitter_woken (m m' : submitter) : Prop :=
  m' = m \/ m' = wake_submitter m.

Definition created (evs : list (event Fn Arg)) : list (os_task Fn Arg) :=
  omap (fun e => match e with Created t => Some t | _ => None end) evs.

Definition called (evs : list (event Fn Arg)) : list (os_task Fn Arg) :=
  omap (fun e => match e with ActionCalled t => Some t | _ => None end) evs.

Definition arg_destroyed (evs : list (event Fn Arg)) : list (os_task Fn Arg) :=
  omap (fun e => match e with DestroyArgCalled t => Some t | _ => None end) evs.

Definition freed (evs : list (event Fn Arg)) : list (os_task Fn Arg) :=
  omap (fun e => match e with Freed t => Some t | _ => None end) evs.

(** The counter of idle workers counts the workers inside
    [pthread_cond_wait] or just out of it, and the pool has the [n]
    threads it was created with. *)
Definition counts_ok (n : Z) (s : sys) : Prop :=
  num_threads (tp s) = n /\
  length (threads s) = Z.to_nat n /\
  waiting_threads (tp s) = Z.of_nat (idle_count (threads s)).

(** The workers that [wait_for_completion] has joined have left their
    loop, and [destroy_threadpool] leaves an empty queue. *)
Definition joined_ok (s : sys) : Prop :=
  match main s with
  | Joining i =>
      (0 <= i <= num_threads (tp s))%Z /\
      forall j, j < Z.to_nat i -> threads s !! j = Some Exited
  | Destroying => Forall (fun w => w = Exited) (threads s)
  | Finished => Forall (fun w => w = Exited) (threads s) /\ head (tp s) = []
  | _ => True
  end.

(** Every task created is in the queue, or being executed by one
    worker, or freed; addresses are handed out in order; and the
    destructor calls are those of the freed tasks that have one. *)
Definition tasks_ok (s : sys) : Prop :=
  created (log s) ≡ₚ head (tp s) ++ executing (threads s) ++ freed (log s) /\
  self <$> created (log s) = seq 0 (allocated s) /\
  arg_destroyed (log s)
    = filter (fun t => is_Some (destroy_arg t)) (freed (log s)).

(** Every call of an action is that of a task being executed or freed
    since. *)
Definition executed_ok (s : sys) : Prop :=
  exists rest,
    executing (threads s) ++ freed (log s) ≡ₚ called (log s) ++ rest.

(** Until [destroy_threadpool], the tasks freed are tasks whose action
    has been called and has returned. *)
Definition disposed_ok (s : sys) : Prop :=
  main s <> Finished ->
  called (log s) ≡ₚ executing (threads s) ++ freed (log s).

(** How many of the tasks in [ts] live at address [a]. *)
Definition occurrences (a : nat) (ts : list (os_task Fn Arg)) : nat :=
  length (filter (fun t => self t = a) ts).
End Program.

Arguments worker : clear implicits.
Arguments submitter : clear implicits.
Arguments sys : clear implicits.

(** ** The graph traversal of [parallel.c] *)

Module Parallel.
(** Modelled from the spec: the marks of the missing [os_graph.h] that the
    source names. *)
Inductive visit := NOT_VISITED | DONE.

(** Modelled from the spec: [os_node_t] of the missing [os_graph.h], with
    the fields that [process_graph] reads; [num_neighbours] is the length
    of [neighbours]. *)
Record os_node := {
  info : Z;
  neighbours : list nat
}.

(** Modelled from the spec: [os_graph_t] of the missing [os_graph.h], the
    nodes and their marks. *)
Record os_graph := {
  nodes : list os_node;
  visited : list visit
}.

(** The file-scope variables of [parallel.c]: the graph, [sum], and
    whether the graph's [mutex] is locked. *)
Record globals := {
  graph : os_graph;
  sum : Z;
  mutex : bool
}.

(** The one function that tasks point to. *)
Inductive fn := PROCESS_GRAPH.

Definition NUM_THREADS : Z := 4.

(** [process_node], lines 62-71: the task it creates and enqueues.  The
    argument is a fresh cell that holds [idx] and is never written
    again, so it is modelled by [idx]. *)
Definition process_node (idx : nat) : fn * nat * option fn :=
  (PROCESS_GRAPH, idx, None).

Definition set_visited (idx : nat) (v : visit) (g : os_graph) : os_graph :=
  {| nodes := nodes g; visited := <[idx := v]> (visited g) |}.

(** [process_graph], lines 27-55, run from the lock to the unlock: the
    globals it leaves and the tasks it has enqueued, in order.  [None]
    is an index outside the graph. *)
Definition process_graph (idx : nat) (g : globals)
    : option (globals * list (fn * nat * option fn)) :=
  match visited (graph g) !! idx with
  | None => None
  | Some DONE => Some (g, [])
  | Some NOT_VISITED =>
      match nodes (graph g) !! idx with
      | None => None
      | Some current =>
          Some ({| graph := set_visited idx DONE (graph g);
                   sum := wrap_int (sum g + info current);
                   mutex := mutex g |},
                map process_node (neighbours current))
      end
  end.

(** Where a running [process_graph] is: before line 32, or in the loop of
    lines 51-52 with the neighbours still to be submitted. *)
Inductive pc :=
| AtLock (idx : nat)
| InLoop (todo : list nat).

(** The same function in steps, so that other threads run in between. *)
Definition process_graph_step (l : pc) (g : globals)
    : action_result fn nat globals pc :=
  match l with
  | AtLock idx =>
      if mutex g then ABlocked
      else
        match visited (graph g) !! idx with
        | None => AFault
        | Some DONE => AReturn g
        | Some NOT_VISITED =>
            match nodes (graph g) !! idx with
            | None => AFault
            | Some current =>
                AInternal {| graph := set_visited idx DONE (graph g);
                             sum := wrap_int (sum g + info current);
                             mutex := true |}
                          (InLoop (neighbours current))
            end
        end
  | InLoop (j :: todo) =>
      let '(act, arg, destroy) := process_node j in
      ASubmit act arg destroy g (InLoop todo)
  | InLoop [] =>
      AReturn {| graph := graph g; sum := sum g; mutex := false |}
  end.

#[export] Instance graph_client : Client fn nat globals pc := {
  action_entry := fun _ idx => AtLock idx;
  action_step := process_graph_step
}.

(** [main], lines 86-96, once the graph is read: the pool is created,
    node 0 is submitted, and the rest is the submitter's. *)
Definition main_program (n : Z) (g : os_graph) : sys fn nat globals pc :=
  init n [process_node 0] {| graph := g; sum := 0; mutex := false |}.

(** The sum of the values of the nodes marked [DONE]. *)
Fixpoint done_total (ns : list os_node) (vs : list visit) : Z :=
  match ns, vs with
  | n :: ns', DONE :: vs' => (info n + done_total ns' vs')%Z
  | _ :: ns', NOT_VISITED :: vs' => done_total ns' vs'
  | _, _ => 0%Z
  end.

(** [sum] is the sum of the values of the nodes marked [DONE]. *)
Definition sum_ok (g : globals) : Prop :=
  sum g = wrap_int (done_total (nodes (graph g)) (visited (graph g))).

(** [process_graph] on each index of a list, one call after the other. *)
Fixpoint process_all (idxs : list nat) (g : globals) : option globals :=
  match idxs with
  | [] => Some g
  | idx :: idxs' =>
      match process_graph idx g with
      | Some (g', _) => process_all idxs' g'
      | None => None
      end
  end.

(** [process_graph_step] repeated until the action returns, with the
    tasks submitted on the way. *)
Fixpoint process_graph_steps (fuel : nat) (l : pc) (g : globals)
    (out : list (fn * nat * option fn))
    : option (globals * list (fn * nat * option fn)) :=
  match fuel with
  | 0 => None
  | S fuel' =>
      match process_graph_step l g with
      | AInternal g' l' => process_graph_steps fuel' l' g' out
      | ASubmit act arg destroy g' l' =>
          process_graph_steps fuel' l' g' (out ++ [(act, arg, destroy)])
      | AReturn g' => Some (g', out)
      | AFault | ABlocked => None
      end
  end.

(** The graph of the end-to-end scenario: A..E are 0..4 with values
    1..5, the cycle A->B->C->A, and the branch C->D, D->E. *)
Definition five_nodes : os_graph :=
  {| nodes := [ {| info := 1; neighbours := [1] |};
                {| info := 2; neighbours := [2] |};
                {| info := 3; neighbours := [0; 3] |};
                {| info := 4; neighbours := [4] |};
                {| info := 5; neighbours := [] |} ];
     visited := replicate 5 NOT_VISITED |}.

(** All four workers call [dequeue_task] before the submitter has
    enqueued node 0: three block, the fourth declares the work done, all
    leave, and the submitter finds nobody to run its task. *)
Definition early_workers : list label :=
  [ RunWorker 0 None; RunWorker 1 None; RunWorker 2 None; RunWorker 3 None;
    RunWorker 0 None; RunWorker 1 None; RunWorker 2 None;
    RunMain None; RunMain None;
    RunMain None; RunMain None; RunMain None; RunMain None; RunMain None ].

(** The submitter enqueues node 0 first; worker 0 then runs every task,
    the other workers go idle, and the last one to do so ends the work. *)
Definition submitter_first : list label :=
  [RunMain None] ++ replicate 23 (RunWorker 0 None)
  ++ [ RunWorker 1 None; RunWorker 2 None; RunWorker 3 None;
       RunWorker 0 None; RunWorker 1 None; RunWorker 2 None ]
  ++ replicate 7 (RunMain None).

(** The same schedule, and then [destroy_threadpool]. *)
Definition early_workers_to_the_end : list label :=
  early_workers ++ [RunMain None].
End Parallel.

(** ** A small program for examples *)

Module Demo.
(** Function pointers and arguments are numbers, and an action returns
    as soon as it is called. *)
Definition client : Client nat nat unit unit :=
  {| action_entry := fun _ _ => tt; action_step := fun _ c => AReturn c |}.

(** One task, action 7 on argument 5 with destructor 9. *)
Definition seeds : list (nat * nat * option nat) := [(7, 5, Some 9)].

Definition task : os_task nat nat := create_task 0 7 5 (Some 9).

Definition start : sys nat nat unit unit := init 1 seeds tt.

(** The submitter enqueues the task; the one worker takes it, runs it,
    destroys it, finds the queue empty and leaves. *)
Definition submit_and_run : list label :=
  [RunMain None; RunWorker 0 None; RunWorker 0 None; RunWorker 0 None].

(** The submitter then waits, joins the worker and destroys the pool. *)
Definition shut_down : list label :=
  [RunMain None; RunMain None; RunMain None; RunMain None].

Definition drained : sys nat nat unit unit :=
  Eval vm_compute in default start (@run _ _ _ _ client submit_and_run start).

Definition finished : sys nat nat unit unit :=
  Eval vm_compute in default start (@run _ _ _ _ client shut_down drained).

(** A pool of two threads, one of them waiting, and an empty queue. *)
Definition last_to_idle : os_threadpool nat nat :=
  {| num_threads := 2; head := []; waiting_threads := 1; stop_work := 0 |}.

(** A pool with two pending tasks: 0 was enqueued first, then 1. *)
Definition first : os_task nat nat := create_task 0 7 5 None.
Definition second : os_task nat nat := create_task 1 7 6 None.
Definition two_pending : os_threadpool nat nat :=
  {| num_threads := 2; head := [second; first]; waiting_threads := 1;
     stop_work := 0 |}.

(** The graph of the scenario once node A has been processed. *)
Definition a_done : Parallel.globals :=
  {| Parallel.graph := Parallel.set_visited 0 Parallel.DONE Parallel.five_nodes;
     Parallel.sum := 1; Parallel.mutex := false |}.
End Demo.

(** ** Further invariants of the program *)

Section Service.
Context {Fn Arg C L : Type} `{!Client Fn Arg C L}.

(** The submitter has no task left to submit. *)
Definition past_submitting (m : submitter Fn Arg) : Prop :=
  match m with
  | Submitting (_ :: _) => False
  | _ => True
  end.

(** A non-empty queue has a worker that has not left its loop. *)
Definition served (s : sys Fn Arg C L) : Prop :=
  head (tp s) <> [] ->
  exists i w, threads s !! i = Some w /\ w <> Exited.

(** A worker has left its loop only if [stop_work] is set. *)
Definition exits_ok (s : sys Fn Arg C L) : Prop :=
  (exists i, threads s !! i = Some Exited) -> stop_work (tp s) <> 0%Z.

(** The tasks the submitter has still to submit satisfy [Q], given as a
    property of the three arguments of [create_task]. *)
Definition todo_ok (Q : Fn -> Arg -> option Fn -> Prop)
    (m : submitter Fn Arg) : Prop :=
  match m with
  | Submitting todo => Forall (fun x => Q x.1.1 x.1.2 x.2) todo
  | _ => True
  end.

(** Nothing is left behind: the submitter has submitted everything, a
    non-empty queue has a worker to serve it, and once the pool is
    destroyed every task created has had its action called. *)
Definition drained_ok (s : sys Fn Arg C L) : Prop :=
  past_submitting (main s) /\
  served s /\
  (main s = Finished -> called (log s) ≡ₚ created (log s)).
End Service.

(** ** The traversal on the pool *)

Section TraversalModel.
Import Parallel.

(** [j] is reached from [i] along the edges of the graph. *)
Inductive reach (ns : list os_node) (i : nat) : nat -> Prop :=
| reach_here : reach ns i i
| reach_edge k nk j :
    reach ns i k -> ns !! k = Some nk -> j ∈ neighbours nk -> reach ns i j.

(** The marks form a table as long as the table of nodes, and every
    neighbour is the index of a node. *)
Definition in_range (g : os_graph) : Prop :=
  length (visited g) = length (nodes g) /\
  Forall (fun nd => Forall (fun j => j < length (nodes g)) (neighbours nd))
         (nodes g).

(** The indices that a worker inside [process_graph] has still to look
    at: its own before the lock, the neighbours left in the loop. *)
Definition local_wanted (w : worker fn nat pc) : list nat :=
  match w with
  | InAction _ (AtLock idx) => [idx]
  | InAction _ (InLoop todo) => todo
  | _ => []
  end.

Definition todo_args (m : submitter fn nat) : list nat :=
  match m with
  | Submitting todo => (fun x => x.1.2) <$> todo
  | _ => []
  end.

(** The indices still to be looked at: those the submitter has to submit,
    those of the tasks in the queue, and those the workers hold. *)
Definition wanted (s : sys fn nat globals pc) : list nat :=
  todo_args (main s) ++ (argument <$> head (tp s))
  ++ flat_map local_wanted (threads s).

(** What a step does to the graph and to the indices still wanted:
    nothing, or it finds a marked node and drops its index, or it marks a
    node and wants its neighbours instead, or it is [destroy_threadpool]
    dropping the tasks left in the queue. *)
Inductive effect (s s' : sys fn nat globals pc) : Prop :=
| E_none :
    graph (shared s') = graph (shared s) ->
    sum (shared s') = sum (shared s) ->
    wanted s' ≡ₚ wanted s ->
    effect s s'
| E_skip idx :
    graph (shared s') = graph (shared s) ->
    sum (shared s') = sum (shared s) ->
    visited (graph (shared s)) !! idx = Some DONE ->
    wanted s ≡ₚ idx :: wanted s' ->
    effect s s'
| E_mark idx current rest :
    visited (graph (shared s)) !! idx = Some NOT_VISITED ->
    nodes (graph (shared s)) !! idx = Some current ->
    graph (shared s') = set_visited idx DONE (graph (shared s)) ->
    sum (shared s') = wrap_int (sum (shared s) + info current) ->
    wanted s ≡ₚ idx :: rest ->
    wanted s' ≡ₚ neighbours current ++ rest ->
    effect s s'
| E_drop :
    graph (shared s') = graph (shared s) ->
    sum (shared s') = sum (shared s) ->
    main s' = Finished ->
    wanted s ≡ₚ (argument <$> head (tp s)) ++ wanted s' ->
    effect s s'.

(** The nodes are those of the graph [g0] the program started with and
    every index wanted is the index of a node. *)
Definition bounds_ok (g0 : os_graph) (s : sys fn nat globals pc) : Prop :=
  nodes (graph (shared s)) = nodes g0 /\
  length (visited (graph (shared s))) = length (nodes g0) /\
  Forall (fun j => j < length (nodes g0)) (wanted s).

(** The marked nodes are reached from node 0, and what is reached in one
    more edge is marked or still wanted; node 0 itself is marked or
    wanted. *)
Definition closed_ok (g0 : os_graph) (s : sys fn nat globals pc) : Prop :=
  nodes (graph (shared s)) = nodes g0 /\
  (visited (graph (shared s)) !! 0 = Some DONE \/ 0 ∈ wanted s) /\
  (forall i ni j,
     visited (graph (shared s)) !! i = Some DONE ->
     nodes g0 !! i = Some ni -> j ∈ neighbours ni ->
     visited (graph (shared s)) !! j = Some DONE \/ j ∈ wanted s) /\
  (forall i, visited (graph (shared s)) !! i = Some DONE -> reach (nodes g0) 0 i) /\
  (forall j, j ∈ wanted s -> reach (nodes g0) 0 j).

(** Workers between the lock and the unlock of the graph's mutex. *)
Definition in_loop (w : worker fn nat pc) : nat :=
  match w with
  | InAction _ (InLoop _) => 1
  | _ => 0
  end.

Definition in_loop_count (ws : list (worker fn nat pc)) : nat :=
  sum_list (in_loop <$> ws).

(** The mutex is held exactly while one worker is in the loop. *)
Definition mutex_ok (s : sys fn nat globals pc) : Prop :=
  in_loop_count (threads s) = if mutex (shared s) then 1 else 0.

(** [s] is a state of a run of [main] with [n] threads on the graph
    [g0]. *)
Definition main_reaches (n : Z) (g0 : os_graph) (s : sys fn nat globals pc)
    : Prop :=
  reachable n [process_node 0] {| graph := g0; sum := 0; mutex := false |} s.

(** The submitter of [parallel.c] has submitted node 0 and the worker 0
    has not yet run. *)
Definition node_0_submitted : list label := [RunMain None].

(** The rest of the schedule [submitter_first]. *)
Definition workers_then_join : list label :=
  replicate 23 (RunWorker 0 None)
  ++ [ RunWorker 1 None; RunWorker 2 None; RunWorker 3 None;
       RunWorker 0 None; RunWorker 1 None; RunWorker 2 None ]
  ++ replicate 7 (RunMain None).

Definition five_nodes_submitted : sys fn nat globals pc :=
  Eval vm_compute in
    default (main_program NUM_THREADS five_nodes)
            (run node_0_submitted (main_program NUM_THREADS five_nodes)).

Definition five_nodes_finished : sys fn nat globals pc :=
  Eval vm_compute in
    default five_nodes_submitted (run workers_then_join five_nodes_submitted).
End TraversalModel.

(** ** States of the example runs *)

Section ExampleStates.
Import Parallel.

(** Worker 0 has taken the task of node 0, marked the node and submitted
    its neighbour: it holds the graph's mutex. *)
Definition first_node_marked : list label := replicate 3 (RunWorker 0 None).

Definition five_nodes_in_loop : sys fn nat globals pc :=
  Eval vm_compute in
    default five_nodes_submitted (run first_node_marked five_nodes_submitted).

(** Worker 0 has processed every node and waits, as do workers 1 and 2;
    worker 3 is about to call [dequeue_task]. *)
Definition three_workers_wait : list label :=
  replicate 23 (RunWorker 0 None) ++ [RunWorker 1 None; RunWorker 2 None].

Definition five_nodes_last_call : sys fn nat globals pc :=
  Eval vm_compute in
    default five_nodes_submitted (run three_workers_wait five_nodes_submitted).

(** The workers have been joined and the pool is not yet destroyed. *)
Definition workers_joined : list label :=
  three_workers_wait
  ++ [ RunWorker 3 None; RunWorker 0 None; RunWorker 1 None; RunWorker 2 None ]
  ++ replicate 6 (RunMain None).

Definition five_nodes_joined : sys fn nat globals pc :=
  Eval vm_compute in
    default five_nodes_submitted (run workers_joined five_nodes_submitted).
End ExampleStates.

Section DemoStates.
Local Existing Instance Demo.client.

(** The submitter of the small program has enqueued its task. *)
Definition demo_submitted : sys nat nat unit unit :=
  Eval vm_compute in default Demo.start (run [RunMain None] Demo.start).

(** The worker runs the task and leaves, the submitter waits, joins and
    destroys the pool. *)
Definition demo_run_and_shut_down : list label :=
  replicate 3 (RunWorker 0 None) ++ Demo.shut_down.

(** The worker of the small program has been joined. *)
Definition demo_join : list label := replicate 3 (RunMain None).

Definition demo_joined : sys nat nat unit unit :=
  Eval vm_compute in default Demo.start (run demo_join Demo.drained).
End DemoStates.

Section NoThreadsStates.
Local Existing Instance Demo.client.

(** The small program on a pool without threads: the submitter has
    enqueued its task and waits. *)
Definition demo_no_threads : sys nat nat unit unit :=
  Eval vm_compute in
    default (init 0 Demo.seeds tt)
            (run [RunMain None; RunMain None] (init 0 Demo.seeds tt)).
End NoThreadsStates.

(** ** Threads that can run *)

Section Progress.
Context {Fn Arg C L : Type} `{!Client Fn Arg C L}.

(** Some thread can take a step that is not a return of
    [pthread_cond_wait] without a notification. *)
Definition can_step (s : sys Fn Arg C L) : Prop :=
  exists a s', is_spurious a = false /\ step a s = Some s'.

(** A worker that is neither inside [pthread_cond_wait] nor gone. *)
Definition is_running (w : worker Fn Arg L) : bool :=
  match w with
  | AtDequeue | Woken | InAction _ _ => true
  | InCondWait | Exited => false
  end.

(** While [stop_work] is clear some worker is outside [dequeue_task];
    once it is set no worker is left inside [pthread_cond_wait]. *)
Definition awake_ok (s : sys Fn Arg C L) : Prop :=
  (stop_work (tp s) = 0%Z -> idle_count (threads s) < length (threads s)) /\
  (stop_work (tp s) <> 0%Z ->
   Forall (fun w => is_in_cond_wait w = false) (threads s)).

(** The submitter is inside [pthread_cond_wait] only while the queue
    holds a task and some worker has not left its loop. *)
Definition waiter_ok (s : sys Fn Arg C L) : Prop :=
  main s = InWorkDoneWait ->
  head (tp s) <> [] /\ exists i w, threads s !! i = Some w /\ w <> Exited.
End Progress.

Section NoThreads.
Context {Fn Arg : Type}.

(** The submitter is past the loop of [wait_for_completion]. *)
Definition past_wait_loop (m : submitter Fn Arg) : Prop :=
  match m with
  | Joining _ | Destroying | Finished => True
  | Submitting _ | InWorkDoneWait | WorkDoneWoken => False
  end.
End NoThreads.

(** ** A bound on the steps of the traversal *)

Section Cost.
Import Parallel.

(** What the unmarked nodes can still cause: a mark each, and a task for
    each of their neighbours. *)
Fixpoint marks_cost (ns : list os_node) (vs : list visit) : nat :=
  match ns, vs with
  | nd :: ns', NOT_VISITED :: vs' =>
      1 + 5 * length (neighbours nd) + marks_cost ns' vs'
  | _ :: ns', DONE :: vs' => marks_cost ns' vs'
  | _, _ => 0
  end.

(** The steps a worker has before it next changes the queue: a task
    still to be enqueued counts for the enqueue, a wake-up, the dequeue
    and the look at the mark. *)
Definition worker_cost (w : worker fn nat pc) : nat :=
  match w with
  | AtDequeue => 2
  | InCondWait => 1
  | Woken => 2
  | InAction _ (AtLock _) => 3
  | InAction _ (InLoop todo) => 3 + 5 * length todo
  | Exited => 0
  end.

Definition workers_cost (ws : list (worker fn nat pc)) : nat :=
  sum_list (worker_cost <$> ws).

(** The steps of the submitter in a pool of [k] threads. *)
Definition main_cost (k : nat) (m : submitter fn nat) : nat :=
  match m with
  | Submitting todo => k + 5 + 5 * length todo
  | WorkDoneWoken => k + 4
  | InWorkDoneWait => k + 3
  | Joining i => k - Z.to_nat i + 2
  | Destroying => 1
  | Finished => 0
  end.

(** The broadcast that sets the flag wakes up to [k] workers. *)
Definition flag_cost (k : nat) (tp : os_threadpool fn nat) : nat :=
  if (stop_work tp =? 0)%Z then k else 0.

(** A bound on the steps the program has left, returns of
    [pthread_cond_wait] without notification apart. *)
Definition steps_left (s : sys fn nat globals pc) : nat :=
  main_cost (length (threads s)) (main s)
  + workers_cost (threads s)
  + 3 * length (head (tp s))
  + flag_cost (length (threads s)) (tp s)
  + marks_cost (nodes (graph (shared s))) (visited (graph (shared s))).
End Cost.

(** * Properties *)

(** ** Arithmetic on machine integers *)

Lemma wrap_uint_small z : (0 <= z < 2 ^ 32)%Z -> wrap_uint z = z.
Proof. intros Hz. unfold wrap_uint. by apply Z.mod_small. Qed.

Lemma wrap_uint_range z : (0 <= wrap_uint z < 2 ^ 32)%Z.
Proof. unfold wrap_uint. apply Z.mod_pos_bound. lia. Qed.

Lemma wrap_uint_succ_pred w :
  (0 <= w < 2 ^ 32)%Z -> wrap_uint (wrap_uint (w + 1) - 1) = w.
Proof.
  intros Hw. unfold wrap_uint.
  destruct (decide (w + 1 = 2 ^ 32)%Z) as [Heq|Hne].
  - rewrite Heq, Z.mod_same by lia.
    change (0 - 1)%Z with (-1)%Z.
    replace w with (2 ^ 32 - 1)%Z by lia. reflexivity.
  - rewrite (Z.mod_small (w + 1)) by lia.
    replace (w + 1 - 1)%Z with w by lia. apply Z.mod_small. lia.
Qed.

(** The source's test before the increment is the test of the incremented
    counter against the number of threads. *)
Lemma last_idle_test w n :
  (0 <= w < 2 ^ 32)%Z -> (0 <= n < 2 ^ 32)%Z ->
  (w =? wrap_uint (n - 1))%Z = (wrap_uint (w + 1) =? n)%Z.
Proof.
  intros Hw Hn. unfold wrap_uint.
  destruct (decide (n = 0%Z)) as [->|Hn0].
  - change ((0 - 1) mod 2 ^ 32)%Z with (2 ^ 32 - 1)%Z.
    destruct (decide (w = 2 ^ 32 - 1)%Z) as [->|Hne].
    + reflexivity.
    + rewrite (Z.mod_small (w + 1)) by lia.
      destruct (Z.eqb_spec w (2 ^ 32 - 1)), (Z.eqb_spec (w + 1) 0); lia.
  - rewrite (Z.mod_small (n - 1)) by lia.
    destruct (decide (w = 2 ^ 32 - 1)%Z) as [->|Hne].
    + change ((2 ^ 32 - 1 + 1) mod 2 ^ 32)%Z with 0%Z.
      destruct (Z.eqb_spec (2 ^ 32 - 1) (n - 1)), (Z.eqb_spec 0 n); lia.
    + rewrite (Z.mod_small (w + 1)) by lia.
      destruct (Z.eqb_spec w (n - 1)), (Z.eqb_spec (w + 1) n); lia.
Qed.

(** ** The operations of the pool, one critical section at a time *)

Section Operations.
Context {Fn Arg : Type}.
Implicit Types (tp : os_threadpool Fn Arg) (t : os_task Fn Arg).

Lemma queue_is_empty_nil tp : queue_is_empty tp = true <-> head tp = [].
Proof. unfold queue_is_empty. by destruct (head tp). Qed.

Lemma queue_is_empty_pending tp : queue_is_empty tp = true <-> pending tp = [].
Proof.
  rewrite queue_is_empty_nil. unfold pending. split.
  - by intros ->.
  - intros H. apply (f_equal reverse) in H. by rewrite reverse_involutive in H.
Qed.

Lemma head_of_pending tp t ts : pending tp = t :: ts -> head tp = reverse ts ++ [t].
Proof.
  unfold pending. intros H. apply (f_equal reverse) in H.
  by rewrite reverse_involutive, reverse_cons in H.
Qed.

Lemma pending_enqueue_task tp t : pending (enqueue_task tp t).1 = pending tp ++ [t].
Proof. unfold pending. simpl. unfold OsList.list_add. by rewrite reverse_cons. Qed.

(** The fields of the pool after lines 92-97. *)
Lemma dequeue_enter_fields tp :
  num_threads (dequeue_enter tp).1 = num_threads tp /\
  head (dequeue_enter tp).1 = head tp /\
  waiting_threads (dequeue_enter tp).1 = wrap_uint (waiting_threads tp + 1) /\
  (stop_work (dequeue_enter tp).1 = stop_work tp \/
   stop_work (dequeue_enter tp).1 = 1%Z).
Proof.
  unfold dequeue_enter.
  destruct (waiting_threads tp =? wrap_uint (num_threads tp - 1))%Z; simpl; auto.
Qed.

(** The fields of the pool after lines 106-122. *)
Lemma dequeue_leave_fields tp :
  num_threads (dequeue_leave tp).1.1 = num_threads tp /\
  head (dequeue_leave tp).1.1 = removelast (head tp) /\
  waiting_threads (dequeue_leave tp).1.1 = wrap_uint (waiting_threads tp - 1) /\
  stop_work (dequeue_leave tp).1.1 = stop_work tp /\
  (dequeue_leave tp).2 = last (head tp).
Proof.
  unfold dequeue_leave, queue_is_empty.
  destruct (head tp) as [|x l] eqn:Hh; simpl; rewrite ?Hh; auto.
Qed.

Lemma dequeue_loop_inv tp tp' ns o :
  dequeue_loop tp = (tp', ns, o) ->
  num_threads tp' = num_threads tp /\
  stop_work tp' = stop_work tp /\
  match o with
  | Blocked => tp' = tp /\ head tp = [] /\ stop_work tp = 0%Z
  | Returned r =>
      r = last (head tp) /\ head tp' = removelast (head tp) /\
      waiting_threads tp' = wrap_uint (waiting_threads tp - 1)
  end.
Proof.
  unfold dequeue_loop. intros H.
  destruct (queue_is_empty tp && (stop_work tp =? 0)%Z) eqn:Hc.
  - simplify_eq. apply andb_true_iff in Hc as [He Hs].
    apply queue_is_empty_nil in He. apply Z.eqb_eq in Hs. auto.
  - destruct (dequeue_leave tp) as [[tp1 ns1] r] eqn:Hl. simplify_eq.
    destruct (dequeue_leave_fields tp) as (? & ? & ? & ? & ?).
    rewrite Hl in *. simpl in *. auto.
Qed.

Lemma dequeue_task_inv tp tp' ns o :
  dequeue_task tp = (tp', ns, o) ->
  num_threads tp' = num_threads tp /\
  (stop_work tp' = stop_work tp \/ stop_work tp' = 1%Z) /\
  match o with
  | Blocked =>
      head tp' = head tp /\ head tp = [] /\
      waiting_threads tp' = wrap_uint (waiting_threads tp + 1)
  | Returned r =>
      r = last (head tp) /\ head tp' = removelast (head tp) /\
      waiting_threads tp'
        = wrap_uint (wrap_uint (waiting_threads tp + 1) - 1)
  end.
Proof.
  unfold dequeue_task. intros H.
  destruct (dequeue_enter tp) as [tp1 ns1] eqn:He.
  destruct (dequeue_loop tp1) as [[tp2 ns2] o2] eqn:Hl. simplify_eq.
  destruct (dequeue_enter_fields tp) as (Hn & Hh & Hw & Hs).
  rewrite He in *. simpl in *.
  apply dequeue_loop_inv in Hl as (Hn' & Hs' & Ho).
  split; [congruence|]. split; [rewrite Hs'; done|].
  destruct o as [|r].
  - destruct Ho as (-> & ? & ?). rewrite <- Hh. auto.
  - destruct Ho as (? & ? & ?). rewrite <- Hh, <- Hw. auto.
Qed.

(** C8: [enqueue_task] is total: it links the task into the queue, which
    grows by one entry with the new task last in insertion order, and it
    leaves [waiting_threads], [stop_work] and [num_threads] as they
    were. *)
Theorem enqueue_task_frame tp t :
  exists tp' ns,
    enqueue_task tp t = (tp', ns) /\
    pending tp' = pending tp ++ [t] /\
    length (head tp') = S (length (head tp)) /\
    waiting_threads tp' = waiting_threads tp /\
    stop_work tp' = stop_work tp /\
    num_threads tp' = num_threads tp.
Proof.
  eexists _, _. split; [reflexivity|].
  split; [apply pending_enqueue_task|]. simpl. auto.
Qed.

(** C10: [destroy_task] on a task without destructor does nothing but
    free the task object: no call is made on the argument; and the
    destructor is called exactly when the task has one. *)
Theorem destroy_task_null_destructor t :
  (destroy_arg t = None -> destroy_task t = [Freed t]) /\
  (DestroyArgCalled t ∈ destroy_task t <-> destroy_arg t <> None) /\
  (forall e, e ∈ destroy_task t -> e = DestroyArgCalled t \/ e = Freed t).
Proof.
  unfold destroy_task. destruct (destroy_arg t) as [d|]; simpl.
  - split; [done|]. split.
    + split; [done|]. intros _. apply elem_of_cons. by left.
    + intros e He. apply elem_of_cons in He as [->| He]; [auto|].
      apply list_elem_of_singleton in He as ->. auto.
  - split; [done|]. split.
    + split; [|done]. intros He. apply list_elem_of_singleton in He. done.
    + intros e He. apply list_elem_of_singleton in He as ->. auto.
Qed.

(** C4: the queue is first in, first out.  [enqueue_task] puts the task
    behind all pending ones, and a call of [dequeue_task] that finds the
    queue non-empty returns at once with the oldest pending task, removes
    it, keeps the others in order, and leaves [waiting_threads] as it
    found it. *)
Theorem dequeue_task_fifo tp t ts :
  (0 <= waiting_threads tp < 2 ^ 32)%Z ->
  pending tp = t :: ts ->
  (forall t', pending (enqueue_task tp t').1 = t :: ts ++ [t']) /\
  exists tp' ns,
    dequeue_task tp = (tp', ns, Returned (Some t)) /\
    pending tp' = ts /\
    waiting_threads tp' = waiting_threads tp /\
    num_threads tp' = num_threads tp.
Proof.
  intros Hw Hp. split.
  { intros t'. by rewrite pending_enqueue_task, Hp. }
  pose proof (head_of_pending _ _ _ Hp) as Hh.
  unfold dequeue_task.
  destruct (dequeue_enter tp) as [tp1 ns1] eqn:He.
  destruct (dequeue_enter_fields tp) as (Hn1 & Hh1 & Hw1 & _).
  rewrite He in Hn1, Hh1, Hw1. simpl in Hn1, Hh1, Hw1.
  unfold dequeue_loop.
  assert (queue_is_empty tp1 = false) as ->.
  { unfold queue_is_empty. rewrite Hh1, Hh. by destruct (reverse ts). }
  simpl.
  destruct (dequeue_leave tp1) as [[tp2 ns2] r] eqn:Hl.
  destruct (dequeue_leave_fields tp1) as (Hn2 & Hh2 & Hw2 & _ & Hr).
  rewrite Hl in Hn2, Hh2, Hw2, Hr. simpl in Hn2, Hh2, Hw2, Hr.
  rewrite Hh1, Hh in Hh2, Hr.
  rewrite last_snoc in Hr. rewrite removelast_last in Hh2. subst r.
  eexists _, _. split; [reflexivity|]. split; [|split].
  - unfold pending. by rewrite Hh2, reverse_involutive.
  - rewrite Hw2, Hw1. by apply wrap_uint_succ_pred.
  - congruence.
Qed.

(** Outside that case the flag does not wait for the queue: the last
    worker to call [dequeue_task] sets [stop_work] also when it finds a
    task to take. *)
Lemma dequeue_task_stops_with_pending tp t ts :
  (0 <= waiting_threads tp < 2 ^ 32)%Z ->
  (0 < num_threads tp < 2 ^ 32)%Z ->
  waiting_threads tp = (num_threads tp - 1)%Z ->
  pending tp = t :: ts ->
  exists tp' ns,
    dequeue_task tp = (tp', ns, Returned (Some t)) /\
    stop_work tp' = 1%Z /\ pending tp' = ts.
Proof.
  intros Hw Hn Hlast Hp.
  pose proof (head_of_pending _ _ _ Hp) as Hh.
  unfold dequeue_task, dequeue_enter.
  rewrite (wrap_uint_small (num_threads tp - 1)) by lia.
  rewrite (proj2 (Z.eqb_eq _ _) Hlast).
  unfold dequeue_loop, dequeue_leave, queue_is_empty. simpl. rewrite Hh.
  assert (OsList.list_empty (reverse ts ++ [t]) = false) as ->
    by (by destruct (reverse ts)).
  simpl. unfold OsList.list_prev, OsList.list_del_prev.
  rewrite last_snoc, removelast_last.
  eexists _, _. split; [reflexivity|]. split; [done|].
  unfold pending. simpl. by rewrite reverse_involutive.
Qed.

(** C1: a call of [dequeue_task] that finds the queue empty.  The write
    of [stop_work] and the broadcast happen only in a call whose own
    increment brings [waiting_threads] to [num_threads], with the queue
    empty; the source tests [waiting_threads] against [num_threads - 1]
    just before the increment, which is the same test.  The flag, the
    counter and the queue are read and written in one critical section,
    and on such a call the source does what section 4.1 of the
    specification describes.  When the call resumes from
    [pthread_cond_wait] it no longer writes the flag. *)
Theorem dequeue_task_declares_shutdown tp :
  (0 <= waiting_threads tp < num_threads tp)%Z ->
  (num_threads tp < 2 ^ 32)%Z ->
  queue_is_empty tp = true ->
  (Broadcast cond_queue ∈ (dequeue_enter tp).2 \/
   stop_work (dequeue_enter tp).1 <> stop_work tp ->
   waiting_threads (dequeue_enter tp).1 = num_threads tp /\
   queue_is_empty (dequeue_enter tp).1 = true) /\
  waiting_threads (dequeue_enter tp).1 = (waiting_threads tp + 1)%Z /\
  dequeue_task tp = dequeue_by_the_spec tp /\
  (forall tp1, stop_work (dequeue_task_resume tp1).1.1 = stop_work tp1 /\
               Broadcast cond_queue ∉ (dequeue_task_resume tp1).1.2).
Proof.
  intros Hw Hn He.
  assert (forall tp1, stop_work (dequeue_task_resume tp1).1.1 = stop_work tp1 /\
                      Broadcast cond_queue ∉ (dequeue_task_resume tp1).1.2) as Hres.
  { intros tp1. unfold dequeue_task_resume, dequeue_loop, dequeue_leave.
    destruct (queue_is_empty tp1); destruct (stop_work tp1 =? 0)%Z; simpl;
      (split; [done|]); intros Hin;
      repeat (apply elem_of_cons in Hin as [Hin|Hin]; [done|]);
      by apply elem_of_nil in Hin. }
  cut ((Broadcast cond_queue ∈ (dequeue_enter tp).2 \/
        stop_work (dequeue_enter tp).1 <> stop_work tp ->
        waiting_threads (dequeue_enter tp).1 = num_threads tp /\
        queue_is_empty (dequeue_enter tp).1 = true) /\
       waiting_threads (dequeue_enter tp).1 = (waiting_threads tp + 1)%Z /\
       dequeue_task tp = dequeue_by_the_spec tp); [tauto|].
  clear Hres.
  assert (wrap_uint (waiting_threads tp + 1) = waiting_threads tp + 1)%Z
    as Hinc by (apply wrap_uint_small; lia).
  assert (wrap_uint (waiting_threads tp + 1 - 1) = waiting_threads tp)%Z as Hdec.
  { replace (waiting_threads tp + 1 - 1)%Z with (waiting_threads tp) by lia.
    apply wrap_uint_small; lia. }
  pose proof (last_idle_test (waiting_threads tp) (num_threads tp)) as Htest.
  rewrite Hinc in Htest. specialize (Htest ltac:(lia) ltac:(lia)).
  unfold dequeue_task, dequeue_by_the_spec, dequeue_enter, dequeue_loop,
    dequeue_leave.
  rewrite Htest, He. simpl.
  destruct (Z.eqb_spec (waiting_threads tp + 1) (num_threads tp)) as [Heq|Hne];
    simpl; unfold queue_is_empty in *; simpl; rewrite ?He, ?Hinc; simpl.
  - split; [|split]; [auto | done |].
    rewrite Hdec. replace (waiting_threads tp + 1 - 1)%Z with (waiting_threads tp) by lia.
    reflexivity.
  - split; [|split]; [ | done | ].
    + intros [Hb | Hs]; [|done]. by apply elem_of_nil in Hb.
    + destruct (stop_work tp =? 0)%Z; simpl; rewrite ?He; simpl; [done|].
      rewrite Hdec.
      replace (waiting_threads tp + 1 - 1)%Z with (waiting_threads tp) by lia.
      reflexivity.
Qed.
End Operations.

(** ** The program as a transition system *)

Section Runs.
Context {Fn Arg C L : Type} `{!Client Fn Arg C L}.
Implicit Types (s : sys Fn Arg C L) (ws : list (worker Fn Arg L))
  (m : submitter Fn Arg) (w : worker Fn Arg L)
  (tp : os_threadpool Fn Arg) (t : os_task Fn Arg).

Lemma run_snoc tr a s s' :
  run (tr ++ [a]) s = Some s' <->
  exists s1, run tr s = Some s1 /\ step a s1 = Some s'.
Proof.
  revert s. induction tr as [|b tr IH]; intros s; simpl.
  - destruct (step a s) as [s1|] eqn:Hs; split.
    + intros [= <-]. eauto.
    + intros (s2 & [= <-] & Hs2). congruence.
    + done.
    + intros (s2 & [= <-] & Hs2). congruence.
  - destruct (step b s) as [s1|]; [apply IH|].
    split; [done|]. by intros (s2 & ? & _).
Qed.

Lemma run_app tr1 tr2 s s' :
  run (tr1 ++ tr2) s = Some s' <->
  exists s1, run tr1 s = Some s1 /\ run tr2 s1 = Some s'.
Proof.
  revert s. induction tr1 as [|b tr1 IH]; intros s; simpl.
  - split; [eauto|]. by intros (s1 & [= <-] & ?).
  - destruct (step b s) as [s1|]; [apply IH|].
    split; [done|]. by intros (s2 & ? & _).
Qed.

(** Induction over the runs of the program. *)
Lemma reachable_ind (P : sys Fn Arg C L -> Prop) n seeds c :
  P (init n seeds c) ->
  (forall a s s', reachable n seeds c s -> P s -> step a s = Some s' -> P s') ->
  forall s, reachable n seeds c s -> P s.
Proof.
  intros Hinit Hstep s [tr Hrun]. revert s Hrun.
  induction tr as [|a tr IH] using rev_ind; intros s Hrun.
  - simpl in Hrun. by injection Hrun as <-.
  - apply run_snoc in Hrun as (s1 & Hrun & Hs).
    apply (Hstep a s1 s); [by exists tr | by apply IH | done].
Qed.

Lemma reachable_step n seeds c a s s' :
  reachable n seeds c s -> step a s = Some s' -> reachable n seeds c s'.
Proof. intros [tr Hrun] Hs. exists (tr ++ [a]). apply run_snoc. eauto. Qed.

(** *** Lists of workers *)

Lemma insert_middle {A} (l : list A) i x y :
  l !! i = Some x ->
  exists l1 l2, l = l1 ++ x :: l2 /\ <[i := y]> l = l1 ++ y :: l2.
Proof.
  intros Hl. exists (take i l), (drop (S i) l). split.
  - symmetry. by apply take_drop_middle.
  - apply insert_take_drop. by eapply lookup_lt_Some.
Qed.

Lemma idle_count_cons w ws : idle_count (w :: ws) = idle_weight w + idle_count ws.
Proof.
  unfold idle_count, idle_weight. rewrite filter_cons.
  destruct (is_idle w); by case_decide.
Qed.

Lemma idle_count_app ws1 ws2 : idle_count (ws1 ++ ws2) = idle_count ws1 + idle_count ws2.
Proof. unfold idle_count. by rewrite filter_app, length_app. Qed.

Lemma idle_count_le ws : idle_count ws <= length ws.
Proof. unfold idle_count. apply length_filter. Qed.

Lemma idle_count_insert ws i w w' :
  ws !! i = Some w ->
  idle_count (<[i := w']> ws) + idle_weight w = idle_count ws + idle_weight w'.
Proof.
  intros Hi. destruct (insert_middle ws i w w' Hi) as (l1 & l2 & -> & ->).
  rewrite !idle_count_app, !idle_count_cons. lia.
Qed.

(** With a worker that is not idle, fewer workers are idle than there
    are workers. *)
Lemma idle_count_lt ws i w :
  ws !! i = Some w -> is_idle w = false -> idle_count ws < length ws.
Proof.
  intros Hi Hw. destruct (insert_middle ws i w w Hi) as (l1 & l2 & -> & _).
  rewrite idle_count_app, idle_count_cons, length_app. simpl.
  unfold idle_weight. rewrite Hw.
  pose proof (idle_count_le l1). pose proof (idle_count_le l2). lia.
Qed.

Lemma idle_count_pos ws i w :
  ws !! i = Some w -> is_idle w = true -> 0 < idle_count ws.
Proof.
  intros Hi Hw. destruct (insert_middle ws i w w Hi) as (l1 & l2 & -> & _).
  rewrite idle_count_app, idle_count_cons. unfold idle_weight. rewrite Hw. lia.
Qed.

Lemma executing_cons w ws :
  executing (w :: ws) = option_list (task_of w) ++ executing ws.
Proof. unfold executing. by destruct w. Qed.

Lemma executing_app ws1 ws2 : executing (ws1 ++ ws2) = executing ws1 ++ executing ws2.
Proof. unfold executing. apply omap_app. Qed.

Lemma executing_insert ws i w w' :
  ws !! i = Some w ->
  executing (<[i := w']> ws) ++ option_list (task_of w)
  ≡ₚ executing ws ++ option_list (task_of w').
Proof.
  intros Hi. destruct (insert_middle ws i w w' Hi) as (l1 & l2 & -> & ->).
  rewrite !executing_app, !executing_cons. solve_Permutation.
Qed.

(** *** Notifications only wake threads *)

Lemma woken_refl ws : Forall2 woken ws ws.
Proof. apply Forall_Forall2_diag, Forall_forall. intros; by left. Qed.

Lemma woken_trans ws1 ws2 ws3 :
  Forall2 woken ws1 ws2 -> Forall2 woken ws2 ws3 -> Forall2 woken ws1 ws3.
Proof.
  intros H12. revert ws3. induction H12 as [|w1 w2 l1 l2 Hw H12 IH]; intros ws3 H23.
  - by inversion H23.
  - inversion H23 as [|? w3 ? l3 Hw' H23']; subst. constructor; [|by apply IH].
    destruct Hw as [->| ->], Hw' as [->| ->]; unfold woken; auto.
    right. by destruct w1.
Qed.

Lemma woken_map_wake ws : Forall2 woken ws (map wake ws).
Proof. induction ws; simpl; constructor; [by right | done]. Qed.

Lemma woken_insert ws j : ws !! j = Some InCondWait -> Forall2 woken ws (<[j := Woken]> ws).
Proof.
  intros Hj. destruct (insert_middle ws j _ Woken Hj) as (l1 & l2 & Heq & ->).
  rewrite Heq at 1. apply Forall2_app; [apply woken_refl|].
  constructor; [by right | apply woken_refl].
Qed.

Lemma deliver_woken pick nt ws m ws' m' :
  deliver pick nt (ws, m) = Some (ws', m') ->
  Forall2 woken ws ws' /\ submitter_woken m m'.
Proof.
  unfold deliver, submitter_woken. intros H.
  destruct nt as [[]|[]]; simplify_eq; auto using woken_refl, woken_map_wake.
  destruct pick as [j|].
  - destruct (ws !! j) as [[]|] eqn:Hj; simplify_eq. auto using woken_insert.
  - destruct (existsb is_in_cond_wait ws); simplify_eq. auto using woken_refl.
Qed.

Lemma deliver_all_woken pick ns ws m ws' m' :
  deliver_all pick ns (ws, m) = Some (ws', m') ->
  Forall2 woken ws ws' /\ submitter_woken m m'.
Proof.
  revert ws m. induction ns as [|nt ns IH]; intros ws m H; cbn [deliver_all] in H.
  - simplify_eq. split; [apply woken_refl | unfold submitter_woken; auto].
  - destruct (deliver pick nt (ws, m)) as [[ws1 m1]|] eqn:Hd; [|done].
    apply deliver_woken in Hd as [Hw Hm]. apply IH in H as [Hw' Hm'].
    split; [by eapply woken_trans|].
    destruct Hm as [->| ->], Hm' as [->| ->]; unfold submitter_woken; auto.
    right. by destruct m.
Qed.

Lemma woken_idle_count ws ws' : Forall2 woken ws ws' -> idle_count ws' = idle_count ws.
Proof.
  induction 1 as [|w w' l l' Hw _ IH]; [done|].
  rewrite !idle_count_cons, IH. f_equal.
  destruct Hw as [->| ->]; [done | by destruct w].
Qed.

Lemma woken_executing ws ws' : Forall2 woken ws ws' -> executing ws' = executing ws.
Proof.
  induction 1 as [|w w' l l' Hw _ IH]; [done|].
  rewrite !executing_cons, IH. f_equal.
  destruct Hw as [->| ->]; [done | by destruct w].
Qed.

Lemma woken_lookup ws ws' i w :
  Forall2 woken ws ws' -> ws !! i = Some w ->
  exists w', ws' !! i = Some w' /\ woken w w'.
Proof. intros H Hi. by eapply Forall2_lookup_l. Qed.

(** A worker that is not in [pthread_cond_wait] is not touched. *)
Lemma woken_lookup_same ws ws' i w :
  Forall2 woken ws ws' -> ws !! i = Some w -> is_in_cond_wait w = false ->
  ws' !! i = Some w.
Proof.
  intros H Hi Hw. destruct (woken_lookup _ _ _ _ H Hi) as (w' & Hi' & [->| ->]);
    [done | by destruct w].
Qed.

Lemma woken_lookup_idle ws ws' i w :
  Forall2 woken ws ws' -> ws !! i = Some w ->
  exists w', ws' !! i = Some w' /\ is_idle w' = is_idle w /\ task_of w' = task_of w.
Proof.
  intros H Hi. destruct (woken_lookup _ _ _ _ H Hi) as (w' & Hi' & Hw).
  exists w'. split; [done|]. destruct Hw as [->| ->]; by destruct w.
Qed.
End Runs.

(** ** Invariants of the program *)

Section Invariants.
Context {Fn Arg C L : Type} `{!Client Fn Arg C L}.
Implicit Types (s : sys Fn Arg C L) (ws : list (worker Fn Arg L))
  (m : submitter Fn Arg) (w : worker Fn Arg L)
  (tp : os_threadpool Fn Arg) (t : os_task Fn Arg).

Local Ltac step_cases H :=
  unfold step, worker_step, main_step, after_dequeue, submit,
    destroy_threadpool in H;
  repeat match type of H with
  | context [match ?x with _ => _ end] => destruct x eqn:?; try discriminate H
  end;
  try (injection H as <-);
  repeat match goal with p : (_ * _)%type |- _ => destruct p end.

(** Every step of the scheduler is one of the transitions. *)
Lemma step_transition a s s' : step a s = Some s' -> transition s s'.
Proof.
  intros Hs. step_cases Hs; simpl;
    try match goal with
        | H1 : main s = _, H2 : deliver_all _ _ _ = _ |- _ => rewrite <- H1 in H2
        end;
    simplify_eq;
    try (by (eapply T_dequeue; eauto));
    try (by (eapply T_submit; eauto));
    try (by (eapply T_seed; eauto));
    eauto using transition.
  - apply T_join; [done | by apply Z.ltb_lt | done].
  - eapply T_joined; [done | by apply Z.ltb_ge].
Qed.

Lemma reachable_transition_ind (P : sys Fn Arg C L -> Prop) n seeds c :
  P (init n seeds c) ->
  (forall s s', reachable n seeds c s -> P s -> transition s s' -> P s') ->
  forall s, reachable n seeds c s -> P s.
Proof.
  intros Hinit Hstep. apply reachable_ind; [done|].
  intros a s s' Hr HP Hs. eauto using step_transition.
Qed.

(** *** The counter of idle workers *)

Lemma idle_count_update ws ws' i w w' :
  Forall2 woken ws ws' -> ws !! i = Some w ->
  idle_count (<[i := w']> ws') + idle_weight w = idle_count ws + idle_weight w'.
Proof.
  intros Hw Hi. destruct (woken_lookup_idle _ _ _ _ Hw Hi) as (w1 & Hi1 & Hidle & _).
  rewrite <- (woken_idle_count _ _ Hw).
  rewrite <- (idle_count_insert ws' i w1 w' Hi1).
  unfold idle_weight. by rewrite Hidle.
Qed.

Lemma length_update ws ws' i w' :
  Forall2 woken ws ws' -> length (<[i := w']> ws') = length ws.
Proof. intros Hw. rewrite length_insert. symmetry. by eapply Forall2_length. Qed.

Lemma idle_weight_resume_at (o : outcome Fn Arg) :
  idle_weight (resume_at o) = match o with Blocked => 1 | Returned _ => 0 end.
Proof. by destruct o as [|[r|]]. Qed.

Lemma counts_ok_init n seeds c :
  (0 <= n)%Z -> counts_ok n (init n seeds c : sys Fn Arg C L).
Proof.
  intros Hn. unfold counts_ok, init. simpl. split; [done|].
  split; [apply length_replicate|].
  assert (idle_count (replicate (Z.to_nat n) (@AtDequeue Fn Arg L)) = 0) as ->; [|done].
  induction (Z.to_nat n) as [|k IH]; [done|].
  simpl. by rewrite idle_count_cons, IH.
Qed.

Lemma counts_ok_transition n s s' :
  (0 <= n < 2 ^ 32)%Z -> counts_ok n s -> transition s s' -> counts_ok n s'.
Proof.
  intros Hn (Hnum & Hlen & Hw) Ht. unfold counts_ok.
  destruct Ht as
    [ i pick w tp' ns o ws m Hi Hdq Hd
    | i t l c l' Hi Ha
    | i t l act arg destroy c l' pick tp' ns ws m Hi Ha He Hd
    | i t l c Hi Ha
    | act arg destroy todo pick tp' ns ws m Hm He Hd
    | Hm | i Hm Hlt Hi | i Hm Hge | Hm | i Hi | Hm ]; simpl.
  - apply deliver_all_woken in Hd as [Hws _].
    pose proof (idle_count_update _ _ i w (resume_at o) Hws Hi) as Hic.
    rewrite idle_weight_resume_at in Hic.
    rewrite (length_update _ _ _ _ Hws).
    destruct Hdq as [[-> Hdq] | [-> Hdq]].
    + pose proof (idle_count_lt _ _ _ Hi eq_refl) as Hlt.
      apply dequeue_task_inv in Hdq as (Hn' & _ & Ho).
      split; [congruence|]. split; [done|].
      change (idle_weight AtDequeue) with 0 in Hic.
      destruct o as [|r].
      * destruct Ho as (_ & _ & ->). rewrite wrap_uint_small; lia.
      * destruct Ho as (_ & _ & ->). rewrite wrap_uint_succ_pred; lia.
    + pose proof (idle_count_pos _ _ _ Hi eq_refl) as Hpos.
      pose proof (idle_count_le (threads s)) as Hle.
      apply dequeue_loop_inv in Hdq as (Hn' & _ & Ho).
      split; [congruence|]. split; [done|].
      change (idle_weight Woken) with 1 in Hic.
      destruct o as [|r].
      * destruct Ho as (-> & _). lia.
      * destruct Ho as (_ & _ & ->). rewrite wrap_uint_small; lia.
  - pose proof (idle_count_update _ _ i _ (InAction t l') (woken_refl _) Hi) as Hic.
    change (idle_weight _) with 0 in Hic.
    rewrite length_insert. split; [done|]. split; [done|]. lia.
  - apply deliver_all_woken in Hd as [Hws _].
    pose proof (idle_count_update _ _ i _ (InAction t l') Hws Hi) as Hic.
    change (idle_weight _) with 0 in Hic.
    rewrite (length_update _ _ _ _ Hws).
    unfold enqueue_task in He. simplify_eq. simpl.
    split; [done|]. split; [done|]. lia.
  - pose proof (idle_count_update _ _ i _ AtDequeue (woken_refl _) Hi) as Hic.
    change (idle_weight _) with 0 in Hic.
    rewrite length_insert. split; [done|]. split; [done|]. lia.
  - apply deliver_all_woken in Hd as [Hws _].
    rewrite (woken_idle_count _ _ Hws), <- (Forall2_length _ _ _ Hws).
    unfold enqueue_task in He. simplify_eq. simpl. auto.
  - auto.
  - auto.
  - auto.
  - auto.
  - pose proof (idle_count_update _ _ i _ Woken (woken_refl _) Hi) as Hic.
    change (idle_weight _) with 1 in Hic.
    rewrite length_insert. split; [done|]. split; [done|]. lia.
  - auto.
Qed.

Lemma counts_ok_reachable n seeds c s :
  (0 <= n < 2 ^ 32)%Z -> reachable n seeds c s -> counts_ok n s.
Proof.
  intros Hn. apply reachable_transition_ind.
  - apply counts_ok_init. lia.
  - intros s1 s2 _. by apply counts_ok_transition.
Qed.

(** C7: in every state of a run, [waiting_threads] is between 0 and
    [num_threads], and [num_threads] is the number the pool was created
    with.  The bound also holds inside the critical section of a worker
    that calls [dequeue_task], after the increment of line 97. *)
Theorem waiting_threads_bounds n seeds c s :
  (0 <= n < 2 ^ 32)%Z ->
  reachable n seeds c s ->
  num_threads (tp s) = n /\
  (0 <= waiting_threads (tp s) <= num_threads (tp s))%Z /\
  (forall i, threads s !! i = Some AtDequeue ->
     0 <= waiting_threads (dequeue_enter (tp s)).1 <= num_threads (tp s))%Z.
Proof.
  intros Hn Hr. destruct (counts_ok_reachable _ _ _ _ Hn Hr) as (Hnum & Hlen & Hw).
  pose proof (idle_count_le (threads s)) as Hle.
  split; [done|]. split; [lia|].
  intros i Hi. pose proof (idle_count_lt _ _ _ Hi eq_refl) as Hlt.
  destruct (dequeue_enter_fields (tp s)) as (_ & _ & -> & _).
  rewrite wrap_uint_small; lia.
Qed.

(** A worker that calls [dequeue_task] finds fewer idle workers than the
    pool has threads: the range that the theorem on the shutdown rule
    asks for. *)
Lemma dequeue_call_range n seeds c s i :
  (0 <= n < 2 ^ 32)%Z ->
  reachable n seeds c s ->
  threads s !! i = Some AtDequeue ->
  (0 <= waiting_threads (tp s) < num_threads (tp s))%Z /\
  (num_threads (tp s) < 2 ^ 32)%Z.
Proof.
  intros Hn Hr Hi. destruct (counts_ok_reachable _ _ _ _ Hn Hr) as (Hnum & Hlen & Hw).
  pose proof (idle_count_lt _ _ _ Hi eq_refl). lia.
Qed.

(** A broadcast on [cond_queue] leaves no worker in [pthread_cond_wait]. *)
Lemma broadcast_wakes_all pick ws m ws' m' :
  deliver pick (Broadcast cond_queue) (ws, m) = Some (ws', m') ->
  Forall (fun w => is_in_cond_wait w = false) ws'.
Proof.
  intros H. simpl in H. simplify_eq.
  apply Forall_forall. intros w Hw. apply list_elem_of_In, in_map_iff in Hw.
  destruct Hw as (w0 & <- & _). by destruct w0.
Qed.

(** What the steps of the actions preserve holds of the shared state in
    every state of a run. *)
Lemma shared_invariant (P : C -> Prop) n seeds c s :
  (forall l c0, P c0 ->
     match action_step l c0 with
     | AInternal c1 _ | ASubmit _ _ _ c1 _ | AReturn c1 => P c1
     | AFault | ABlocked => True
     end) ->
  P c -> reachable n seeds c s -> P (shared s).
Proof.
  intros Hstep Hc. revert s.
  apply (reachable_transition_ind (fun s => P (shared s))); [done|].
  intros s1 s2 _ HP Ht.
  destruct Ht as
    [ i pick w tp' ns o ws m Hi Hdq Hd
    | i t l c1 l' Hi Ha
    | i t l act arg destroy c1 l' pick tp' ns ws m Hi Ha He Hd
    | i t l c1 Hi Ha
    | act arg destroy todo pick tp' ns ws m Hm He Hd
    | Hm | i Hm Hlt Hi | i Hm Hge | Hm | i Hi | Hm ]; simpl; try done.
  - specialize (Hstep l _ HP). by rewrite Ha in Hstep.
  - specialize (Hstep l _ HP). by rewrite Ha in Hstep.
  - specialize (Hstep l _ HP). by rewrite Ha in Hstep.
Qed.

(** *** The flag *)

Lemma stop_work_transition s s' :
  transition s s' ->
  stop_work (tp s') = stop_work (tp s) \/ stop_work (tp s') = 1%Z.
Proof.
  intros Ht.
  destruct Ht as
    [ i pick w tp' ns o ws m Hi Hdq Hd
    | i t l c l' Hi Ha
    | i t l act arg destroy c l' pick tp' ns ws m Hi Ha He Hd
    | i t l c Hi Ha
    | act arg destroy todo pick tp' ns ws m Hm He Hd
    | Hm | i Hm Hlt Hi | i Hm Hge | Hm | i Hi | Hm ]; simpl; auto.
  - destruct Hdq as [[_ Hdq] | [_ Hdq]].
    + by apply dequeue_task_inv in Hdq as (_ & ? & _).
    + apply dequeue_loop_inv in Hdq as (_ & ? & _). auto.
  - unfold enqueue_task in He. simplify_eq. auto.
  - unfold enqueue_task in He. simplify_eq. auto.
Qed.

Lemma stop_work_step a s s' :
  step a s = Some s' ->
  stop_work (tp s') = stop_work (tp s) \/ stop_work (tp s') = 1%Z.
Proof. intros Hs. by apply stop_work_transition, (step_transition a). Qed.

Lemma stop_work_run tr s s' :
  run tr s = Some s' -> stop_work (tp s) = 1%Z -> stop_work (tp s') = 1%Z.
Proof.
  revert s. induction tr as [|a tr IH]; intros s Hrun Hs; simpl in Hrun.
  - by simplify_eq.
  - destruct (step a s) as [s1|] eqn:Hstep; [|done].
    apply (IH s1 Hrun). destruct (stop_work_step _ _ _ Hstep); congruence.
Qed.

Lemma stop_work_history_set tr s prev :
  stop_work (tp s) = 1%Z ->
  rises prev (stop_work_history tr s) = (if (prev =? 0)%Z then 1 else 0) /\
  falls 1 (stop_work_history tr s) = 0.
Proof.
  revert s prev. induction tr as [|a tr IH]; intros s prev Hs; simpl; rewrite Hs.
  - split; [|done]. destruct (prev =? 0)%Z; done.
  - destruct (step a s) as [s1|] eqn:Hstep; simpl.
    + assert (stop_work (tp s1) = 1%Z) as Hs1.
      { destruct (stop_work_step _ _ _ Hstep); congruence. }
      destruct (IH s1 1%Z Hs1) as [-> ->]. split; [|done].
      destruct (prev =? 0)%Z; done.
    + split; [|done]. destruct (prev =? 0)%Z; done.
Qed.

Lemma stop_work_history_clear tr s :
  stop_work (tp s) = 0%Z ->
  rises 0 (stop_work_history tr s) <= 1 /\
  falls 0 (stop_work_history tr s) = 0.
Proof.
  revert s. induction tr as [|a tr IH]; intros s Hs; simpl; rewrite Hs; simpl.
  - lia.
  - destruct (step a s) as [s1|] eqn:Hstep; simpl; [|lia].
    destruct (stop_work_step _ _ _ Hstep) as [H0|H1].
    + rewrite Hs in H0. by apply IH.
    + destruct (stop_work_history_set tr s1 0%Z H1) as [Hr _].
      destruct tr as [|b tr]; simpl in *; rewrite H1 in *; simpl in *.
      * lia.
      * destruct (step b s1) as [s2|] eqn:Hstep2; simpl in *; [|lia].
        assert (stop_work (tp s2) = 1%Z) as Hs2.
        { destruct (stop_work_step _ _ _ Hstep2); congruence. }
        destruct (stop_work_history_set tr s2 1%Z Hs2) as [-> ->]. simpl. lia.
Qed.

(** C6: [stop_work] is 0 when [create_threadpool] returns; no step of
    any thread takes it from 1 to another value, whichever operation the
    step belongs to; and along a run it goes from 0 to 1 at most once
    and never back. *)
Theorem stop_work_set_once n seeds c tr s tr' s' :
  run tr (init n seeds c) = Some s ->
  run tr' s = Some s' ->
  stop_work (create_threadpool n : os_threadpool Fn Arg) = 0%Z /\
  (stop_work (tp s) = 0%Z \/ stop_work (tp s) = 1%Z) /\
  (stop_work (tp s) = 1%Z -> stop_work (tp s') = 1%Z) /\
  rises 0 (stop_work_history (tr ++ tr') (init n seeds c)) <= 1 /\
  falls 0 (stop_work_history (tr ++ tr') (init n seeds c)) = 0.
Proof.
  intros Hrun Hrun'. split; [done|]. split; [|split].
  - assert (reachable n seeds c s) as Hr by (by exists tr).
    clear Hrun Hrun'. revert s Hr. apply reachable_transition_ind; [by left|].
    intros s1 s2 _ H12 Ht.
    destruct (stop_work_transition _ _ Ht) as [->| ->]; auto.
  - by apply (stop_work_run tr').
  - by apply stop_work_history_clear.
Qed.

(** *** The workers that have been joined *)

Lemma joined_ok_init n seeds c : joined_ok (init n seeds c : sys Fn Arg C L).
Proof. done. Qed.

Lemma exited_no_worker ws i w :
  Forall (fun w => w = Exited) ws -> ws !! i = Some w -> w = Exited.
Proof. intros Hall Hi. by apply (Forall_lookup_1 _ _ _ _ Hall Hi). Qed.

(** A step of worker [i], which has not left its loop, keeps the
    submitter where it is if the submitter is past its wait, and keeps
    the workers that have left. *)
Lemma joined_ok_worker s ws m i w w' tp' (c : C) k evs :
  joined_ok s ->
  Forall2 woken (threads s) ws -> submitter_woken (main s) m ->
  threads s !! i = Some w -> w <> Exited ->
  num_threads tp' = num_threads (tp s) ->
  joined_ok {| tp := tp'; threads := <[i := w']> ws; main := m;
               shared := c; allocated := k; log := evs |}.
Proof.
  unfold joined_ok. simpl. intros Hj Hws Hm Hi Hw Hn.
  assert (m = main s \/ main s = InWorkDoneWait /\ m = WorkDoneWoken) as [->|[Hm1 ->]].
  { destruct Hm as [->| ->]; [by left|]. destruct (main s); auto. }
  2: done.
  destruct (main s) as [todo| | |j| |]; try done.
  - destruct Hj as [Hrange Hj]. rewrite Hn. split; [done|].
    intros j' Hj'. specialize (Hj j' Hj').
    assert (i <> j') as Hne by (intros ->; congruence).
    rewrite list_lookup_insert_ne by done.
    by apply (woken_lookup_same _ _ _ _ Hws Hj).
  - by destruct Hw; apply (exited_no_worker _ _ _ Hj Hi).
  - destruct Hj as [Hj _]. by destruct Hw; apply (exited_no_worker _ _ _ Hj Hi).
Qed.

Lemma joined_ok_transition n s s' :
  (0 <= n < 2 ^ 32)%Z -> counts_ok n s -> joined_ok s -> transition s s' ->
  joined_ok s'.
Proof.
  intros Hn (Hnum & Hlen & Hw) Hj Ht.
  destruct Ht as
    [ i pick w tp' ns o ws m Hi Hdq Hd
    | i t l c l' Hi Ha
    | i t l act arg destroy c l' pick tp' ns ws m Hi Ha He Hd
    | i t l c Hi Ha
    | act arg destroy todo pick tp' ns ws m Hm He Hd
    | Hm | i Hm Hlt Hi | i Hm Hge | Hm | i Hi | Hm ].
  - apply deliver_all_woken in Hd as [Hws Hm].
    apply (joined_ok_worker s ws m i w); try done.
    + destruct Hdq as [[-> _]|[-> _]]; done.
    + destruct Hdq as [[_ Hdq]|[_ Hdq]].
      * by apply dequeue_task_inv in Hdq as (? & _).
      * by apply dequeue_loop_inv in Hdq as (? & _).
  - apply (joined_ok_worker s (threads s) (main s) i (InAction t l));
      try done; [apply woken_refl | by left].
  - apply deliver_all_woken in Hd as [Hws Hm].
    apply (joined_ok_worker s ws m i (InAction t l)); try done.
    unfold enqueue_task in He. by simplify_eq.
  - apply (joined_ok_worker s (threads s) (main s) i (InAction t l));
      try done; [apply woken_refl | by left].
  - done.
  - unfold joined_ok, wait_for_completion_section. simpl.
    destruct (wait_for_completion_waits (tp s)); [done|].
    split; [lia|]. intros j Hj'. simpl in Hj'. lia.
  - unfold joined_ok in *. simpl. rewrite Hm in Hj. destruct Hj as [Hrange Hj].
    rewrite wrap_uint_small by lia. split; [lia|].
    intros j Hj'. destruct (decide (j = Z.to_nat i)) as [->|Hne]; [done|].
    apply Hj. lia.
  - unfold joined_ok in *. simpl. rewrite Hm in Hj. destruct Hj as [Hrange Hj].
    apply Forall_lookup. intros j w Hjw.
    assert (j < Z.to_nat i) as Hlt.
    { apply lookup_lt_Some in Hjw. lia. }
    specialize (Hj j Hlt). congruence.
  - unfold joined_ok in *. simpl. rewrite Hm in Hj. done.
  - apply (joined_ok_worker s (threads s) (main s) i InCondWait);
      try done; [apply woken_refl | by left].
  - done.
Qed.

Lemma joined_ok_reachable n seeds c s :
  (0 <= n < 2 ^ 32)%Z -> reachable n seeds c s -> joined_ok s.
Proof.
  intros Hn. apply reachable_transition_ind; [done|].
  intros s1 s2 Hr. apply (joined_ok_transition n); [done|].
  by apply (counts_ok_reachable n seeds c).
Qed.

(** *** The tasks *)

Lemma created_app (l1 l2 : list (event Fn Arg)) :
  created (l1 ++ l2) = created l1 ++ created l2.
Proof. apply omap_app. Qed.

Lemma called_app (l1 l2 : list (event Fn Arg)) :
  called (l1 ++ l2) = called l1 ++ called l2.
Proof. apply omap_app. Qed.

Lemma freed_app (l1 l2 : list (event Fn Arg)) :
  freed (l1 ++ l2) = freed l1 ++ freed l2.
Proof. apply omap_app. Qed.

Lemma arg_destroyed_app (l1 l2 : list (event Fn Arg)) :
  arg_destroyed (l1 ++ l2) = arg_destroyed l1 ++ arg_destroyed l2.
Proof. apply omap_app. Qed.

Lemma log_outcome_events (o : outcome Fn Arg) :
  created (outcome_events o) = [] /\ freed (outcome_events o) = [] /\
  arg_destroyed (outcome_events o) = [].
Proof. by destruct o as [|[r|]]. Qed.

Lemma log_destroy_task t :
  created (destroy_task t) = [] /\ freed (destroy_task t) = [t] /\
  arg_destroyed (destroy_task t)
    = filter (fun t => is_Some (destroy_arg t)) [t].
Proof.
  unfold destroy_task. rewrite filter_cons, filter_nil.
  case_decide as Hs.
  - destruct Hs as [d ->]. done.
  - destruct (destroy_arg t) as [d|]; [|done]. destruct Hs. eauto.
Qed.

Lemma log_destroy_tasks (ts : list (os_task Fn Arg)) :
  created (flat_map destroy_task ts) = [] /\
  freed (flat_map destroy_task ts) = ts /\
  arg_destroyed (flat_map destroy_task ts)
    = filter (fun t => is_Some (destroy_arg t)) ts.
Proof.
  induction ts as [|t ts (IH1 & IH2 & IH3)]; [done|]. simpl.
  destruct (log_destroy_task t) as (H1 & H2 & H3).
  rewrite created_app, freed_app, arg_destroyed_app, H1, H2, H3, IH1, IH2, IH3.
  split; [done|]. split; [done|].
  change (t :: ts) with ([t] ++ ts). by rewrite filter_app.
Qed.

Lemma removelast_last_option {A} (l : list A) :
  l = removelast l ++ option_list (last l).
Proof.
  induction l as [|x l IH] using rev_ind; [done|].
  by rewrite removelast_last, last_snoc.
Qed.

Lemma task_of_resume_at (o : outcome Fn Arg) :
  task_of (resume_at o) = match o with Blocked => None | Returned r => r end.
Proof. by destruct o as [|[r|]]. Qed.

Lemma executing_update ws ws' i w w' :
  Forall2 woken ws ws' -> ws !! i = Some w ->
  executing (<[i := w']> ws') ++ option_list (task_of w)
  ≡ₚ executing ws ++ option_list (task_of w').
Proof.
  intros Hw Hi. destruct (woken_lookup_idle _ _ _ _ Hw Hi) as (w1 & Hi1 & _ & Ht).
  rewrite <- (woken_executing _ _ Hw), <- Ht.
  by apply executing_insert.
Qed.

Lemma executing_replicate k : executing (replicate k (@AtDequeue Fn Arg L)) = [].
Proof.
  induction k as [|k IH]; [done|].
  cbn [replicate]. by rewrite executing_cons, IH.
Qed.

Lemma tasks_ok_init n seeds c : tasks_ok (init n seeds c : sys Fn Arg C L).
Proof. unfold tasks_ok, init. simpl. by rewrite executing_replicate. Qed.

Lemma tasks_ok_transition s s' : tasks_ok s -> transition s s' -> tasks_ok s'.
Proof.
  intros (Hperm & Hself & Hdestroyed) Ht. unfold tasks_ok.
  destruct Ht as
    [ i pick w tp' ns o ws m Hi Hdq Hd
    | i t l c l' Hi Ha
    | i t l act arg destroy c l' pick tp' ns ws m Hi Ha He Hd
    | i t l c Hi Ha
    | act arg destroy todo pick tp' ns ws m Hm He Hd
    | Hm | i Hm Hlt Hi | i Hm Hge | Hm | i Hi | Hm ]; simpl.
  - apply deliver_all_woken in Hd as [Hws _].
    destruct (log_outcome_events o) as (Hc & Hf & Ha).
    rewrite created_app, freed_app, arg_destroyed_app, Hc, Hf, Ha, !app_nil_r.
    split; [|done].
    pose proof (executing_update _ _ i w (resume_at o) Hws Hi) as Hex.
    rewrite task_of_resume_at in Hex.
    assert (task_of w = None) as Hnone.
    { destruct Hdq as [[-> _]|[-> _]]; done. }
    rewrite Hnone in Hex. simpl in Hex. rewrite app_nil_r in Hex.
    assert (head (tp s) = head tp' ++
              option_list (match o with Blocked => None | Returned r => r end))
      as Hhead.
    { destruct Hdq as [[_ Hdq]|[_ Hdq]].
      - apply dequeue_task_inv in Hdq as (_ & _ & Ho). destruct o as [|r].
        + destruct Ho as (-> & _). simpl. by rewrite app_nil_r.
        + destruct Ho as (-> & -> & _). apply removelast_last_option.
      - apply dequeue_loop_inv in Hdq as (_ & _ & Ho). destruct o as [|r].
        + destruct Ho as (-> & _). simpl. by rewrite app_nil_r.
        + destruct Ho as (-> & -> & _). apply removelast_last_option. }
    rewrite Hperm, Hhead, Hex. solve_Permutation.
  - split; [|done]. rewrite Hperm.
    pose proof (executing_update _ _ i _ (InAction t l') (woken_refl _) Hi) as Hex.
    simpl in Hex. apply Permutation_app_inv_r in Hex. by rewrite Hex.
  - apply deliver_all_woken in Hd as [Hws _].
    unfold enqueue_task in He. simplify_eq. simpl.
    rewrite created_app, freed_app, arg_destroyed_app. simpl. rewrite !app_nil_r.
    pose proof (executing_update _ _ i _ (InAction t l') Hws Hi) as Hex.
    simpl in Hex. apply Permutation_app_inv_r in Hex.
    split; [|split; [|done]].
    + rewrite Hperm, Hex. unfold OsList.list_add.
      by rewrite <- Permutation_cons_append.
    + rewrite fmap_app, Hself. symmetry. apply (seq_S (allocated s) 0).
  - destruct (log_destroy_task t) as (Hc & Hf & Hd).
    rewrite created_app, freed_app, arg_destroyed_app, Hc, Hf, Hd, app_nil_r.
    pose proof (executing_update _ _ i _ AtDequeue (woken_refl _) Hi) as Hex.
    simpl in Hex. rewrite app_nil_r in Hex.
    split; [|split; [done|]].
    + rewrite Hperm, <- Hex. solve_Permutation.
    + by rewrite filter_app, Hdestroyed.
  - apply deliver_all_woken in Hd as [Hws _].
    unfold enqueue_task in He. simplify_eq. simpl.
    rewrite created_app, freed_app, arg_destroyed_app. simpl. rewrite !app_nil_r.
    rewrite (woken_executing _ _ Hws).
    split; [|split; [|done]].
    + rewrite Hperm. unfold OsList.list_add.
      by rewrite <- Permutation_cons_append.
    + rewrite fmap_app, Hself. symmetry. apply (seq_S (allocated s) 0).
  - done.
  - done.
  - done.
  - destruct (log_destroy_tasks (head (tp s))) as (Hc & Hf & Hd).
    rewrite created_app, freed_app, arg_destroyed_app, Hc, Hf, Hd, app_nil_r.
    split; [|split; [done|]].
    + rewrite Hperm. solve_Permutation.
    + by rewrite filter_app, Hdestroyed.
  - split; [|done]. rewrite Hperm.
    pose proof (executing_update _ _ i _ Woken (woken_refl _) Hi) as Hex.
    simpl in Hex. rewrite !app_nil_r in Hex. by rewrite Hex.
  - done.
Qed.

Lemma tasks_ok_reachable n seeds c s : reachable n seeds c s -> tasks_ok s.
Proof.
  apply reachable_transition_ind; [apply tasks_ok_init|].
  intros s1 s2 _. apply tasks_ok_transition.
Qed.

Lemma executed_ok_transition s s' : executed_ok s -> transition s s' -> executed_ok s'.
Proof.
  intros [rest Hperm] Ht. unfold executed_ok.
  destruct Ht as
    [ i pick w tp' ns o ws m Hi Hdq Hd
    | i t l c l' Hi Ha
    | i t l act arg destroy c l' pick tp' ns ws m Hi Ha He Hd
    | i t l c Hi Ha
    | act arg destroy todo pick tp' ns ws m Hm He Hd
    | Hm | i Hm Hlt Hi | i Hm Hge | Hm | i Hi | Hm ]; simpl;
    rewrite ?called_app, ?freed_app; simpl; rewrite ?app_nil_r.
  - apply deliver_all_woken in Hd as [Hws _].
    destruct (log_outcome_events o) as (_ & -> & _). rewrite app_nil_r.
    pose proof (executing_update _ _ i w (resume_at o) Hws Hi) as Hex.
    rewrite task_of_resume_at in Hex.
    assert (task_of w = None) as Hnone.
    { destruct Hdq as [[-> _]|[-> _]]; done. }
    rewrite Hnone in Hex. simpl in Hex. rewrite app_nil_r in Hex.
    exists rest. rewrite Hex.
    assert (called (outcome_events o)
            = option_list (match o with Blocked => None | Returned r => r end))
      as -> by (by destruct o as [|[r|]]).
    set (ret := option_list _).
    trans ((executing (threads s) ++ freed (log s)) ++ ret);
      [solve_Permutation|].
    rewrite Hperm. solve_Permutation.
  - exists rest. rewrite <- Hperm.
    pose proof (executing_update _ _ i _ (InAction t l') (woken_refl _) Hi) as Hex.
    simpl in Hex. apply Permutation_app_inv_r in Hex. by rewrite Hex.
  - apply deliver_all_woken in Hd as [Hws _]. exists rest. rewrite <- Hperm.
    pose proof (executing_update _ _ i _ (InAction t l') Hws Hi) as Hex.
    simpl in Hex. apply Permutation_app_inv_r in Hex. by rewrite Hex.
  - destruct (log_destroy_task t) as (_ & -> & _).
    assert (called (destroy_task t) = []) as ->.
    { unfold destroy_task. by destruct (destroy_arg t). }
    rewrite app_nil_r.
    pose proof (executing_update _ _ i _ AtDequeue (woken_refl _) Hi) as Hex.
    simpl in Hex. rewrite app_nil_r in Hex.
    exists rest. rewrite <- Hperm, <- Hex. solve_Permutation.
  - apply deliver_all_woken in Hd as [Hws _]. exists rest.
    by rewrite (woken_executing _ _ Hws).
  - by exists rest.
  - by exists rest.
  - by exists rest.
  - destruct (log_destroy_tasks (head (tp s))) as (_ & -> & _).
    assert (called (flat_map destroy_task (head (tp s))) = []) as ->.
    { induction (head (tp s)) as [|t ts IH]; [done|]. simpl.
      rewrite called_app, IH. unfold destroy_task. by destruct (destroy_arg t). }
    rewrite app_nil_r. exists (rest ++ head (tp s)).
    rewrite (assoc_L (++)), Hperm. by rewrite <- (assoc_L (++)).
  - exists rest. rewrite <- Hperm.
    pose proof (executing_update _ _ i _ Woken (woken_refl _) Hi) as Hex.
    simpl in Hex. rewrite !app_nil_r in Hex. by rewrite Hex.
  - by exists rest.
Qed.

Lemma executed_ok_reachable n seeds c s : reachable n seeds c s -> executed_ok s.
Proof.
  apply reachable_transition_ind.
  - exists []. simpl. by rewrite executing_replicate.
  - intros s1 s2 _. apply executed_ok_transition.
Qed.

(** *** Counting by address *)

Lemma occurrences_app a (l1 l2 : list (os_task Fn Arg)) :
  occurrences a (l1 ++ l2) = occurrences a l1 + occurrences a l2.
Proof. unfold occurrences. by rewrite filter_app, length_app. Qed.

Lemma occurrences_cons a t (l : list (os_task Fn Arg)) :
  occurrences a (t :: l) = (if decide (self t = a) then 1 else 0) + occurrences a l.
Proof. unfold occurrences. rewrite filter_cons. by case_decide. Qed.

Lemma occurrences_perm a (l1 l2 : list (os_task Fn Arg)) :
  l1 ≡ₚ l2 -> occurrences a l1 = occurrences a l2.
Proof. intros Hp. unfold occurrences. by rewrite Hp. Qed.

Lemma occurrences_absent a (l : list (os_task Fn Arg)) :
  a ∉ self <$> l -> occurrences a l = 0.
Proof.
  induction l as [|t l IH]; [done|]. rewrite fmap_cons, not_elem_of_cons.
  intros [Hne Hl]. rewrite occurrences_cons, (IH Hl). by case_decide.
Qed.

Lemma occurrences_elem t (l : list (os_task Fn Arg)) :
  t ∈ l -> 1 <= occurrences (self t) l.
Proof.
  intros (l1 & l2 & ->)%list_elem_of_split.
  rewrite occurrences_app, occurrences_cons. case_decide; [lia | done].
Qed.

Lemma occurrences_NoDup a (l : list (os_task Fn Arg)) :
  NoDup (self <$> l) -> occurrences a l <= 1.
Proof.
  induction l as [|t l IH]; [simpl; unfold occurrences; simpl; lia|].
  rewrite fmap_cons, NoDup_cons. intros [Hnot Hnd].
  rewrite occurrences_cons. case_decide as Heq; [|by apply IH].
  subst a. by rewrite (occurrences_absent _ _ Hnot).
Qed.

Lemma occurrences_filter a (P : os_task Fn Arg -> Prop) `{!forall t, Decision (P t)}
    (l : list (os_task Fn Arg)) :
  occurrences a (filter P l) <= occurrences a l.
Proof.
  induction l as [|t l IH]; [done|]. rewrite filter_cons.
  case_decide; rewrite !occurrences_cons; lia.
Qed.

Lemma self_identifies (l : list (os_task Fn Arg)) t t' :
  NoDup (self <$> l) -> t ∈ l -> t' ∈ l -> self t' = self t -> t' = t.
Proof.
  intros Hnd Ht Ht' Hself.
  apply list_elem_of_lookup in Ht as [i Hi]. apply list_elem_of_lookup in Ht' as [j Hj].
  assert (i = j) as ->; [|congruence].
  apply (NoDup_lookup _ _ _ (self t) Hnd); rewrite list_lookup_fmap.
  - by rewrite Hi.
  - rewrite Hj. simpl. by rewrite Hself.
Qed.

Lemma occurrences_filter_one a t (P : os_task Fn Arg -> Prop)
    `{!forall t, Decision (P t)} (l : list (os_task Fn Arg)) :
  (forall t', t' ∈ l -> self t' = a -> t' = t) ->
  occurrences a (filter P l) = if decide (P t) then occurrences a l else 0.
Proof.
  induction l as [|x l IH]; intros Hl.
  - rewrite filter_nil. by case_decide.
  - assert (forall t', t' ∈ l -> self t' = a -> t' = t) as Hl'.
    { intros t' Ht'. apply Hl. by right. }
    specialize (IH Hl').
    assert (self x = a -> x = t) as Hx by (apply Hl; by left).
    rewrite filter_cons, (occurrences_cons a x l).
    destruct (decide (P x)) as [HP|HP]; rewrite ?occurrences_cons, IH;
      repeat case_decide; try done; try lia.
    + by destruct (Hx ltac:(done)).
    + by destruct (Hx ltac:(done)).
Qed.

Lemma submitter_woken_finished m m' :
  submitter_woken m m' -> m' <> Finished -> m <> Finished.
Proof. intros [->| ->] Hm' ->; by apply Hm'. Qed.

Lemma disposed_ok_transition s s' : disposed_ok s -> transition s s' -> disposed_ok s'.
Proof.
  unfold disposed_ok. intros Hinv Ht.
  destruct Ht as
    [ i pick w tp' ns o ws m Hi Hdq Hd
    | i t l c l' Hi Ha
    | i t l act arg destroy c l' pick tp' ns ws m Hi Ha He Hd
    | i t l c Hi Ha
    | act arg destroy todo pick tp' ns ws m Hm He Hd
    | Hm | i Hm Hlt Hi | i Hm Hge | Hm | i Hi | Hm ]; simpl; intros Hfin;
    rewrite ?called_app, ?freed_app; simpl; rewrite ?app_nil_r.
  - apply deliver_all_woken in Hd as [Hws Hsub].
    rewrite (Hinv (submitter_woken_finished _ _ Hsub Hfin)).
    destruct (log_outcome_events o) as (_ & -> & _). rewrite app_nil_r.
    pose proof (executing_update _ _ i w (resume_at o) Hws Hi) as Hex.
    rewrite task_of_resume_at in Hex.
    assert (task_of w = None) as Hnone.
    { destruct Hdq as [[-> _]|[-> _]]; done. }
    rewrite Hnone in Hex. simpl in Hex. rewrite app_nil_r in Hex.
    assert (called (outcome_events o)
            = option_list (match o with Blocked => None | Returned r => r end))
      as -> by (by destruct o as [|[r|]]).
    rewrite Hex. solve_Permutation.
  - rewrite (Hinv Hfin).
    pose proof (executing_update _ _ i _ (InAction t l') (woken_refl _) Hi) as Hex.
    simpl in Hex. apply Permutation_app_inv_r in Hex. by rewrite Hex.
  - apply deliver_all_woken in Hd as [Hws Hsub].
    rewrite (Hinv (submitter_woken_finished _ _ Hsub Hfin)).
    pose proof (executing_update _ _ i _ (InAction t l') Hws Hi) as Hex.
    simpl in Hex. apply Permutation_app_inv_r in Hex. by rewrite Hex.
  - rewrite (Hinv Hfin). destruct (log_destroy_task t) as (_ & -> & _).
    assert (called (destroy_task t) = []) as ->.
    { unfold destroy_task. by destruct (destroy_arg t). }
    rewrite app_nil_r.
    pose proof (executing_update _ _ i _ AtDequeue (woken_refl _) Hi) as Hex.
    simpl in Hex. rewrite app_nil_r in Hex.
    rewrite <- Hex. solve_Permutation.
  - apply deliver_all_woken in Hd as [Hws _].
    rewrite (woken_executing _ _ Hws). apply Hinv. by rewrite Hm.
  - apply Hinv. by destruct Hm as [-> | ->].
  - apply Hinv. by rewrite Hm.
  - apply Hinv. by rewrite Hm.
  - done.
  - rewrite (Hinv Hfin).
    pose proof (executing_update _ _ i _ Woken (woken_refl _) Hi) as Hex.
    simpl in Hex. rewrite !app_nil_r in Hex. by rewrite Hex.
  - apply Hinv. by rewrite Hm.
Qed.

Lemma disposed_ok_reachable n seeds c s : reachable n seeds c s -> disposed_ok s.
Proof.
  apply reachable_transition_ind.
  - intros _. simpl. by rewrite executing_replicate.
  - intros s1 s2 _. apply disposed_ok_transition.
Qed.

(** C5: a task that has been submitted is freed at most once and its
    destructor is called as often as the task is freed if it has one,
    and never if it has none.  Until [destroy_threadpool] only tasks
    whose action has been called are disposed of, and no action is
    called twice.  When [destroy_threadpool] has returned every task has
    been freed exactly once, those never executed included: with a
    destructor, the destructor has been called exactly once. *)
Theorem destroy_arg_called_once n seeds c s t :
  (0 <= n < 2 ^ 32)%Z ->
  reachable n seeds c s ->
  t ∈ created (log s) ->
  (forall t', t' ∈ created (log s) -> self t' = self t -> t' = t) /\
  occurrences (self t) (called (log s)) <= 1 /\
  occurrences (self t) (freed (log s)) <= 1 /\
  occurrences (self t) (arg_destroyed (log s))
    = (if decide (is_Some (destroy_arg t))
       then occurrences (self t) (freed (log s)) else 0) /\
  (main s <> Finished ->
   occurrences (self t) (freed (log s)) <= occurrences (self t) (called (log s))) /\
  (main s = Finished -> occurrences (self t) (freed (log s)) = 1).
Proof.
  intros Hn Hr Ht.
  destruct (tasks_ok_reachable _ _ _ _ Hr) as (Hperm & Hself & Hdestroyed).
  destruct (executed_ok_reachable _ _ _ _ Hr) as [rest Hex].
  pose proof (disposed_ok_reachable _ _ _ _ Hr) as Hdisp.
  pose proof (joined_ok_reachable _ _ _ _ Hn Hr) as Hj.
  assert (NoDup (self <$> created (log s))) as Hnd.
  { rewrite Hself. apply NoDup_seq. }
  assert (NoDup (self <$> executing (threads s) ++ freed (log s))) as Hnd'.
  { rewrite Hperm, fmap_app in Hnd. by apply NoDup_app in Hnd as (_ & _ & ?). }
  assert (forall t', t' ∈ created (log s) -> self t' = self t -> t' = t) as Hid.
  { intros t' Ht'. by apply self_identifies with (created (log s)). }
  assert (forall t', t' ∈ freed (log s) -> t' ∈ created (log s)) as Hsub.
  { intros t' Ht'. rewrite Hperm, !elem_of_app. auto. }
  split; [done|]. split; [|split; [|split; [|split]]].
  - pose proof (occurrences_NoDup (self t) _ Hnd') as Hle.
    rewrite (occurrences_perm _ _ _ Hex), occurrences_app in Hle. lia.
  - pose proof (occurrences_NoDup (self t) _ Hnd') as Hle.
    rewrite occurrences_app in Hle. lia.
  - rewrite Hdestroyed.
    pose proof (occurrences_filter_one (self t) t
                  (fun t => is_Some (destroy_arg t)) (freed (log s))) as Hone.
    apply Hone. intros t' Ht'. apply Hid. by apply Hsub.
  - intros Hfin. rewrite (occurrences_perm _ _ _ (Hdisp Hfin)), occurrences_app. lia.
  - intros Hfin. unfold joined_ok in Hj. rewrite Hfin in Hj.
    destruct Hj as [Hall Hhead].
    assert (executing (threads s) = []) as Hnone.
    { clear -Hall. induction Hall as [|w ws -> _ IH]; [done|].
      by rewrite executing_cons, IH. }
    rewrite Hhead, Hnone in Hperm. simpl in Hperm.
    pose proof (occurrences_NoDup (self t) _ Hnd') as Hle.
    rewrite occurrences_app, Hnone in Hle.
    rewrite Hperm in Ht. apply occurrences_elem in Ht.
    change (occurrences (self t) []) with 0 in Hle. lia.
Qed.
End Invariants.

(** ** The graph traversal *)

Section Traversal.
Import Parallel.

Lemma wrap_int_add_l a b : wrap_int (wrap_int a + b) = wrap_int (a + b).
Proof.
  unfold wrap_int. f_equal.
  replace ((a + 2 ^ 31) mod 2 ^ 32 - 2 ^ 31 + b + 2 ^ 31)%Z
    with ((a + 2 ^ 31) mod 2 ^ 32 + b)%Z by lia.
  rewrite Z.add_mod_idemp_l by lia. f_equal. lia.
Qed.

Lemma done_total_mark ns vs idx current :
  ns !! idx = Some current -> vs !! idx = Some NOT_VISITED ->
  done_total ns (<[idx := DONE]> vs) = (info current + done_total ns vs)%Z.
Proof.
  revert vs idx. induction ns as [|n ns IH]; intros vs idx Hn Hv; [done|].
  destruct vs as [|v vs]; [done|]. destruct idx as [|idx]; simpl in *.
  - by simplify_eq.
  - rewrite (IH vs idx Hn Hv). destruct v; lia.
Qed.

Lemma process_graph_sum_ok idx g g' out :
  process_graph idx g = Some (g', out) -> sum_ok g -> sum_ok g'.
Proof.
  unfold process_graph, sum_ok. intros H Hsum.
  destruct (visited (graph g) !! idx) as [[]|] eqn:Hv; simplify_eq; [|done].
  destruct (nodes (graph g) !! idx) as [current|] eqn:Hn; simplify_eq. simpl.
  rewrite (done_total_mark _ _ _ _ Hn Hv), Hsum, wrap_int_add_l. f_equal. lia.
Qed.

Lemma process_graph_marks idx g g' out :
  process_graph idx g = Some (g', out) -> visited (graph g') !! idx = Some DONE.
Proof.
  unfold process_graph. intros H.
  destruct (visited (graph g) !! idx) as [[]|] eqn:Hv; simplify_eq; [|done].
  destruct (nodes (graph g) !! idx) as [current|] eqn:Hn; simplify_eq. simpl.
  apply list_lookup_insert_eq. by eapply lookup_lt_Some.
Qed.

(** A mark, once [DONE], stays. *)
Lemma process_graph_keeps_marks idx j g g' out :
  process_graph idx g = Some (g', out) ->
  visited (graph g) !! j = Some DONE -> visited (graph g') !! j = Some DONE.
Proof.
  unfold process_graph. intros H Hj.
  destruct (visited (graph g) !! idx) as [[]|] eqn:Hv; simplify_eq; [|done].
  destruct (nodes (graph g) !! idx) as [current|] eqn:Hn; simplify_eq. simpl.
  destruct (decide (idx = j)) as [->|Hne]; [congruence|].
  by rewrite list_lookup_insert_ne.
Qed.

Lemma process_all_sum_ok idxs g g' :
  process_all idxs g = Some g' -> sum_ok g -> sum_ok g'.
Proof.
  revert g. induction idxs as [|idx idxs IH]; intros g H Hsum; simpl in H.
  - by simplify_eq.
  - destruct (process_graph idx g) as [[g1 out]|] eqn:Hp; [|done].
    apply (IH g1 H). by eapply process_graph_sum_ok.
Qed.

Lemma process_all_keeps_marks idxs j g g' :
  process_all idxs g = Some g' ->
  visited (graph g) !! j = Some DONE -> visited (graph g') !! j = Some DONE.
Proof.
  revert g. induction idxs as [|idx idxs IH]; intros g H Hj; simpl in H.
  - by simplify_eq.
  - destruct (process_graph idx g) as [[g1 out]|] eqn:Hp; [|done].
    apply (IH g1 H). by eapply process_graph_keeps_marks.
Qed.

Lemma process_graph_steps_submit fuel j todo g out :
  process_graph_steps (S fuel) (InLoop (j :: todo)) g out
  = process_graph_steps fuel (InLoop todo) g (out ++ [process_node j]).
Proof. done. Qed.

Lemma process_graph_steps_mark fuel idx g current :
  mutex g = false ->
  visited (graph g) !! idx = Some NOT_VISITED ->
  nodes (graph g) !! idx = Some current ->
  process_graph_steps (S fuel) (AtLock idx) g []
  = process_graph_steps fuel (InLoop (neighbours current))
      {| graph := set_visited idx DONE (graph g);
         sum := wrap_int (sum g + info current); mutex := true |} [].
Proof. intros Hm Hv Hn. simpl. by rewrite Hm, Hv, Hn. Qed.

(** The loop of lines 51-52 in steps. *)
Lemma process_graph_loop_steps todo g out :
  process_graph_steps (S (length todo)) (InLoop todo) g out
  = Some ({| graph := graph g; sum := sum g; mutex := false |},
          out ++ map process_node todo).
Proof.
  revert out. induction todo as [|j todo IH]; intros out.
  - simpl. by rewrite app_nil_r.
  - cbn [length]. rewrite process_graph_steps_submit, IH.
    simpl. by rewrite <- app_assoc.
Qed.

(** The function in steps does what the function in one piece does. *)
Lemma process_graph_steps_agree idx g g' out :
  mutex g = false ->
  process_graph idx g = Some (g', out) ->
  exists fuel, process_graph_steps fuel (AtLock idx) g [] = Some (g', out).
Proof.
  unfold process_graph. intros Hm H.
  destruct (visited (graph g) !! idx) as [[]|] eqn:Hv; simplify_eq.
  - destruct (nodes (graph g) !! idx) as [current|] eqn:Hn; simplify_eq.
    exists (S (S (length (neighbours current)))).
    rewrite (process_graph_steps_mark _ _ _ _ Hm Hv Hn).
    rewrite process_graph_loop_steps. simpl. by rewrite Hm.
  - exists 1. simpl. by rewrite Hm, Hv.
Qed.

Lemma process_graph_step_sum_ok l g :
  sum_ok g ->
  match process_graph_step l g with
  | AInternal g' _ | ASubmit _ _ _ g' _ | AReturn g' => sum_ok g'
  | AFault | ABlocked => True
  end.
Proof.
  intros Hsum. destruct l as [idx|[|j todo]]; simpl; try done.
  destruct (mutex g); [done|].
  destruct (visited (graph g) !! idx) as [[]|] eqn:Hv; try done.
  destruct (nodes (graph g) !! idx) as [current|] eqn:Hn; [|done].
  unfold sum_ok in *. simpl.
  rewrite (done_total_mark _ _ _ _ Hn Hv), Hsum, wrap_int_add_l. f_equal. lia.
Qed.

(** C9: [process_graph] on a node whose mark is already set returns at
    once, with the sum, the marks and everything else as they were, and
    submits nothing; so a second call on the same node changes nothing,
    and after any sequence of calls, and in every state of every run of
    the program on the pool, [sum] holds the value of each marked node
    exactly once. *)
Theorem process_graph_idempotent idx g :
  visited (graph g) !! idx = Some DONE ->
  process_graph idx g = Some (g, []) /\
  (mutex g = false -> process_graph_step (AtLock idx) g = AReturn g) /\
  (forall g0 g1 out, process_graph idx g0 = Some (g1, out) ->
     process_graph idx g1 = Some (g1, [])) /\
  (forall idxs g', sum_ok g -> process_all idxs g = Some g' ->
     sum_ok g' /\ visited (graph g') !! idx = Some DONE) /\
  (forall n g0 s,
     done_total (nodes g0) (visited g0) = 0%Z ->
     reachable n [process_node 0] {| graph := g0; sum := 0; mutex := false |} s ->
     sum_ok (shared s)).
Proof.
  intros Hv. assert (process_graph idx g = Some (g, [])) as Hp.
  { unfold process_graph. by rewrite Hv. }
  split; [done|]. split; [|split].
  - intros Hm. simpl. by rewrite Hm, Hv.
  - intros g0 g1 out H01. apply process_graph_marks in H01.
    unfold process_graph. by rewrite H01.
  - split.
    + intros idxs g' Hsum Hall. split.
      * by eapply process_all_sum_ok.
      * by eapply process_all_keeps_marks.
    + intros n g0 s H0 Hr.
      apply (shared_invariant sum_ok) in Hr; [done | |].
      * intros l c0. apply process_graph_step_sum_ok.
      * unfold sum_ok. simpl. by rewrite H0.
Qed.
End Traversal.

(** ** The schedule that loses the work *)

Section EarlyWorkers.
Import Parallel.

(** C2, on the source as it is: with the four workers of [main] and the
    schedule [early_workers], in which no wait returns without a
    notification, [wait_for_completion] returns while the task that the
    submitter has enqueued is still in the queue and has never been
    executed. *)
Theorem wait_for_completion_returns_early :
  exists s t,
    existsb is_spurious early_workers = false /\
    run early_workers (main_program NUM_THREADS five_nodes) = Some s /\
    main s = Destroying /\
    created (log s) = [t] /\
    head (tp s) = [t] /\
    called (log s) = [] /\
    stop_work (tp s) = 1%Z.
Proof. eexists _, _. vm_compute. repeat split. Qed.

(** When the submitter runs first, the traversal visits every node and the
    sum is 15. *)
Example submitter_first_sum_15 :
  exists s,
    run submitter_first (main_program NUM_THREADS five_nodes) = Some s /\
    main s = Finished /\
    sum (shared s) = 15%Z /\
    visited (graph (shared s)) = replicate 5 DONE.
Proof. eexists. vm_compute. repeat split. Qed.

(** C3, on the source as it is: on the five-node graph, with the four
    workers of [main], the same schedule ends with no node visited and
    the sum 0. *)
Theorem early_workers_sum_zero :
  exists s,
    existsb is_spurious early_workers_to_the_end = false /\
    run early_workers_to_the_end (main_program NUM_THREADS five_nodes) = Some s /\
    main s = Finished /\
    sum (shared s) = 0%Z /\
    visited (graph (shared s)) = replicate 5 NOT_VISITED /\
    called (log s) = [].
Proof. eexists. vm_compute. repeat split. Qed.
End EarlyWorkers.

(** ** The properties on the example program *)

Section Witnesses.
Lemma dequeue_task_declares_shutdown_witness :
  (0 <= waiting_threads Demo.last_to_idle < num_threads Demo.last_to_idle)%Z /\
  (num_threads Demo.last_to_idle < 2 ^ 32)%Z /\
  queue_is_empty Demo.last_to_idle = true /\
  dequeue_task Demo.last_to_idle = dequeue_by_the_spec Demo.last_to_idle.
Proof.
  split; [simpl; lia|]. split; [simpl; lia|]. split; [reflexivity|].
  apply (dequeue_task_declares_shutdown Demo.last_to_idle);
    [simpl; lia | simpl; lia | reflexivity].
Defined.

Lemma dequeue_task_fifo_witness :
  (0 <= waiting_threads Demo.two_pending < 2 ^ 32)%Z /\
  pending Demo.two_pending = [Demo.first; Demo.second] /\
  exists tp' ns,
    dequeue_task Demo.two_pending = (tp', ns, Returned (Some Demo.first)) /\
    pending tp' = [Demo.second] /\
    waiting_threads tp' = waiting_threads Demo.two_pending /\
    num_threads tp' = num_threads Demo.two_pending.
Proof.
  split; [simpl; lia|]. split; [reflexivity|].
  apply (dequeue_task_fifo Demo.two_pending Demo.first [Demo.second]);
    [simpl; lia | reflexivity].
Defined.

Lemma destroy_task_null_destructor_witness :
  destroy_arg Demo.first = None /\ destroy_task Demo.first = [Freed Demo.first].
Proof.
  split; [reflexivity|].
  apply (destroy_task_null_destructor Demo.first). reflexivity.
Defined.

Lemma process_graph_idempotent_witness :
  Parallel.visited (Parallel.graph Demo.a_done) !! 0 = Some Parallel.DONE /\
  Parallel.process_graph 0 Demo.a_done = Some (Demo.a_done, []).
Proof.
  split; [reflexivity|].
  apply (process_graph_idempotent 0 Demo.a_done). reflexivity.
Defined.
End Witnesses.

Section RunWitnesses.
Local Existing Instance Demo.client.

Lemma demo_drained : run Demo.submit_and_run Demo.start = Some Demo.drained.
Proof. reflexivity. Defined.

Lemma demo_finished : run Demo.shut_down Demo.drained = Some Demo.finished.
Proof. reflexivity. Defined.

Lemma demo_reachable : reachable 1 Demo.seeds tt Demo.finished.
Proof. exists (Demo.submit_and_run ++ Demo.shut_down). reflexivity. Defined.

Lemma waiting_threads_bounds_witness :
  (0 <= 1 < 2 ^ 32)%Z /\
  reachable 1 Demo.seeds tt Demo.finished /\
  num_threads (tp Demo.finished) = 1%Z /\
  (0 <= waiting_threads (tp Demo.finished) <= num_threads (tp Demo.finished))%Z.
Proof.
  split; [lia|]. split; [exact demo_reachable|].
  destruct (waiting_threads_bounds 1 Demo.seeds tt Demo.finished
              ltac:(lia) demo_reachable) as (Hn & Hw & _).
  split; [exact Hn | exact Hw].
Defined.

Lemma stop_work_set_once_witness :
  run Demo.submit_and_run Demo.start = Some Demo.drained /\
  run Demo.shut_down Demo.drained = Some Demo.finished /\
  (stop_work (tp Demo.drained) = 1%Z -> stop_work (tp Demo.finished) = 1%Z) /\
  rises 0 (stop_work_history (Demo.submit_and_run ++ Demo.shut_down) Demo.start) <= 1.
Proof.
  split; [exact demo_drained|]. split; [exact demo_finished|].
  destruct (stop_work_set_once 1 Demo.seeds tt Demo.submit_and_run Demo.drained
              Demo.shut_down Demo.finished demo_drained demo_finished)
    as (_ & _ & Hkeep & Hrise & _).
  split; [exact Hkeep | exact Hrise].
Defined.

Lemma destroy_arg_called_once_witness :
  (0 <= 1 < 2 ^ 32)%Z /\
  reachable 1 Demo.seeds tt Demo.finished /\
  Demo.task ∈ created (log Demo.finished) /\
  occurrences (self Demo.task) (arg_destroyed (log Demo.finished))
    = occurrences (self Demo.task) (freed (log Demo.finished)) /\
  occurrences (self Demo.task) (freed (log Demo.finished)) = 1.
Proof.
  assert (Demo.task ∈ created (log Demo.finished)) as Hin by (by left).
  split; [lia|]. split; [exact demo_reachable|]. split; [exact Hin|].
  destruct (destroy_arg_called_once 1 Demo.seeds tt Demo.finished Demo.task
              ltac:(lia) demo_reachable Hin) as (_ & _ & _ & Hd & _ & Hf).
  split; [exact Hd | exact (Hf eq_refl)].
Defined.
End RunWitnesses.

(** * Further properties *)

(** ** What a call of [dequeue_task] returns *)

Section Outcomes.
Context {Fn Arg : Type}.
Implicit Types (tp : os_threadpool Fn Arg) (t : os_task Fn Arg).

Lemma dequeue_loop_outcome tp tp' ns o :
  dequeue_loop tp = (tp', ns, o) ->
  (o = Blocked <-> queue_is_empty tp = true /\ stop_work tp = 0%Z) /\
  (o = Returned None <-> queue_is_empty tp = true /\ stop_work tp <> 0%Z) /\
  ((exists t, o = Returned (Some t)) <-> queue_is_empty tp = false).
Proof.
  unfold dequeue_loop, dequeue_leave, queue_is_empty, OsList.list_prev.
  intros H. destruct (head tp) as [|x l] eqn:Hh; simpl in H.
  - destruct (Z.eqb_spec (stop_work tp) 0) as [Hs|Hs]; simpl in H; simplify_eq;
      repeat split; try done; try tauto; by intros [? ?].
  - simplify_eq. assert (is_Some (last (x :: l))) as [t Ht].
    { apply last_is_Some. done. }
    rewrite Ht. repeat split; try done; try tauto; eauto; by intros [? ?].
Qed.

(** A NULL return, from the call or from its resumption, leaves the flag
    set and the queue empty. *)
Lemma dequeue_loop_null tp tp' ns :
  dequeue_loop tp = (tp', ns, Returned None) ->
  stop_work tp' <> 0%Z /\ head tp' = [] /\ head tp = [].
Proof.
  intros H. pose proof (dequeue_loop_outcome _ _ _ _ H) as (_ & Hn & _).
  pose proof (dequeue_loop_inv _ _ _ _ H) as (_ & Hstop & Hlast & Hhead & _).
  symmetry in Hlast. apply last_None in Hlast.
  split; [rewrite Hstop; by apply Hn|]. by rewrite Hhead, Hlast.
Qed.

Lemma dequeue_task_null tp tp' ns :
  dequeue_task tp = (tp', ns, Returned None) ->
  stop_work tp' <> 0%Z /\ head tp' = [] /\ head tp = [].
Proof.
  unfold dequeue_task. intros H.
  destruct (dequeue_enter tp) as [tp1 ns1] eqn:He.
  destruct (dequeue_loop tp1) as [[tp2 ns2] o2] eqn:Hl. simplify_eq.
  destruct (dequeue_loop_null _ _ _ Hl) as (? & ? & Hh1).
  destruct (dequeue_enter_fields tp) as (_ & Hh & _).
  rewrite He in Hh. simpl in Hh. by rewrite <- Hh.
Qed.

(** X1: what a call of [dequeue_task] does is decided by the queue, the
    flag and the counter it finds.  It returns a task exactly when the
    queue is not empty; it returns NULL exactly when the queue is empty
    and either [stop_work] is set or the caller finds
    [waiting_threads == num_threads - 1]; it goes into
    [pthread_cond_wait] in the remaining case.  A NULL return leaves
    [stop_work] set and the queue empty, and a call that resumes from the
    wait decides the same way on the queue and the flag alone. *)
Theorem dequeue_task_outcome tp tp' ns o :
  dequeue_task tp = (tp', ns, o) ->
  ((exists t, o = Returned (Some t)) <-> queue_is_empty tp = false) /\
  (o = Returned None <->
     queue_is_empty tp = true /\
     (stop_work tp <> 0%Z \/
      waiting_threads tp = wrap_uint (num_threads tp - 1))) /\
  (o = Blocked <->
     queue_is_empty tp = true /\ stop_work tp = 0%Z /\
     waiting_threads tp <> wrap_uint (num_threads tp - 1)) /\
  (o = Returned None -> stop_work tp' <> 0%Z /\ head tp' = []) /\
  (forall tp1 tp2 ns2 o2,
     dequeue_task_resume tp1 = (tp2, ns2, o2) ->
     (o2 = Blocked <-> queue_is_empty tp1 = true /\ stop_work tp1 = 0%Z) /\
     (o2 = Returned None -> stop_work tp2 <> 0%Z /\ head tp2 = [])).
Proof.
  intros H. unfold dequeue_task in H.
  destruct (dequeue_enter tp) as [tp1 ns1] eqn:He.
  destruct (dequeue_loop tp1) as [[tp2 ns2] o2] eqn:Hl. simplify_eq.
  pose proof (dequeue_loop_outcome _ _ _ _ Hl) as (Hb & Hn & Hs).
  pose proof (dequeue_loop_inv _ _ _ _ Hl) as (_ & Hstop & Hloop).
  assert (queue_is_empty tp1 = queue_is_empty tp) as Hq.
  { unfold queue_is_empty. destruct (dequeue_enter_fields tp) as (_ & Hh & _).
    by rewrite He in Hh; simpl in Hh; rewrite Hh. }
  assert (stop_work tp1 = 0%Z <->
          stop_work tp = 0%Z /\
          waiting_threads tp <> wrap_uint (num_threads tp - 1)) as Hflag.
  { unfold dequeue_enter in He.
    destruct (Z.eqb_spec (waiting_threads tp) (wrap_uint (num_threads tp - 1)));
      simplify_eq; simpl; split; try tauto; try done. }
  rewrite Hq in Hb, Hn, Hs.
  split; [done|]. split; [|split; [|split]].
  - rewrite Hn. split.
    + intros [Hempty Hset]. split; [done|].
      destruct (decide (stop_work tp = 0%Z)); [|by left]. right.
      destruct (decide (waiting_threads tp = wrap_uint (num_threads tp - 1)));
        [done|]. destruct Hset. apply Hflag. done.
    + intros [Hempty Hset]. split; [done|]. rewrite Hflag. tauto.
  - rewrite Hb, Hflag. tauto.
  - intros ->. destruct (dequeue_loop_null _ _ _ Hl) as (? & ? & _). done.
  - intros tp3 tp4 ns4 o4 Hr. unfold dequeue_task_resume in Hr.
    pose proof (dequeue_loop_outcome _ _ _ _ Hr) as (Hb4 & _ & _).
    split; [done|]. intros ->.
    destruct (dequeue_loop_null _ _ _ Hr) as (? & ? & _). done.
Qed.
End Outcomes.

(** ** Workers, the flag and the queue along a run *)

Section Service.
Context {Fn Arg C L : Type} `{!Client Fn Arg C L}.
Implicit Types (s : sys Fn Arg C L) (ws : list (worker Fn Arg L))
  (m : submitter Fn Arg) (w : worker Fn Arg L)
  (tp : os_threadpool Fn Arg) (t : os_task Fn Arg).

(** What the transitions preserve holds along every run from a state
    where it holds. *)
Lemma run_invariant (P : sys Fn Arg C L -> Prop) tr s s' :
  (forall a s1 s2, P s1 -> step a s1 = Some s2 -> P s2) ->
  P s -> run tr s = Some s' -> P s'.
Proof.
  intros Hstep. revert s. induction tr as [|a tr IH]; intros s HP Hrun;
    simpl in Hrun.
  - by simplify_eq.
  - destruct (step a s) as [s1|] eqn:Hs; [|done].
    apply (IH s1); [|done]. eauto.
Qed.

Lemma run_reachable n seeds c tr s s' :
  reachable n seeds c s -> run tr s = Some s' -> reachable n seeds c s'.
Proof.
  intros [tr0 Hrun0] Hrun. exists (tr0 ++ tr). apply run_app. eauto.
Qed.

Lemma woken_exited ws ws' j :
  Forall2 woken ws ws' -> ws' !! j = Some Exited -> ws !! j = Some Exited.
Proof.
  intros Hws Hj. destruct (Forall2_lookup_r _ _ _ _ _ Hws Hj) as (w & Hw & Hwoken).
  rewrite Hw. f_equal. destruct Hwoken as [->|Heq]; [done|]. by destruct w.
Qed.

Lemma dequeue_returns_null tp tp' ns w :
  (w = AtDequeue /\ dequeue_task tp = (tp', ns, Returned None)) \/
  (w = @Woken Fn Arg L /\ dequeue_task_resume tp = (tp', ns, Returned None)) ->
  stop_work tp' <> 0%Z /\ head tp' = [].
Proof.
  intros [[_ H]|[_ H]].
  - by destruct (dequeue_task_null _ _ _ H) as (? & ? & _).
  - by destruct (dequeue_loop_null _ _ _ H) as (? & ? & _).
Qed.

Lemma lookup_update_woken ws ws' i j w w' x :
  Forall2 woken ws ws' -> ws !! i = Some w ->
  (<[i := w']> ws') !! j = Some x ->
  (j = i /\ x = w') \/ (j <> i /\ ws' !! j = Some x).
Proof.
  intros Hws Hi Hj. destruct (decide (j = i)) as [->|Hne].
  - left. split; [done|].
    rewrite list_lookup_insert_eq in Hj; [congruence|].
    rewrite <- (Forall2_length _ _ _ Hws). by eapply lookup_lt_Some.
  - right. split; [done|]. by rewrite list_lookup_insert_ne in Hj.
Qed.

(** A step makes a worker leave only with the flag set. *)
Lemma exited_transition s s' j :
  transition s s' -> threads s' !! j = Some Exited ->
  threads s !! j = Some Exited \/
  (stop_work (tp s') <> 0%Z /\ head (tp s') = []).
Proof.
  intros Ht.
  destruct Ht as
    [ i pick w tp' ns o ws m Hi Hdq Hd
    | i t l c l' Hi Ha
    | i t l act arg destroy c l' pick tp' ns ws m Hi Ha He Hd
    | i t l c Hi Ha
    | act arg destroy todo pick tp' ns ws m Hm He Hd
    | Hm | i Hm Hlt Hi | i Hm Hge | Hm | i Hi | Hm ]; simpl; intros Hj; auto.
  - apply deliver_all_woken in Hd as [Hws _].
    destruct (lookup_update_woken _ _ _ _ _ _ _ Hws Hi Hj) as [[-> Ho]|[_ Hj']].
    + right. destruct o as [|[t|]]; try done.
      by apply (dequeue_returns_null (tp s) tp' ns w).
    + left. by apply (woken_exited _ _ _ Hws).
  - destruct (lookup_update_woken _ _ _ _ _ _ _ (woken_refl _) Hi Hj)
      as [[_ ?]|[_ ?]]; [done | auto].
  - apply deliver_all_woken in Hd as [Hws _].
    destruct (lookup_update_woken _ _ _ _ _ _ _ Hws Hi Hj) as [[_ ?]|[_ Hj']];
      [done|]. left. by apply (woken_exited _ _ _ Hws).
  - destruct (lookup_update_woken _ _ _ _ _ _ _ (woken_refl _) Hi Hj)
      as [[_ ?]|[_ ?]]; [done | auto].
  - apply deliver_all_woken in Hd as [Hws _]. left.
    by apply (woken_exited _ _ _ Hws).
  - destruct (lookup_update_woken _ _ _ _ _ _ _ (woken_refl _) Hi Hj)
      as [[_ ?]|[_ ?]]; [done | auto].
Qed.

Lemma exits_ok_reachable n seeds c s : reachable n seeds c s -> exits_ok s.
Proof.
  apply reachable_transition_ind.
  - intros [i Hi]. simpl in Hi. apply lookup_replicate in Hi as [? _]. done.
  - intros s1 s2 _ Hok Ht [j Hj].
    destruct (exited_transition _ _ _ Ht Hj) as [Hj1|[? _]]; [|done].
    assert (stop_work (tp s1) <> 0%Z) as Hs1 by (apply Hok; eauto).
    destruct (stop_work_transition _ _ Ht) as [->| ->]; done.
Qed.


Lemma executing_exited ws : Forall (fun w => w = Exited) ws -> executing ws = [].
Proof.
  induction 1 as [|w ws -> _ IH]; [done|]. by rewrite executing_cons, IH.
Qed.

Lemma idle_count_exited ws : Forall (fun w => w = Exited) ws -> idle_count ws = 0.
Proof.
  induction 1 as [|w ws -> _ IH]; [done|]. by rewrite idle_count_cons, IH.
Qed.

(** X3: when [wait_for_completion] has returned, every worker has left
    its loop: no task is being executed, [waiting_threads] is back to 0,
    and a pool with at least one thread has [stop_work] set.  Before
    [destroy_threadpool], the tasks whose action has been called are the
    tasks freed, and every other task created is still in the queue. *)
Theorem wait_for_completion_joins n seeds c s :
  (0 <= n < 2 ^ 32)%Z ->
  reachable n seeds c s ->
  main s = Destroying \/ main s = Finished ->
  Forall (fun w => w = Exited) (threads s) /\
  executing (threads s) = [] /\
  waiting_threads (tp s) = 0%Z /\
  ((0 < n)%Z -> stop_work (tp s) <> 0%Z) /\
  (main s = Destroying ->
   called (log s) ≡ₚ freed (log s) /\
   created (log s) ≡ₚ head (tp s) ++ freed (log s)).
Proof.
  intros Hn Hr Hm.
  pose proof (joined_ok_reachable _ _ _ _ Hn Hr) as Hj.
  destruct (counts_ok_reachable _ _ _ _ Hn Hr) as (Hnum & Hlen & Hw).
  destruct (tasks_ok_reachable _ _ _ _ Hr) as (Hperm & _).
  pose proof (disposed_ok_reachable _ _ _ _ Hr) as Hdisp.
  assert (Forall (fun w => w = Exited) (threads s)) as Hall.
  { unfold joined_ok in Hj. destruct Hm as [Hm|Hm]; rewrite Hm in Hj; tauto. }
  pose proof (executing_exited _ Hall) as Hex.
  split; [done|]. split; [done|]. split; [|split].
  - by rewrite Hw, (idle_count_exited _ Hall).
  - intros Hpos. apply (exits_ok_reachable _ _ _ _ Hr). exists 0.
    destruct (threads s) as [|w ws] eqn:Hws; [simpl in Hlen; lia|].
    apply Forall_cons in Hall as [-> _]. done.
  - intros Hd. rewrite Hex in Hperm. split; [|done].
    rewrite Hdisp by congruence. by rewrite Hex.
Qed.

(** X4: a task has one owner at a time.  The tasks in the queue, those
    being executed and those freed are pairwise distinct objects, so no
    task is in the queue twice, held by two workers, or queued while a
    worker has it; and the action of a task that is still in the queue has
    not been called. *)
Theorem task_has_one_owner n seeds c s :
  (0 <= n < 2 ^ 32)%Z ->
  reachable n seeds c s ->
  NoDup (self <$> head (tp s) ++ executing (threads s) ++ freed (log s)) /\
  (forall t, t ∈ head (tp s) -> t ∉ called (log s)).
Proof.
  intros Hn Hr.
  destruct (tasks_ok_reachable _ _ _ _ Hr) as (Hperm & Hself & _).
  pose proof (disposed_ok_reachable _ _ _ _ Hr) as Hdisp.
  pose proof (joined_ok_reachable _ _ _ _ Hn Hr) as Hj.
  assert (NoDup (self <$> head (tp s) ++ executing (threads s) ++ freed (log s)))
    as Hnd.
  { rewrite <- Hperm, Hself. apply NoDup_seq. }
  split; [done|]. intros t Hhead Hcalled.
  assert (main s = Finished \/ main s <> Finished) as [Hfin|Hfin]
    by (destruct (main s); auto).
  - unfold joined_ok in Hj. rewrite Hfin in Hj. destruct Hj as [_ Hnil].
    rewrite Hnil in Hhead. by apply elem_of_nil in Hhead.
  - rewrite (Hdisp Hfin) in Hcalled.
    rewrite fmap_app in Hnd. apply NoDup_app in Hnd as (_ & Hdisj & _).
    apply (Hdisj (self t)); by apply list_elem_of_fmap_2.
Qed.

Lemma others_idle ws i w :
  ws !! i = Some w -> is_idle w = false ->
  idle_count ws + 1 = length ws ->
  forall j w', j <> i -> ws !! j = Some w' -> is_idle w' = true.
Proof.
  intros Hi Hw Hcount j w' Hne Hj.
  destruct (is_idle w') eqn:Hw'; [done|]. exfalso.
  pose proof (idle_count_insert ws i w InCondWait Hi) as Hins.
  unfold idle_weight in Hins. rewrite Hw in Hins. simpl in Hins.
  assert (<[i := InCondWait]> ws !! j = Some w') as Hj'
    by (by rewrite list_lookup_insert_ne).
  pose proof (idle_count_lt _ _ _ Hj' Hw') as Hlt.
  rewrite length_insert in Hlt. lia.
Qed.

(** X5: when the test of line 92 succeeds for a worker that calls
    [dequeue_task], every other worker of the pool is inside
    [dequeue_task], in [pthread_cond_wait] or just out of it, and no task
    is being executed. *)
Theorem last_worker_test n seeds c s i :
  (0 <= n < 2 ^ 32)%Z ->
  reachable n seeds c s ->
  threads s !! i = Some AtDequeue ->
  (waiting_threads (tp s) =? wrap_uint (num_threads (tp s) - 1))%Z = true ->
  (forall j w, j <> i -> threads s !! j = Some w -> is_idle w = true) /\
  executing (threads s) = [].
Proof.
  intros Hn Hr Hi Htest.
  destruct (counts_ok_reachable _ _ _ _ Hn Hr) as (Hnum & Hlen & Hw).
  assert (0 < n)%Z as Hpos.
  { apply lookup_lt_Some in Hi. lia. }
  apply Z.eqb_eq in Htest. rewrite wrap_uint_small in Htest by lia.
  assert (idle_count (threads s) + 1 = length (threads s)) as Hcount by lia.
  pose proof (others_idle _ _ _ Hi eq_refl Hcount) as Hidle.
  split; [done|].
  assert (forall j w, threads s !! j = Some w -> task_of w = None) as Hnone.
  { intros j w Hj. destruct (decide (j = i)) as [->|Hne].
    - rewrite Hi in Hj. by simplify_eq.
    - specialize (Hidle j w Hne Hj). by destruct w. }
  clear -Hnone. induction (threads s) as [|w ws IH]; [done|].
  rewrite executing_cons, (Hnone 0 w eq_refl). simpl.
  apply IH. intros j w' Hj. by apply (Hnone (S j)).
Qed.

(** *** No task is lost once a worker is there to take it *)

Lemma past_submitting_woken m m' :
  submitter_woken m m' -> past_submitting m -> past_submitting m'.
Proof. intros [->| ->] Hm; [done|]. by destruct m. Qed.

Lemma submitter_woken_to_finished m m' :
  submitter_woken m m' -> m' = Finished -> m = Finished.
Proof. intros [->| ->]; [done|]. by destruct m. Qed.

Lemma alive_after_update ws ws' i w w' :
  Forall2 woken ws ws' -> ws !! i = Some w -> w' <> Exited ->
  exists j x, <[i := w']> ws' !! j = Some x /\ x <> Exited.
Proof.
  intros Hws Hi Hw'. exists i, w'. split; [|done].
  apply list_lookup_insert_eq.
  rewrite <- (Forall2_length _ _ _ Hws). by eapply lookup_lt_Some.
Qed.

Lemma served_transition s s' :
  past_submitting (main s) -> served s -> transition s s' ->
  past_submitting (main s') /\ served s'.
Proof.
  unfold served. intros Hpast Hserved Ht.
  destruct Ht as
    [ i pick w tp' ns o ws m Hi Hdq Hd
    | i t l c l' Hi Ha
    | i t l act arg destroy c l' pick tp' ns ws m Hi Ha He Hd
    | i t l c Hi Ha
    | act arg destroy todo pick tp' ns ws m Hm He Hd
    | Hm | i Hm Hlt Hi | i Hm Hge | Hm | i Hi | Hm ]; simpl.
  - apply deliver_all_woken in Hd as [Hws Hsub].
    split; [by eapply past_submitting_woken|]. intros Hne.
    destruct o as [|[t|]].
    + eapply alive_after_update; [exact Hws | exact Hi | done].
    + eapply alive_after_update; [exact Hws | exact Hi | done].
    + destruct (dequeue_returns_null _ _ _ _ Hdq) as [_ Hnil]. done.
  - split; [done|]. intros _.
    eapply alive_after_update; [apply woken_refl | exact Hi | done].
  - apply deliver_all_woken in Hd as [Hws Hsub].
    split; [by eapply past_submitting_woken|]. intros _.
    eapply alive_after_update; [exact Hws | exact Hi | done].
  - split; [done|]. intros _.
    eapply alive_after_update; [apply woken_refl | exact Hi | done].
  - by rewrite Hm in Hpast.
  - split; [|done]. by destruct (wait_for_completion_waits (tp s)).
  - done.
  - done.
  - done.
  - split; [done|]. intros _.
    eapply alive_after_update; [apply woken_refl | exact Hi | done].
  - done.
Qed.

(** With every worker gone, only the submitter runs. *)
Lemma to_finished s s' :
  Forall (fun w => w = Exited) (threads s) ->
  transition s s' -> main s' = Finished ->
  main s = Destroying /\
  threads s' = threads s /\
  log s' = log s ++ flat_map destroy_task (head (tp s)).
Proof.
  intros Hall Ht.
  destruct Ht as
    [ i pick w tp' ns o ws m Hi Hdq Hd
    | i t l c l' Hi Ha
    | i t l act arg destroy c l' pick tp' ns ws m Hi Ha He Hd
    | i t l c Hi Ha
    | act arg destroy todo pick tp' ns ws m Hm He Hd
    | Hm | i Hm Hlt Hi | i Hm Hge | Hm | i Hi | Hm ]; simpl; intros Hfin;
    try done;
    try (pose proof (exited_no_worker _ _ _ Hall Hi) as Hex;
         first [ by destruct Hdq as [[-> _]|[-> _]] | done ]).
  by destruct (wait_for_completion_waits (tp s)).
Qed.

(** [destroy_threadpool] is the only step into the last state. *)
Lemma before_finished s s' :
  transition s s' -> main s' = Finished ->
  main s = Destroying \/ main s = Finished.
Proof.
  intros Ht.
  destruct Ht as
    [ i pick w tp' ns o ws m Hi Hdq Hd
    | i t l c0 l' Hi Ha
    | i t l act arg destroy c0 l' pick tp' ns ws m Hi Ha He Hd
    | i t l c0 Hi Ha
    | act arg destroy todo pick tp' ns ws m Hm' He Hd
    | Hm' | i Hm' Hlt Hi | i Hm' Hge | Hm' | i Hi | Hm' ];
    simpl; intros Hfin; try done; auto.
  - apply deliver_all_woken in Hd as [_ Hsub].
    right. by apply (submitter_woken_to_finished _ _ Hsub).
  - apply deliver_all_woken in Hd as [_ Hsub].
    right. by apply (submitter_woken_to_finished _ _ Hsub).
  - by destruct (wait_for_completion_waits (tp s)).
Qed.

Lemma joined_all_exited n seeds c s :
  (0 <= n < 2 ^ 32)%Z ->
  reachable n seeds c s ->
  main s = Destroying \/ main s = Finished ->
  Forall (fun w => w = Exited) (threads s).
Proof.
  intros Hn Hr Hm. pose proof (joined_ok_reachable _ _ _ _ Hn Hr) as Hj.
  unfold joined_ok in Hj. destruct Hm as [Hm|Hm]; rewrite Hm in Hj; tauto.
Qed.

Lemma drained_ok_step n seeds c a s s' :
  (0 <= n < 2 ^ 32)%Z ->
  reachable n seeds c s -> drained_ok s -> step a s = Some s' ->
  drained_ok s'.
Proof.
  intros Hn Hr (Hpast & Hserved & Hfin) Hs. apply step_transition in Hs.
  destruct (served_transition _ _ Hpast Hserved Hs) as [Hpast' Hserved'].
  split; [done|]. split; [done|]. intros Hfin'.
  pose proof (joined_all_exited _ _ _ _ Hn Hr (before_finished _ _ Hs Hfin'))
    as Hall.
  destruct (to_finished _ _ Hall Hs Hfin') as (Hd & _ & Hlog).
  assert (head (tp s) = []) as Hnil.
  { destruct (head (tp s)) as [|t ts] eqn:Hh; [done|].
    destruct Hserved as (i & w & Hi & Hw); [by rewrite Hh|].
    by destruct Hw; apply (exited_no_worker _ _ _ Hall Hi). }
  rewrite Hlog, Hnil. simpl. rewrite app_nil_r.
  destruct (tasks_ok_reachable _ _ _ _ Hr) as (Hperm & _).
  pose proof (disposed_ok_reachable _ _ _ _ Hr) as Hdisp.
  rewrite Hperm, Hnil, Hdisp by congruence. done.
Qed.

Lemma drained_run n seeds c s0 tr s :
  (0 <= n < 2 ^ 32)%Z ->
  reachable n seeds c s0 ->
  main s0 = Submitting [] ->
  served s0 ->
  run tr s0 = Some s ->
  reachable n seeds c s /\ drained_ok s.
Proof.
  intros Hn Hr0 Hm0 Hserved0 Hrun.
  apply (run_invariant (fun s => reachable n seeds c s /\ drained_ok s)
           tr s0 s); [| |done].
  - intros a s1 s2 [Hr1 Hok1] Hstep. split.
    + by eapply reachable_step.
    + by eapply drained_ok_step.
  - split; [done|]. split; [by rewrite Hm0|]. split; [done|]. congruence.
Qed.

Lemma drained_end n seeds c s :
  (0 <= n < 2 ^ 32)%Z ->
  reachable n seeds c s ->
  served s ->
  main s = Destroying \/ main s = Finished ->
  Forall (fun w => w = Exited) (threads s) /\ head (tp s) = [].
Proof.
  intros Hn Hr Hserved Hm.
  pose proof (joined_ok_reachable _ _ _ _ Hn Hr) as Hj.
  assert (Forall (fun w => w = Exited) (threads s)) as Hall.
  { unfold joined_ok in Hj. destruct Hm as [Hm|Hm]; rewrite Hm in Hj; tauto. }
  split; [done|].
  destruct (head (tp s)) as [|t ts] eqn:Hh; [done|].
  destruct Hserved as (i & w & Hi & Hw); [by rewrite Hh|].
  by destruct Hw; apply (exited_no_worker _ _ _ Hall Hi).
Qed.

(** X6: no task is lost once the submitter has submitted its last task
    while the queue is empty or some worker is still in its loop.  From
    such a state on, when [wait_for_completion] has returned the queue is
    empty, no task is being executed, and the action of every task ever
    created has been called. *)
Theorem no_lost_work n seeds c s0 tr s :
  (0 <= n < 2 ^ 32)%Z ->
  reachable n seeds c s0 ->
  main s0 = Submitting [] ->
  served s0 ->
  run tr s0 = Some s ->
  main s = Destroying \/ main s = Finished ->
  head (tp s) = [] /\
  executing (threads s) = [] /\
  called (log s) ≡ₚ created (log s).
Proof.
  intros Hn Hr0 Hm0 Hserved0 Hrun Hm.
  destruct (drained_run _ _ _ _ _ _ Hn Hr0 Hm0 Hserved0 Hrun)
    as [Hr (Hpast & Hserved & Hfin)].
  destruct (drained_end _ _ _ _ Hn Hr Hserved Hm) as [Hall Hnil].
  pose proof (executing_exited _ Hall) as Hex.
  split; [done|]. split; [done|].
  destruct Hm as [Hm|Hm]; [|by apply Hfin].
  destruct (tasks_ok_reachable _ _ _ _ Hr) as (Hperm & _).
  pose proof (disposed_ok_reachable _ _ _ _ Hr) as Hdisp.
  rewrite Hperm, Hnil, Hdisp by congruence. done.
Qed.

(** *** Where tasks come from *)

Lemma todo_ok_woken (Q : Fn -> Arg -> option Fn -> Prop) m m' :
  submitter_woken m m' -> todo_ok Q m -> todo_ok Q m'.
Proof. intros [->| ->] Hm; [done|]. by destruct m. Qed.

(** Every task created was one of the submitter's or was submitted by a
    running action. *)
Lemma created_ok (Q : Fn -> Arg -> option Fn -> Prop) n seeds c s :
  Forall (fun x => Q x.1.1 x.1.2 x.2) seeds ->
  (forall l c0 act arg destroy c1 l',
     action_step l c0 = ASubmit act arg destroy c1 l' -> Q act arg destroy) ->
  reachable n seeds c s ->
  todo_ok Q (main s) /\
  Forall (fun t => Q (action t) (argument t) (destroy_arg t)) (created (log s)).
Proof.
  intros Hseeds Hsubmit. revert s.
  apply (reachable_transition_ind
           (fun s => todo_ok Q (main s) /\
                     Forall (fun t => Q (action t) (argument t) (destroy_arg t))
                            (created (log s)))).
  - split; [done|]. simpl. constructor.
  - intros s1 s2 _ [Htodo Hcreated] Ht.
    destruct Ht as
      [ i pick w tp' ns o ws m Hi Hdq Hd
      | i t l c0 l' Hi Ha
      | i t l act arg destroy c0 l' pick tp' ns ws m Hi Ha He Hd
      | i t l c0 Hi Ha
      | act arg destroy todo pick tp' ns ws m Hm He Hd
      | Hm | i Hm Hlt Hi | i Hm Hge | Hm | i Hi | Hm ]; simpl;
      rewrite ?created_app; simpl; rewrite ?app_nil_r.
    + apply deliver_all_woken in Hd as [_ Hsub].
      destruct (log_outcome_events o) as (-> & _). rewrite app_nil_r.
      split; [by eapply todo_ok_woken | done].
    + done.
    + apply deliver_all_woken in Hd as [_ Hsub].
      split; [by eapply todo_ok_woken|].
      apply Forall_app. split; [done|]. constructor; [|constructor].
      simpl. by eapply Hsubmit.
    + destruct (log_destroy_task t) as (-> & _). by rewrite app_nil_r.
    + rewrite Hm in Htodo. simpl in Htodo. apply Forall_cons in Htodo as [HQ Htodo].
      split; [done|]. apply Forall_app. split; [done|]. by constructor.
    + split; [|done]. by destruct (wait_for_completion_waits (tp s1)).
    + done.
    + done.
    + destruct (log_destroy_tasks (head (tp s1))) as (-> & _). by rewrite app_nil_r.
    + done.
    + done.
Qed.

(** The task a call of [dequeue_task] returns is the one it takes from
    the end of the queue. *)
Lemma dequeue_head_split tp tp' ns o w :
  (w = AtDequeue /\ dequeue_task tp = (tp', ns, o)) \/
  (w = @Woken Fn Arg L /\ dequeue_task_resume tp = (tp', ns, o)) ->
  head tp = head tp' ++
            option_list (match o with Blocked => None | Returned r => r end).
Proof.
  intros [[_ Hdq]|[_ Hdq]].
  - apply dequeue_task_inv in Hdq as (_ & _ & Ho). destruct o as [|r].
    + destruct Ho as (-> & _). simpl. by rewrite app_nil_r.
    + destruct Ho as (-> & -> & _). apply removelast_last_option.
  - apply dequeue_loop_inv in Hdq as (_ & _ & Ho). destruct o as [|r].
    + destruct Ho as (-> & _). simpl. by rewrite app_nil_r.
    + destruct Ho as (-> & -> & _). apply removelast_last_option.
Qed.
End Service.

(** ** Each action is called once *)

Section Once.
Context {Fn Arg C L : Type} `{!Client Fn Arg C L}.
Implicit Types (s : sys Fn Arg C L).

(** X16: no task is executed twice.  In every state of a run the calls
    of actions are calls of pairwise distinct task objects, each of them a
    task that [create_task] has returned; and until [destroy_threadpool]
    a task is freed only if its action has been called. *)
Theorem action_called_once n seeds c s :
  reachable n seeds c s ->
  NoDup (self <$> called (log s)) /\
  (forall t, t ∈ called (log s) -> t ∈ created (log s)) /\
  (main s <> Finished ->
   forall t, t ∈ freed (log s) -> t ∈ called (log s)).
Proof.
  intros Hr.
  destruct (tasks_ok_reachable _ _ _ _ Hr) as (Hperm & Hself & _).
  destruct (executed_ok_reachable _ _ _ _ Hr) as [rest Hrest].
  pose proof (disposed_ok_reachable _ _ _ _ Hr) as Hdisp.
  assert (NoDup (self <$> created (log s))) as Hnd
    by (rewrite Hself; apply NoDup_seq).
  rewrite Hperm, Hrest, !fmap_app in Hnd.
  apply NoDup_app in Hnd as (_ & _ & Hnd).
  apply NoDup_app in Hnd as (Hnd & _ & _).
  split; [done|]. split.
  - intros t Ht. rewrite Hperm, Hrest, !elem_of_app. auto.
  - intros Hfin t Ht. rewrite (Hdisp Hfin), elem_of_app. auto.
Qed.
End Once.

(** ** The traversal on the pool *)

Section TraversalRuns.
Import Parallel.
Implicit Types (s : sys fn nat globals pc) (ws : list (worker fn nat pc))
  (w : worker fn nat pc) (m : submitter fn nat).

(** *** The steps of [process_graph] *)

Lemma process_graph_step_internal l g c l' :
  process_graph_step l g = AInternal c l' ->
  exists idx current,
    l = AtLock idx /\ mutex g = false /\
    visited (graph g) !! idx = Some NOT_VISITED /\
    nodes (graph g) !! idx = Some current /\
    c = {| graph := set_visited idx DONE (graph g);
           sum := wrap_int (sum g + info current); mutex := true |} /\
    l' = InLoop (neighbours current).
Proof.
  destruct l as [idx|[|j todo]]; simpl; try done.
  destruct (mutex g); [done|].
  destruct (visited (graph g) !! idx) as [[]|] eqn:Hv; try done.
  destruct (nodes (graph g) !! idx) as [current|] eqn:Hn; [|done].
  intros [= <- <-]. eauto 10.
Qed.

Lemma process_graph_step_submit l g act arg destroy c l' :
  process_graph_step l g = ASubmit act arg destroy c l' ->
  exists todo,
    l = InLoop (arg :: todo) /\ act = PROCESS_GRAPH /\ destroy = None /\
    c = g /\ l' = InLoop todo.
Proof.
  destruct l as [idx|[|j todo]]; simpl; try done.
  - destruct (mutex g); [done|].
    destruct (visited (graph g) !! idx) as [[]|]; try done.
    by destruct (nodes (graph g) !! idx).
  - intros H. injection H; intros; subst. destruct act. by exists todo.
Qed.

Lemma process_graph_step_return l g c :
  process_graph_step l g = AReturn c ->
  (exists idx, l = AtLock idx /\ mutex g = false /\
               visited (graph g) !! idx = Some DONE /\ c = g) \/
  (l = InLoop [] /\
   c = {| graph := graph g; sum := sum g; mutex := false |}).
Proof.
  destruct l as [idx|[|j todo]]; simpl; try done.
  - destruct (mutex g) eqn:Hm; [done|].
    destruct (visited (graph g) !! idx) as [[]|] eqn:Hv; try done.
    + by destruct (nodes (graph g) !! idx).
    + intros [= <-]. left. eauto.
  - intros [= <-]. by right.
Qed.

(** *** The indices still wanted *)

Lemma local_wanted_cons w ws :
  flat_map local_wanted (w :: ws) = local_wanted w ++ flat_map local_wanted ws.
Proof. done. Qed.

Lemma local_wanted_woken ws ws' :
  Forall2 woken ws ws' -> flat_map local_wanted ws' = flat_map local_wanted ws.
Proof.
  induction 1 as [|w w' l l' Hw _ IH]; [done|].
  rewrite !local_wanted_cons, IH. f_equal.
  destruct Hw as [->| ->]; [done | by destruct w].
Qed.

Lemma local_wanted_insert ws i w w' :
  ws !! i = Some w ->
  flat_map local_wanted (<[i := w']> ws) ++ local_wanted w
  ≡ₚ flat_map local_wanted ws ++ local_wanted w'.
Proof.
  intros Hi. destruct (insert_middle ws i w w' Hi) as (l1 & l2 & -> & ->).
  rewrite !flat_map_app, !local_wanted_cons. solve_Permutation.
Qed.

(** The indices the workers hold, apart from those of worker [i]. *)
Lemma local_wanted_split ws ws' i w w' :
  Forall2 woken ws ws' -> ws !! i = Some w ->
  exists others,
    flat_map local_wanted ws ≡ₚ local_wanted w ++ others /\
    flat_map local_wanted (<[i := w']> ws') ≡ₚ local_wanted w' ++ others.
Proof.
  intros Hws Hi. destruct (woken_lookup _ _ _ _ Hws Hi) as (w1 & Hi1 & Hw1).
  assert (local_wanted w1 = local_wanted w) as Heq.
  { destruct Hw1 as [->| ->]; [done | by destruct w]. }
  destruct (insert_middle ws' i w1 w' Hi1) as (l1 & l2 & Hsplit & ->).
  exists (flat_map local_wanted (l1 ++ l2)).
  rewrite <- (local_wanted_woken _ _ Hws), Hsplit, <- Heq.
  rewrite !flat_map_app, !local_wanted_cons. split; solve_Permutation.
Qed.

Lemma todo_args_woken m m' : submitter_woken m m' -> todo_args m' = todo_args m.
Proof. intros [->| ->]; [done | by destruct m]. Qed.

Lemma submitter_woken_stays m m' :
  submitter_woken m m' -> m = Finished -> m' = Finished.
Proof. by intros [->| ->] ->. Qed.

(** Every step has one of the four effects, and none undoes
    [destroy_threadpool]. *)
Lemma transition_effect s s' :
  transition s s' ->
  effect s s' /\ (main s = Finished -> main s' = Finished).
Proof.
  intros Ht.
  destruct Ht as
    [ i pick w tp' ns o ws m Hi Hdq Hd
    | i t l c l' Hi Ha
    | i t l act arg destroy c l' pick tp' ns ws m Hi Ha He Hd
    | i t l c Hi Ha
    | act arg destroy todo pick tp' ns ws m Hm He Hd
    | Hm | i Hm Hlt Hi | i Hm Hge | Hm | i Hi | Hm ].
  - apply deliver_all_woken in Hd as [Hws Hsub].
    split; [|by apply submitter_woken_stays].
    destruct (local_wanted_split _ _ i w (resume_at o) Hws Hi)
      as (others & Hold & Hnew).
    apply E_none; [done | done |]. unfold wanted. simpl.
    rewrite (todo_args_woken _ _ Hsub), (dequeue_head_split _ _ _ _ _ Hdq), fmap_app.
    rewrite Hold, Hnew.
    assert (local_wanted w = []) as -> by (by destruct Hdq as [[-> _]|[-> _]]).
    assert (local_wanted (resume_at o)
            = argument <$> option_list
                (match o with Blocked => None | Returned r => r end)) as ->
      by (by destruct o as [|[t|]]).
    simpl. solve_Permutation.
  - split; [|done]. simpl in Ha.
    apply process_graph_step_internal in Ha
      as (idx & current & -> & Hmx & Hv & Hn & -> & ->).
    destruct (local_wanted_split _ _ i _ (InAction t (InLoop (neighbours current)))
                (woken_refl _) Hi) as (others & Hold & Hnew).
    apply (E_mark _ _ idx current
             (todo_args (main s) ++ (argument <$> head (tp s)) ++ others));
      try done; unfold wanted; simpl.
    + rewrite Hold. simpl. solve_Permutation.
    + rewrite Hnew. simpl. solve_Permutation.
  - apply deliver_all_woken in Hd as [Hws Hsub].
    split; [|by apply submitter_woken_stays]. simpl in Ha.
    apply process_graph_step_submit in Ha as (todo & -> & -> & -> & -> & ->).
    unfold enqueue_task in He. simplify_eq.
    destruct (local_wanted_split _ _ i _ (InAction t (InLoop todo)) Hws Hi)
      as (others & Hold & Hnew).
    apply E_none; [done | done |]. unfold wanted. simpl.
    rewrite (todo_args_woken _ _ Hsub), Hold, Hnew. simpl. solve_Permutation.
  - split; [|done]. simpl in Ha.
    destruct (local_wanted_split _ _ i _ AtDequeue (woken_refl _) Hi)
      as (others & Hold & Hnew).
    apply process_graph_step_return in Ha as [(idx & -> & Hmx & Hv & ->)|[-> ->]].
    + apply (E_skip _ _ idx); try done.
      unfold wanted. simpl. rewrite Hold, Hnew. simpl. solve_Permutation.
    + apply E_none; [done | done |].
      unfold wanted. simpl. by rewrite Hold, Hnew.
  - apply deliver_all_woken in Hd as [Hws _].
    split; [|by rewrite Hm]. unfold enqueue_task in He. simplify_eq.
    apply E_none; [done | done |]. unfold wanted. simpl.
    rewrite Hm, (local_wanted_woken _ _ Hws). simpl. solve_Permutation.
  - split.
    + apply E_none; [done | done |]. unfold wanted. simpl.
      assert (todo_args (main s) = []) as -> by (by destruct Hm as [-> | ->]).
      by destruct (wait_for_completion_waits (tp s)).
    + by destruct Hm as [-> | ->].
  - split; [|by rewrite Hm]. apply E_none; [done | done |].
    unfold wanted. simpl. by rewrite Hm.
  - split; [|by rewrite Hm]. apply E_none; [done | done |].
    unfold wanted. simpl. by rewrite Hm.
  - split; [|done]. apply E_drop; [done | done | done |].
    unfold wanted. simpl. rewrite Hm. simpl. solve_Permutation.
  - split; [|done].
    destruct (local_wanted_split _ _ i _ Woken (woken_refl _) Hi)
      as (others & Hold & Hnew).
    apply E_none; [done | done |]. unfold wanted. simpl. by rewrite Hold, Hnew.
  - split; [|by rewrite Hm]. apply E_none; [done | done |].
    unfold wanted. simpl. by rewrite Hm.
Qed.

(** *** Indices stay in the graph *)

Lemma local_wanted_replicate k :
  flat_map local_wanted (replicate k (@AtDequeue fn nat pc)) = [].
Proof. induction k as [|k IH]; [done|]. simpl. by rewrite IH. Qed.

Lemma wanted_init n g0 :
  wanted (main_program n g0) = [0].
Proof.
  unfold wanted, main_program, init. simpl. by rewrite local_wanted_replicate.
Qed.

Lemma bounds_ok_effect g0 s s' :
  in_range g0 -> bounds_ok g0 s -> effect s s' -> bounds_ok g0 s'.
Proof.
  intros [Hlen Hnb] (Hnodes & Hvis & Hw) He. unfold bounds_ok.
  destruct He as
    [ Hg Hs Hp | idx Hg Hs Hv Hp | idx current rest Hv Hn Hg Hs Hp Hp' | Hg Hs Hm Hp ].
  - rewrite Hg, Hp. done.
  - rewrite Hg. rewrite Hp in Hw. apply Forall_cons in Hw as [_ Hw]. done.
  - rewrite Hg. simpl. rewrite length_insert.
    split; [done|]. split; [done|]. rewrite Hp'. rewrite Hp in Hw.
    apply Forall_cons in Hw as [_ Hw]. apply Forall_app. split; [|done].
    rewrite Hnodes in Hn. by apply (Forall_lookup_1 _ _ _ _ Hnb Hn).
  - rewrite Hg. rewrite Hp in Hw. apply Forall_app in Hw as [_ Hw]. done.
Qed.

Lemma bounds_ok_reachable n g0 s :
  in_range g0 -> 0 < length (nodes g0) -> main_reaches n g0 s -> bounds_ok g0 s.
Proof.
  intros Hrange Hpos. apply reachable_transition_ind.
  - split; [done|]. split; [apply Hrange|].
    fold (main_program n g0). rewrite wanted_init. by constructor.
  - intros s1 s2 _ Hok Ht. apply (bounds_ok_effect g0 s1); [done | done |].
    by apply transition_effect.
Qed.

Lemma wanted_worker s i w j :
  threads s !! i = Some w -> j ∈ local_wanted w -> j ∈ wanted s.
Proof.
  intros Hi Hj. unfold wanted. rewrite !elem_of_app. right. right.
  apply list_elem_of_In, in_flat_map. exists w. split.
  - apply list_elem_of_In. by eapply list_elem_of_lookup_2.
  - by apply list_elem_of_In.
Qed.

Lemma wanted_queue s t : t ∈ head (tp s) -> argument t ∈ wanted s.
Proof.
  intros Ht. unfold wanted. rewrite !elem_of_app. right. left.
  by apply list_elem_of_fmap_2.
Qed.

(** A running call looks up an index of the tables. *)
Lemma process_graph_step_in_bounds g0 s i t l :
  bounds_ok g0 s -> threads s !! i = Some (InAction t l) ->
  process_graph_step l (shared s) <> AFault.
Proof.
  intros (Hnodes & Hvis & Hw) Hi.
  destruct l as [idx|[|j todo]]; simpl; try done.
  destruct (mutex (shared s)); [done|].
  assert (idx < length (nodes g0)) as Hidx.
  { apply (proj1 (Forall_forall _ _) Hw). apply (wanted_worker s i _ _ Hi).
    simpl. by apply list_elem_of_singleton. }
  destruct (lookup_lt_is_Some_2 (visited (graph (shared s))) idx) as [v ->];
    [lia|].
  destruct (lookup_lt_is_Some_2 (nodes (graph (shared s))) idx) as [nd ->];
    [rewrite Hnodes; lia|].
  by destruct v.
Qed.

(** X8: on a graph whose neighbour lists hold indices of nodes, whose
    table of marks is as long as its table of nodes and which has a node
    0, no run of the program makes [process_graph] index a table out of
    its bounds: the argument of every task in the queue and the index of
    every running call is the index of a node, and the tables keep their
    lengths. *)
Theorem process_graph_in_bounds n g0 s :
  in_range g0 ->
  0 < length (nodes g0) ->
  main_reaches n g0 s ->
  nodes (graph (shared s)) = nodes g0 /\
  length (visited (graph (shared s))) = length (nodes g0) /\
  Forall (fun t => argument t < length (nodes g0)) (head (tp s)) /\
  (forall i t l, threads s !! i = Some (InAction t l) ->
     process_graph_step l (shared s) <> AFault).
Proof.
  intros Hrange Hpos Hr.
  destruct (bounds_ok_reachable _ _ _ Hrange Hpos Hr) as (Hnodes & Hvis & Hw).
  split; [done|]. split; [done|]. split.
  - apply Forall_forall. intros t Ht.
    by apply (proj1 (Forall_forall _ _) Hw), wanted_queue.
  - intros i t l Hi.
    by apply (process_graph_step_in_bounds g0 s i t l).
Qed.

(** *** What is marked is what is reached *)

Lemma mark_lookup (vs : list visit) idx j :
  vs !! idx = Some NOT_VISITED ->
  <[idx := DONE]> vs !! j = Some DONE <-> j = idx \/ vs !! j = Some DONE.
Proof.
  intros Hidx. destruct (decide (j = idx)) as [->|Hne].
  - rewrite list_lookup_insert_eq by (by eapply lookup_lt_Some). tauto.
  - rewrite list_lookup_insert_ne by done. split; [auto|].
    intros [?|?]; done.
Qed.

Lemma unvisited_lookup (vs : list visit) i :
  Forall (fun v => v = NOT_VISITED) vs -> vs !! i <> Some DONE.
Proof.
  intros Hall Hi. by pose proof (Forall_lookup_1 _ _ _ _ Hall Hi).
Qed.

Lemma closed_ok_effect g0 s s' :
  closed_ok g0 s -> effect s s' ->
  (main s' = Finished -> head (tp s) = []) ->
  closed_ok g0 s'.
Proof.
  intros (Hnodes & Hzero & Hclosed & Hsound & Hwanted) He Hfin.
  unfold closed_ok.
  destruct He as
    [ Hg Hs Hp | idx Hg Hs Hv Hp | idx current rest Hv Hn Hg Hs Hp Hp' | Hg Hs Hm Hp ].
  - rewrite Hg. setoid_rewrite Hp. done.
  - rewrite Hg.
    assert (forall j, j ∈ wanted s ->
              visited (graph (shared s)) !! j = Some DONE \/ j ∈ wanted s') as Hstep.
    { intros j. rewrite Hp, elem_of_cons. intros [->|?]; auto. }
    split; [done|]. split; [|split; [|split]].
    + destruct Hzero as [?|H0]; [by left | by apply Hstep].
    + intros i ni j Hi Hni Hj.
      destruct (Hclosed i ni j Hi Hni Hj) as [?|Hw]; [by left | by apply Hstep].
    + done.
    + intros j Hj. apply Hwanted. rewrite Hp. by right.
  - rewrite Hg. simpl.
    assert (forall j, visited (graph (shared s)) !! j = Some DONE \/ j ∈ wanted s ->
              <[idx := DONE]> (visited (graph (shared s))) !! j = Some DONE \/
              j ∈ wanted s') as Hstep.
    { intros j. rewrite (mark_lookup _ _ _ Hv), Hp, Hp', elem_of_cons, elem_of_app.
      tauto. }
    assert (reach (nodes g0) 0 idx) as Hidx.
    { apply Hwanted. rewrite Hp. by left. }
    split; [done|]. split; [|split; [|split]].
    + by apply Hstep.
    + intros i ni j Hi Hni Hj. apply (mark_lookup _ _ _ Hv) in Hi as [->|Hi].
      * right. rewrite Hp', elem_of_app. left.
        rewrite Hnodes in Hn. by simplify_eq.
      * apply Hstep. by apply (Hclosed i ni j).
    + intros i Hi. apply (mark_lookup _ _ _ Hv) in Hi as [->|Hi]; auto.
    + intros j. rewrite Hp', elem_of_app. intros [Hj|Hj].
      * rewrite Hnodes in Hn. by apply (reach_edge _ _ idx current).
      * apply Hwanted. rewrite Hp. by right.
  - rewrite Hg. rewrite (Hfin Hm) in Hp. simpl in Hp. setoid_rewrite <- Hp. done.
Qed.

Lemma closed_ok_init n g0 :
  Forall (fun v => v = NOT_VISITED) (visited g0) ->
  closed_ok g0 (main_program n g0).
Proof.
  intros Hall. unfold closed_ok. rewrite wanted_init. simpl.
  split; [done|]. split; [|split; [|split]].
  - right. by apply list_elem_of_singleton.
  - intros i ni j Hi. by destruct (unvisited_lookup _ i Hall).
  - intros i Hi. by destruct (unvisited_lookup _ i Hall).
  - intros j ->%list_elem_of_singleton. constructor.
Qed.

Lemma closed_ok_reachable n g0 s :
  Forall (fun v => v = NOT_VISITED) (visited g0) ->
  main_reaches n g0 s -> main s <> Finished -> closed_ok g0 s.
Proof.
  intros Hall. revert s.
  apply (reachable_transition_ind (fun s => main s <> Finished -> closed_ok g0 s)).
  - intros _. by apply closed_ok_init.
  - intros s1 s2 _ Hok Ht Hfin.
    destruct (transition_effect _ _ Ht) as [He Hstay].
    apply (closed_ok_effect g0 s1); [|done|done]. apply Hok. auto.
Qed.

Lemma done_total_unvisited ns vs :
  Forall (fun v => v = NOT_VISITED) vs -> done_total ns vs = 0%Z.
Proof.
  intros Hall. revert ns. induction Hall as [|v vs -> _ IH]; intros [|nd ns];
    simpl; auto.
Qed.

Lemma sum_ok_reachable n g0 s :
  Forall (fun v => v = NOT_VISITED) (visited g0) ->
  main_reaches n g0 s -> sum_ok (shared s).
Proof.
  intros Hall Hr. apply (shared_invariant sum_ok) in Hr; [done | |].
  - intros l c0. apply process_graph_step_sum_ok.
  - unfold sum_ok. simpl. by rewrite done_total_unvisited.
Qed.

(** With nothing wanted any more, the marked nodes are those reached
    from node 0. *)
Lemma closed_ok_quiescent g0 s i :
  closed_ok g0 s -> wanted s = [] ->
  visited (graph (shared s)) !! i = Some DONE <-> reach (nodes g0) 0 i.
Proof.
  intros (Hnodes & Hzero & Hclosed & Hsound & _) Hnil. rewrite Hnil in *.
  split; [apply Hsound|].
  induction 1 as [|k nk j _ IH Hk Hj].
  - destruct Hzero as [?|H0]; [done | by apply elem_of_nil in H0].
  - destruct (Hclosed k nk j IH Hk Hj) as [?|Hw]; [done | by apply elem_of_nil in Hw].
Qed.

(** X10: in a run of [main] on a graph with no node marked, whenever
    nothing is left to do (the submitter has submitted node 0, the queue
    is empty and no worker is inside [process_graph] with an index to
    look at) and the pool has not been destroyed, the nodes marked [DONE]
    are exactly the nodes reached from node 0 along the edges, and [sum]
    is the sum of their values. *)
Theorem traversal_marks_reached n g0 s :
  Forall (fun v => v = NOT_VISITED) (visited g0) ->
  main_reaches n g0 s ->
  main s <> Finished ->
  wanted s = [] ->
  (forall i, visited (graph (shared s)) !! i = Some DONE <-> reach (nodes g0) 0 i) /\
  sum (shared s)
    = wrap_int (done_total (nodes g0) (visited (graph (shared s)))).
Proof.
  intros Hall Hr Hfin Hnil.
  pose proof (closed_ok_reachable _ _ _ Hall Hr Hfin) as Hok.
  split.
  - intros i. by apply closed_ok_quiescent.
  - destruct Hok as (<- & _). by apply (sum_ok_reachable n g0).
Qed.

Lemma wanted_exited s :
  main s = Destroying \/ main s = Finished ->
  Forall (fun w => w = Exited) (threads s) -> head (tp s) = [] ->
  wanted s = [].
Proof.
  intros Hm Hall Hnil. unfold wanted. rewrite Hnil. simpl.
  assert (todo_args (main s) = []) as -> by (by destruct Hm as [-> | ->]).
  simpl. induction Hall as [|w ws -> _ IH]; [done|]. by simpl.
Qed.

(** X11: if some worker is still in its loop (or the queue has already
    been emptied) when [process_node(0)] has returned, then at the return
    of [wait_for_completion], and after [destroy_threadpool], the nodes
    marked [DONE] are exactly the nodes reached from node 0 and [sum],
    the number that [main] prints, is the sum of their values. *)
Theorem traversal_sums_reached n g0 s0 tr s :
  (0 <= n < 2 ^ 32)%Z ->
  Forall (fun v => v = NOT_VISITED) (visited g0) ->
  main_reaches n g0 s0 ->
  main s0 = Submitting [] ->
  served s0 ->
  run tr s0 = Some s ->
  main s = Destroying \/ main s = Finished ->
  (forall i, visited (graph (shared s)) !! i = Some DONE <-> reach (nodes g0) 0 i) /\
  sum (shared s)
    = wrap_int (done_total (nodes g0) (visited (graph (shared s)))).
Proof.
  intros Hn Hall Hr0 Hm0 Hserved0 Hrun Hm.
  assert (main_reaches n g0 s /\ drained_ok s /\ closed_ok g0 s)
    as (Hr & (_ & Hserved & _) & Hok).
  { apply (run_invariant
             (fun s => main_reaches n g0 s /\ drained_ok s /\ closed_ok g0 s)
             tr s0 s); [| |done].
    - intros a s1 s2 (Hr1 & Hd1 & Hc1) Hstep.
      split; [by eapply reachable_step|].
      split; [by eapply drained_ok_step|].
      pose proof (step_transition _ _ _ Hstep) as Ht.
      destruct (transition_effect _ _ Ht) as [He _].
      apply (closed_ok_effect g0 s1); [done | done |]. intros Hfin.
      destruct Hd1 as (_ & Hs1 & _).
      by apply (drained_end n _ _ s1 Hn Hr1 Hs1), (before_finished _ _ Ht).
    - split; [done|]. split.
      + split; [by rewrite Hm0|]. split; [done|]. congruence.
      + apply (closed_ok_reachable n); [done | done | congruence]. }
  destruct (drained_end n _ _ s Hn Hr Hserved Hm) as [Hexited Hnil].
  pose proof (wanted_exited _ Hm Hexited Hnil) as Hw.
  split.
  - intros i. by apply closed_ok_quiescent.
  - destruct Hok as (<- & _). by apply (sum_ok_reachable n g0).
Qed.

(** *** The tasks of the traversal *)

(** X7: every task of the program is created by [process_node] with a
    NULL destructor, so no destructor is ever called: the pool frees the
    task objects and nothing else. *)
Theorem no_destructor_called n g0 s :
  main_reaches n g0 s ->
  Forall (fun t => destroy_arg t = None) (created (log s)) /\
  Forall (fun t => destroy_arg t = None) (head (tp s)) /\
  arg_destroyed (log s) = [].
Proof.
  intros Hr.
  assert (Forall (fun t => destroy_arg t = None) (created (log s))) as Hcreated.
  { apply (created_ok (fun _ _ d => d = None)) in Hr; [tauto | |].
    - by repeat constructor.
    - intros l c0 act arg destroy c1 l' Hstep. simpl in Hstep.
      by apply process_graph_step_submit in Hstep as (? & _ & _ & -> & _). }
  destruct (tasks_ok_reachable _ _ _ _ Hr) as (Hperm & _ & Hdestroyed).
  split; [done|].
  rewrite Hperm, !Forall_app in Hcreated. destruct Hcreated as (Hhead & _ & Hfreed).
  split; [done|].
  rewrite Hdestroyed. clear -Hfreed.
  induction Hfreed as [|t ts Ht _ IH]; [done|].
  rewrite filter_cons, IH. case_decide as Hsome; [|done].
  rewrite Ht in Hsome. by destruct Hsome.
Qed.

(** *** The graph's mutex *)

Lemma in_loop_count_cons w ws :
  in_loop_count (w :: ws) = in_loop w + in_loop_count ws.
Proof. done. Qed.

Lemma in_loop_count_app ws1 ws2 :
  in_loop_count (ws1 ++ ws2) = in_loop_count ws1 + in_loop_count ws2.
Proof. unfold in_loop_count. by rewrite fmap_app, sum_list_with_app. Qed.

Lemma in_loop_count_woken ws ws' :
  Forall2 woken ws ws' -> in_loop_count ws' = in_loop_count ws.
Proof.
  induction 1 as [|w w' l l' Hw _ IH]; [done|].
  rewrite !in_loop_count_cons, IH. f_equal.
  destruct Hw as [->| ->]; [done | by destruct w].
Qed.

Lemma in_loop_count_insert ws i w w' :
  ws !! i = Some w ->
  in_loop_count (<[i := w']> ws) + in_loop w = in_loop_count ws + in_loop w'.
Proof.
  intros Hi. destruct (insert_middle ws i w w' Hi) as (l1 & l2 & -> & ->).
  rewrite !in_loop_count_app, !in_loop_count_cons. lia.
Qed.

Lemma in_loop_count_update ws ws' i w w' :
  Forall2 woken ws ws' -> ws !! i = Some w ->
  in_loop_count (<[i := w']> ws') + in_loop w = in_loop_count ws + in_loop w'.
Proof.
  intros Hws Hi. destruct (woken_lookup _ _ _ _ Hws Hi) as (w1 & Hi1 & Hw1).
  rewrite <- (in_loop_count_woken _ _ Hws).
  assert (in_loop w1 = in_loop w) as <-.
  { destruct Hw1 as [->| ->]; [done | by destruct w]. }
  by apply in_loop_count_insert.
Qed.

Lemma in_loop_count_replicate k :
  in_loop_count (replicate k (@AtDequeue fn nat pc)) = 0.
Proof. induction k as [|k IH]; [done|]. by rewrite replicate_S, in_loop_count_cons, IH. Qed.

Lemma mutex_ok_transition s s' : mutex_ok s -> transition s s' -> mutex_ok s'.
Proof.
  unfold mutex_ok. intros Hok Ht.
  destruct Ht as
    [ i pick w tp' ns o ws m Hi Hdq Hd
    | i t l c l' Hi Ha
    | i t l act arg destroy c l' pick tp' ns ws m Hi Ha He Hd
    | i t l c Hi Ha
    | act arg destroy todo pick tp' ns ws m Hm He Hd
    | Hm | i Hm Hlt Hi | i Hm Hge | Hm | i Hi | Hm ]; simpl; try done.
  - apply deliver_all_woken in Hd as [Hws _].
    pose proof (in_loop_count_update _ _ i w (resume_at o) Hws Hi) as Hup.
    assert (in_loop w = 0) as Hw by (by destruct Hdq as [[-> _]|[-> _]]).
    assert (in_loop (resume_at o) = 0) as Hr by (by destruct o as [|[t|]]).
    lia.
  - simpl in Ha. apply process_graph_step_internal in Ha
      as (idx & current & -> & Hmx & Hv & Hn & -> & ->).
    pose proof (in_loop_count_update _ _ i _
                  (InAction t (InLoop (neighbours current))) (woken_refl _) Hi)
      as Hup.
    rewrite Hmx in Hok. simpl in *. lia.
  - apply deliver_all_woken in Hd as [Hws _]. simpl in Ha.
    apply process_graph_step_submit in Ha as (todo & -> & -> & -> & -> & ->).
    pose proof (in_loop_count_update _ _ i _ (InAction t (InLoop todo)) Hws Hi)
      as Hup. simpl in Hup. lia.
  - simpl in Ha.
    pose proof (in_loop_count_update _ _ i _ AtDequeue (woken_refl _) Hi) as Hup.
    apply process_graph_step_return in Ha as [(idx & -> & Hmx & Hv & ->)|[-> ->]];
      simpl in *.
    + lia.
    + destruct (mutex (shared s)); lia.
  - apply deliver_all_woken in Hd as [Hws _].
    by rewrite (in_loop_count_woken _ _ Hws).
  - pose proof (in_loop_count_update _ _ i _ Woken (woken_refl _) Hi) as Hup.
    simpl in Hup. lia.
Qed.

Lemma mutex_ok_reachable n g0 s : main_reaches n g0 s -> mutex_ok s.
Proof.
  apply reachable_transition_ind.
  - unfold mutex_ok. simpl. apply in_loop_count_replicate.
  - intros s1 s2 _. apply mutex_ok_transition.
Qed.

Lemma in_loop_count_lookup ws i w : ws !! i = Some w -> in_loop w <= in_loop_count ws.
Proof.
  intros Hi. destruct (insert_middle ws i w w Hi) as (l1 & l2 & -> & _).
  rewrite in_loop_count_app, in_loop_count_cons. lia.
Qed.

Lemma in_loop_count_pos ws :
  0 < in_loop_count ws ->
  exists i t todo, ws !! i = Some (InAction t (InLoop todo)).
Proof.
  induction ws as [|w ws IH]; [simpl; unfold in_loop_count; simpl; lia|].
  rewrite in_loop_count_cons. intros Hpos.
  destruct (decide (in_loop w = 0)) as [Hw|Hw].
  - destruct IH as (i & t & todo & Hi); [lia|]. by exists (S i), t, todo.
  - destruct w as [| | |t [idx|todo]|]; try done. by exists 0, t, todo.
Qed.

(** X9: the critical sections of [process_graph] do not overlap.  In every
    state of a run the graph's mutex is held exactly when a worker is
    between the lock and the unlock, in the loop over the neighbours, and
    at most one worker is there; [sum] and the marks are therefore
    written by one worker at a time. *)
Theorem process_graph_exclusive n g0 s :
  main_reaches n g0 s ->
  (mutex (shared s) = true <->
   exists i t todo, threads s !! i = Some (InAction t (InLoop todo))) /\
  (forall i j ti tj todoi todoj,
     threads s !! i = Some (InAction ti (InLoop todoi)) ->
     threads s !! j = Some (InAction tj (InLoop todoj)) ->
     i = j).
Proof.
  intros Hr. pose proof (mutex_ok_reachable _ _ _ Hr) as Hok.
  unfold mutex_ok in Hok. split; [split|].
  - intros Hm. rewrite Hm in Hok. apply in_loop_count_pos. lia.
  - intros (i & t & todo & Hi). apply in_loop_count_lookup in Hi. simpl in Hi.
    destruct (mutex (shared s)); [done | lia].
  - intros i j ti tj todoi todoj Hi Hj.
    destruct (decide (i = j)) as [|Hne]; [done|]. exfalso.
    pose proof (in_loop_count_insert _ i _ AtDequeue Hi) as Hins. simpl in Hins.
    assert (<[i := AtDequeue]> (threads s) !! j = Some (InAction tj (InLoop todoj)))
      as Hj' by (by rewrite list_lookup_insert_ne).
    apply in_loop_count_lookup in Hj'. simpl in Hj'.
    destruct (mutex (shared s)); lia.
Qed.
End TraversalRuns.

(** ** Threads that can run *)

Section Progress.
Context {Fn Arg C L : Type} `{!Client Fn Arg C L}.
Implicit Types (s : sys Fn Arg C L) (ws : list (worker Fn Arg L))
  (w : worker Fn Arg L) (m : submitter Fn Arg) (tp : os_threadpool Fn Arg).

(** *** What [dequeue_task] notifies *)

Lemma dequeue_task_blocked tp tp' ns :
  dequeue_task tp = (tp', ns, Blocked) ->
  stop_work tp = 0%Z /\ stop_work tp' = 0%Z /\
  waiting_threads tp <> wrap_uint (num_threads tp - 1).
Proof.
  unfold dequeue_task.
  destruct (dequeue_enter tp) as [tp1 ns1] eqn:Henter.
  destruct (dequeue_loop tp1) as [[tp2 ns2] o] eqn:Hloop.
  intros Heq. simplify_eq.
  apply dequeue_loop_inv in Hloop as (_ & _ & -> & _ & Hstop).
  revert Henter. unfold dequeue_enter.
  destruct (Z.eqb_spec (waiting_threads tp) (wrap_uint (num_threads tp - 1)));
    intros Heq; simplify_eq; simpl in *; done.
Qed.

Lemma dequeue_task_sets_stop tp tp' ns o :
  dequeue_task tp = (tp', ns, o) ->
  stop_work tp = 0%Z -> stop_work tp' <> 0%Z ->
  exists ns', ns = Broadcast cond_queue :: ns'.
Proof.
  unfold dequeue_task.
  destruct (dequeue_enter tp) as [tp1 ns1] eqn:Henter.
  destruct (dequeue_loop tp1) as [[tp2 ns2] o2] eqn:Hloop.
  intros Heq Hstop Hstop'. simplify_eq.
  apply dequeue_loop_inv in Hloop as (_ & Hsame & _).
  revert Henter. unfold dequeue_enter.
  destruct (_ =? _)%Z; intros Heq; simplify_eq; simpl in *; [eauto|].
  congruence.
Qed.

(** A call that returns a task signals [work_done]. *)
Lemma dequeue_loop_signals tp tp' ns t pick ws m ws' m' :
  dequeue_loop tp = (tp', ns, Returned (Some t)) ->
  deliver_all pick ns (ws, m) = Some (ws', m') ->
  m' = wake_submitter m.
Proof.
  unfold dequeue_loop, dequeue_leave.
  destruct (queue_is_empty tp); simpl.
  - destruct (stop_work tp =? 0)%Z; intros Heq; by simplify_eq.
  - intros Heq. simplify_eq. simpl. intros Heq. by simplify_eq.
Qed.

Lemma dequeue_task_signals tp tp' ns t pick ws m ws' m' :
  dequeue_task tp = (tp', ns, Returned (Some t)) ->
  deliver_all pick ns (ws, m) = Some (ws', m') ->
  m' = wake_submitter m.
Proof.
  unfold dequeue_task.
  destruct (dequeue_enter tp) as [tp1 ns1] eqn:Henter.
  destruct (dequeue_loop tp1) as [[tp2 ns2] o] eqn:Hloop.
  intros Heq. simplify_eq. revert Henter. unfold dequeue_enter.
  destruct (_ =? _)%Z; intros Heq; simplify_eq; simpl.
  - by apply (dequeue_loop_signals _ _ _ _ _ _ _ _ _ Hloop).
  - by apply (dequeue_loop_signals _ _ _ _ _ _ _ _ _ Hloop).
Qed.

(** No critical section of [dequeue_task] signals [cond_queue], so its
    notifications are delivered whatever the threads do. *)
Lemma dequeue_loop_delivers tp ws m :
  is_Some (deliver_all None (dequeue_loop tp).1.2 (ws, m)).
Proof.
  unfold dequeue_loop, dequeue_leave.
  destruct (queue_is_empty tp); simpl; [destruct (stop_work tp =? 0)%Z|];
    simpl; eauto.
Qed.

Lemma dequeue_task_delivers tp ws m :
  is_Some (deliver_all None (dequeue_task tp).1.2 (ws, m)).
Proof.
  unfold dequeue_task.
  destruct (dequeue_enter tp) as [tp1 ns1] eqn:Henter.
  pose proof (dequeue_loop_delivers tp1) as Hloop.
  destruct (dequeue_loop tp1) as [[tp2 ns2] o]. simpl in *.
  revert Henter. unfold dequeue_enter.
  destruct (_ =? _)%Z; intros Heq; simplify_eq; simpl; apply Hloop.
Qed.

(** [pthread_cond_signal] on [cond_queue] finds a worker to unblock when
    there is one. *)
Lemma in_cond_wait_lookup ws :
  existsb is_in_cond_wait ws = true -> exists j, ws !! j = Some InCondWait.
Proof.
  induction ws as [|w ws IH]; simpl; [done|].
  destruct w; simpl; try (intros Hex; destruct (IH Hex) as [j Hj]; by exists (S j)).
  intros _. by exists 0.
Qed.

Lemma enqueue_task_delivers tp t ws m :
  exists pick, is_Some (deliver_all pick (enqueue_task tp t).2 (ws, m)).
Proof.
  unfold enqueue_task. simpl. destruct (queue_is_empty tp); simpl.
  - destruct (existsb is_in_cond_wait ws) eqn:Hex.
    + apply in_cond_wait_lookup in Hex as [j Hj].
      exists (Some j). rewrite Hj. eauto.
    + exists None. eauto.
  - exists None. eauto.
Qed.

(** *** The steps that are enabled *)

Lemma can_step_intro s a :
  is_spurious a = false -> is_Some (step a s) -> can_step s.
Proof. intros Ha [s' Hs]. by exists a, s'. Qed.

Lemma main_submit_can_step s act arg destroy todo :
  main s = Submitting ((act, arg, destroy) :: todo) -> can_step s.
Proof.
  intros Hm.
  destruct (enqueue_task_delivers (tp s)
              (create_task (allocated s) act arg destroy) (threads s) (main s))
    as [pick [wm Hd]].
  apply (can_step_intro s (RunMain pick)); [done|].
  simpl. unfold main_step, submit. rewrite Hm. cbv zeta.
  destruct (enqueue_task _ _) as [tp' ns]. simpl in Hd. rewrite Hm in Hd.
  rewrite Hd.
  destruct wm. eauto.
Qed.

Lemma dequeue_can_step s i w :
  threads s !! i = Some w -> w = AtDequeue \/ w = Woken -> can_step s.
Proof.
  intros Hi Hw. apply (can_step_intro s (RunWorker i None)); [done|].
  simpl. unfold worker_step.
  rewrite Hi. destruct Hw as [-> | ->]; unfold after_dequeue.
  - destruct (dequeue_task_delivers (tp s) (threads s) (main s)) as [wm Hd].
    destruct (dequeue_task (tp s)) as [[tp' ns] o]. simpl in Hd. rewrite Hd.
    destruct wm. eauto.
  - unfold dequeue_task_resume.
    destruct (dequeue_loop_delivers (tp s) (threads s) (main s)) as [wm Hd].
    destruct (dequeue_loop (tp s)) as [[tp' ns] o]. simpl in Hd. rewrite Hd.
    destruct wm. eauto.
Qed.

Lemma action_can_step s i t l :
  threads s !! i = Some (InAction t l) ->
  action_step l (shared s) <> AFault ->
  action_step l (shared s) <> ABlocked ->
  can_step s.
Proof.
  intros Hi Hfault Hblocked.
  destruct (action_step l (shared s)) as [| |c l'|act arg destroy c l'|c]
    eqn:Ha; try done.
  - apply (can_step_intro s (RunWorker i None)); [done|].
    simpl. unfold worker_step. rewrite Hi, Ha. eauto.
  - destruct (enqueue_task_delivers (tp s)
                (create_task (allocated s) act arg destroy) (threads s) (main s))
      as [pick [wm Hd]].
    apply (can_step_intro s (RunWorker i pick)); [done|].
    simpl. unfold worker_step, submit. rewrite Hi, Ha. cbv zeta.
    destruct (enqueue_task _ _) as [tp' ns]. simpl in Hd. rewrite Hd.
    destruct wm. eauto.
  - apply (can_step_intro s (RunWorker i None)); [done|].
    simpl. unfold worker_step. rewrite Hi, Ha. eauto.
Qed.

(** *** Who is awake *)

Lemma woken_awake ws ws' :
  Forall2 woken ws ws' ->
  Forall (fun w => is_in_cond_wait w = false) ws ->
  Forall (fun w => is_in_cond_wait w = false) ws'.
Proof.
  induction 1 as [|w w' l l' Hw _ IH]; [done|].
  rewrite !Forall_cons. intros [Hwait Hl]. split; [|by apply IH].
  destruct Hw as [->| ->]; [done | by destruct w].
Qed.

Lemma deliver_all_broadcast pick ns ws m ws' m' :
  deliver_all pick (Broadcast cond_queue :: ns) (ws, m) = Some (ws', m') ->
  Forall (fun w => is_in_cond_wait w = false) ws'.
Proof.
  cbn [deliver_all]. destruct (deliver _ _ _) as [[ws1 m1]|] eqn:Hd; [|done].
  intros Hrest. apply broadcast_wakes_all in Hd.
  apply deliver_all_woken in Hrest as [Hws _]. by eapply woken_awake.
Qed.

Lemma idle_count_lt_inv ws :
  idle_count ws < length ws -> exists i w, ws !! i = Some w /\ is_idle w = false.
Proof.
  induction ws as [|w ws IH]; simpl; [lia|].
  rewrite idle_count_cons. unfold idle_weight.
  destruct (is_idle w) eqn:Hw.
  - intros Hlt. destruct IH as (i & w' & Hi & Hw'); [lia|]. by exists (S i), w'.
  - intros _. by exists 0, w.
Qed.

Lemma awake_ok_transition n s s' :
  (0 < n < 2 ^ 32)%Z -> counts_ok n s -> awake_ok s -> transition s s' ->
  awake_ok s'.
Proof.
  intros Hn (Hnum & Hlen & Hcount) [Hclear Hset] Ht.
  destruct Ht as
    [ i pick w tp' ns o ws m Hi Hdq Hd
    | i t l c l' Hi Ha
    | i t l act arg destroy c l' pick tp' ns ws m Hi Ha He Hd
    | i t l c Hi Ha
    | act arg destroy todo pick tp' ns ws m Hm He Hd
    | Hm | i Hm Hlt Hi | i Hm Hge | Hm | i Hi | Hm ]; split; simpl;
    try done.
  - (* a critical section of dequeue_task, the flag clear afterwards *)
    intros Hstop'.
    pose proof (deliver_all_woken _ _ _ _ _ _ Hd) as [Hws _].
    pose proof (idle_count_update _ _ i w (resume_at o) Hws Hi) as Hupd.
    rewrite (length_update _ _ i (resume_at o) Hws).
    rewrite idle_weight_resume_at in Hupd.
    destruct o as [|r]; [simpl|].
    + destruct Hdq as [[-> Hdq]|[-> Hdq]].
      * apply dequeue_task_blocked in Hdq as (Hstop & _ & Htest).
        pose proof (idle_count_lt _ _ _ Hi eq_refl) as Hlt.
        rewrite Hnum, wrap_uint_small in Htest by lia.
        unfold idle_weight in Hupd. simpl in Hupd. lia.
      * apply dequeue_loop_inv in Hdq as (_ & Hstop & _).
        unfold idle_weight in Hupd. simpl in Hupd.
        specialize (Hclear ltac:(congruence)). lia.
    + pose proof (idle_count_le (threads s)) as Hle.
      assert (idle_count (threads s) < length (threads s) \/ idle_weight w = 1)
        as [Hlt|Hw].
      { destruct (is_idle w) eqn:Hw; [right; unfold idle_weight; by rewrite Hw|].
        left. by eapply idle_count_lt. }
      * lia.
      * pose proof (idle_count_pos _ _ _ Hi
                      ltac:(unfold idle_weight in Hw; by destruct (is_idle w)))
          as Hpos.
        lia.
  - (* a critical section of dequeue_task, the flag set afterwards *)
    intros Hstop'.
    pose proof (deliver_all_woken _ _ _ _ _ _ Hd) as [Hws _].
    apply Forall_insert.
    + destruct (decide (stop_work (tp s) = 0%Z)) as [Hstop|Hstop].
      * destruct Hdq as [[-> Hdq]|[-> Hdq]].
        -- destruct (dequeue_task_sets_stop _ _ _ _ Hdq Hstop Hstop')
             as [ns' ->].
           by eapply deliver_all_broadcast.
        -- apply dequeue_loop_inv in Hdq as (_ & Heq & _). congruence.
      * eapply woken_awake; [exact Hws | by apply Hset].
    + destruct o as [|[t|]]; [|done..].
      destruct Hdq as [[-> Hdq]|[-> Hdq]].
      * apply dequeue_task_blocked in Hdq as (_ & ? & _). done.
      * apply dequeue_loop_inv in Hdq as (_ & Heq & _ & _ & ?). congruence.
  - intros _.
    apply (idle_count_lt _ i (InAction t l')); [|done].
    apply list_lookup_insert_eq. by eapply lookup_lt_Some.
  - intros Hstop. apply Forall_insert; [by apply Hset | done].
  - intros _.
    pose proof (deliver_all_woken _ _ _ _ _ _ Hd) as [Hws _].
    apply (idle_count_lt _ i (InAction t l')); [|done].
    apply list_lookup_insert_eq.
    rewrite <- (Forall2_length _ _ _ Hws). by eapply lookup_lt_Some.
  - pose proof (deliver_all_woken _ _ _ _ _ _ Hd) as [Hws _].
    unfold enqueue_task in He. simplify_eq. simpl. intros Hstop.
    apply Forall_insert; [|done]. eapply woken_awake; [exact Hws | by apply Hset].
  - intros _.
    apply (idle_count_lt _ i AtDequeue); [|done].
    apply list_lookup_insert_eq. by eapply lookup_lt_Some.
  - intros Hstop. apply Forall_insert; [by apply Hset | done].
  - pose proof (deliver_all_woken _ _ _ _ _ _ Hd) as [Hws _].
    unfold enqueue_task in He. simplify_eq. simpl. intros Hstop.
    rewrite (woken_idle_count _ _ Hws), <- (Forall2_length _ _ _ Hws). auto.
  - pose proof (deliver_all_woken _ _ _ _ _ _ Hd) as [Hws _].
    unfold enqueue_task in He. simplify_eq. simpl. intros Hstop.
    eapply woken_awake; [exact Hws | by apply Hset].
  - intros Hstop. rewrite length_insert.
    pose proof (idle_count_insert _ _ _ Woken Hi) as Hins. simpl in Hins.
    specialize (Hclear Hstop). unfold idle_weight in Hins. simpl in Hins. lia.
  - intros Hstop. apply Forall_insert; [by apply Hset | done].
Qed.
Lemma awake_ok_reachable n seeds c s :
  (0 < n < 2 ^ 32)%Z -> reachable n seeds c s -> awake_ok s.
Proof.
  intros Hn. apply reachable_transition_ind.
  - split; simpl; [|done]. intros _.
    assert (idle_count (replicate (Z.to_nat n) (@AtDequeue Fn Arg L)) = 0)
      as ->; [|rewrite length_replicate; lia].
    induction (Z.to_nat n) as [|k IH]; [done|].
    simpl. by rewrite idle_count_cons, IH.
  - intros s1 s2 Hr Hok Ht.
    apply (awake_ok_transition n s1); [done| |done..].
    apply (counts_ok_reachable n seeds c); [lia | done].
Qed.


Lemma wake_submitter_waits m m' :
  submitter_woken m m' -> m' = InWorkDoneWait -> m = InWorkDoneWait /\ m' = m.
Proof. intros [->| ->]; [done | by destruct m]. Qed.

Lemma waiter_ok_transition n s s' :
  (0 < n)%Z -> counts_ok n s -> exits_ok s -> waiter_ok s -> transition s s' ->
  waiter_ok s'.
Proof.
  unfold waiter_ok. intros Hn (Hnum & Hlen & _) Hexits Hok Ht.
  destruct Ht as
    [ i pick w tp' ns o ws m Hi Hdq Hd
    | i t l c l' Hi Ha
    | i t l act arg destroy c l' pick tp' ns ws m Hi Ha He Hd
    | i t l c Hi Ha
    | act arg destroy todo pick tp' ns ws m Hm He Hd
    | Hm | i Hm Hlt Hi | i Hm Hge | Hm | i Hi | Hm ]; simpl; try done.
  - (* a call that takes a task wakes the submitter, any other finds the
       queue empty *)
    intros ->.
    pose proof (deliver_all_woken _ _ _ _ _ _ Hd) as [Hws Hsub].
    apply wake_submitter_waits in Hsub as [Hm _]; [|done].
    destruct (Hok Hm) as [Hne _]. exfalso.
    destruct o as [|[t|]].
    + destruct Hdq as [[_ Hdq]|[_ Hdq]].
      * apply dequeue_task_inv in Hdq as (_ & _ & _ & ? & _). done.
      * apply dequeue_loop_inv in Hdq as (_ & _ & _ & ? & _). done.
    + assert (InWorkDoneWait = wake_submitter (main s)) as Hwake.
      { destruct Hdq as [[_ Hdq]|[_ Hdq]].
        - by apply (dequeue_task_signals _ _ _ _ _ _ _ _ _ Hdq Hd).
        - by apply (dequeue_loop_signals _ _ _ _ _ _ _ _ _ Hdq Hd). }
      by rewrite Hm in Hwake.
    + destruct Hdq as [[_ Hdq]|[_ Hdq]].
      * apply dequeue_task_null in Hdq as (_ & _ & ?). done.
      * apply dequeue_loop_null in Hdq as (_ & _ & ?). done.
  - intros Hm. destruct (Hok Hm) as [Hne _]. split; [done|].
    eapply alive_after_update; [apply woken_refl | exact Hi | done].
  - intros ->.
    pose proof (deliver_all_woken _ _ _ _ _ _ Hd) as [Hws _].
    unfold enqueue_task in He. simplify_eq. simpl.
    split; [by destruct (head (tp s))|].
    eapply alive_after_update; [exact Hws | exact Hi | done].
  - intros Hm. destruct (Hok Hm) as [Hne _]. split; [done|].
    eapply alive_after_update; [apply woken_refl | exact Hi | done].
  - (* the submitter goes into the wait *)
    unfold wait_for_completion_waits.
    destruct (queue_is_empty (tp s)) eqn:Hempty; simpl; [done|].
    destruct (Z.eqb_spec (stop_work (tp s)) 0) as [Hstop|]; [|done].
    intros _. split.
    { intros Hnil. apply queue_is_empty_nil in Hnil. congruence. }
    destruct (lookup_lt_is_Some_2 (threads s) 0) as [w Hw]; [lia|].
    exists 0, w. split; [done|]. intros ->. apply Hexits; eauto.
  - intros Hm. destruct (Hok Hm) as [Hne _]. split; [done|].
    eapply alive_after_update; [apply woken_refl | exact Hi | done].
Qed.

Lemma waiter_ok_reachable n seeds c s :
  (0 < n < 2 ^ 32)%Z -> reachable n seeds c s -> waiter_ok s.
Proof.
  intros Hn. apply reachable_transition_ind.
  - done.
  - intros s1 s2 Hr Hok Ht.
    apply (waiter_ok_transition n s1); [lia| | |done..].
    + apply (counts_ok_reachable n seeds c); [lia | done].
    + by apply (exits_ok_reachable n seeds c).
Qed.

(** *** The pool does not block *)

(** A worker outside [pthread_cond_wait] that has not left its loop, when
    some worker has not left or is not waiting. *)
Lemma running_worker s i w :
  exits_ok s -> awake_ok s ->
  threads s !! i = Some w -> w <> Exited ->
  exists j w', threads s !! j = Some w' /\ is_running w' = true.
Proof.
  intros Hexits [Hclear Hset] Hi Hw.
  destruct (decide (stop_work (tp s) = 0%Z)) as [Hstop|Hstop].
  - destruct (idle_count_lt_inv _ (Hclear Hstop)) as (j & w' & Hj & Hidle).
    exists j, w'. split; [done|].
    destruct w'; try done. exfalso. apply Hexits; eauto.
  - exists i, w. split; [done|].
    pose proof (Forall_lookup_1 _ _ _ _ (Hset Hstop) Hi) as Hwait.
    by destruct w.
Qed.

(** Unless the pool is destroyed, the submitter can take a step, or some
    worker is about to call [dequeue_task], out of its wait, or inside an
    action. *)
Lemma pool_progress n seeds c s :
  (0 < n < 2 ^ 32)%Z -> reachable n seeds c s -> main s <> Finished ->
  can_step s \/
  exists i w, threads s !! i = Some w /\ is_running w = true.
Proof.
  intros Hn Hr Hfin.
  pose proof (counts_ok_reachable n seeds c s ltac:(lia) Hr)
    as (Hnum & Hlen & _).
  pose proof (exits_ok_reachable _ _ _ _ Hr) as Hexits.
  pose proof (awake_ok_reachable _ _ _ _ Hn Hr) as Hawake.
  pose proof (waiter_ok_reachable _ _ _ _ Hn Hr) as Hwaiter.
  pose proof (joined_ok_reachable n seeds c s ltac:(lia) Hr) as Hjoined.
  unfold joined_ok in Hjoined.
  destruct (main s) as [[|[[act arg] destroy] todo]| | |k| |] eqn:Hm; try done.
  - left. apply (can_step_intro s (RunMain None)); [done|].
    simpl. unfold main_step. rewrite Hm. eauto.
  - left. by eapply main_submit_can_step.
  - right. destruct (Hwaiter Hm) as (_ & i & w & Hi & Hw).
    by eapply running_worker.
  - left. apply (can_step_intro s (RunMain None)); [done|].
    simpl. unfold main_step. rewrite Hm. eauto.
  - destruct Hjoined as [Hk _].
    destruct (Z.ltb_spec k (num_threads (tp s))) as [Hlt|Hge].
    + destruct (lookup_lt_is_Some_2 (threads s) (Z.to_nat k)) as [w Hw]; [lia|].
      assert (w = Exited \/ w <> Exited) as [->|Hne]
        by (destruct w; auto).
      * left. apply (can_step_intro s (RunMain None)); [done|].
        simpl. unfold main_step. rewrite Hm.
        destruct (Z.ltb_spec k (num_threads (tp s))); [|lia].
        rewrite Hw. eauto.
      * right. by eapply running_worker.
    + left. apply (can_step_intro s (RunMain None)); [done|].
      simpl. unfold main_step. rewrite Hm.
      destruct (Z.ltb_spec k (num_threads (tp s))); [lia|]. eauto.
  - left. apply (can_step_intro s (RunMain None)); [done|].
    simpl. unfold main_step. rewrite Hm.
    destruct (destroy_threadpool (tp s)). eauto.
Qed.

(** X12: a pool with at least one thread whose actions neither fault nor
    wait for anything never comes to a standstill.  In every state of a
    run, until [destroy_threadpool] has returned, some thread can take a
    step that is not a return of [pthread_cond_wait] without notification:
    never are all threads inside [pthread_cond_wait] or [pthread_join]
    with nobody left to wake them. *)
Theorem pool_never_stuck n seeds c s :
  (0 < n < 2 ^ 32)%Z ->
  (forall l c0, action_step l c0 <> AFault /\ action_step l c0 <> ABlocked) ->
  reachable n seeds c s ->
  main s <> Finished ->
  can_step s.
Proof.
  intros Hn Hact Hr Hfin.
  destruct (pool_progress n seeds c s Hn Hr Hfin)
    as [Hstep|(i & w & Hi & Hw)]; [done|].
  destruct w as [| | |t l|]; try done.
  - eapply dequeue_can_step; eauto.
  - eapply dequeue_can_step; eauto.
  - eapply action_can_step; [exact Hi | apply Hact..].
Qed.
End Progress.

Section TraversalProgress.
Import Parallel.

End TraversalProgress.

(** ** A pool without threads *)

Section NoThreads.
Context {Fn Arg C L : Type} `{!Client Fn Arg C L}.
Implicit Types (s : sys Fn Arg C L).

(** X14: [create_threadpool(0)] gives a pool that never completes.  Once
    the submitter has something to submit, no action is ever called and
    [wait_for_completion] does not get past its loop: the flag is never
    set, and once the submitter is inside [pthread_cond_wait] the only
    step left is a return of that wait without notification. *)
Theorem pool_without_threads seeds c s :
  seeds <> [] ->
  reachable 0 seeds c s ->
  ~ past_wait_loop (main s) /\
  threads s = [] /\
  stop_work (tp s) = 0%Z /\
  called (log s) = [] /\
  (main s = InWorkDoneWait ->
   forall a s', step a s = Some s' -> a = SpuriousMain).
Proof.
  intros Hseeds Hr.
  assert (threads s = [] /\ stop_work (tp s) = 0%Z /\ called (log s) = [] /\
          match main s with
          | Submitting todo => todo <> [] \/ head (tp s) <> []
          | InWorkDoneWait | WorkDoneWoken => head (tp s) <> []
          | Joining _ | Destroying | Finished => False
          end) as (Hthreads & Hstop & Hcalled & Hmain).
  { revert s Hr.
    apply (reachable_transition_ind
             (fun s => threads s = [] /\ stop_work (tp s) = 0%Z /\
                       called (log s) = [] /\
                       match main s with
                       | Submitting todo => todo <> [] \/ head (tp s) <> []
                       | InWorkDoneWait | WorkDoneWoken => head (tp s) <> []
                       | Joining _ | Destroying | Finished => False
                       end)).
    - simpl. repeat split; try done. by left.
    - intros s1 s2 _ (Hthreads & Hstop & Hcalled & Hmain) Ht.
      destruct Ht as
        [ i pick w tp' ns o ws m Hi Hdq Hd
        | i t l c0 l' Hi Ha
        | i t l act arg destroy c0 l' pick tp' ns ws m Hi Ha He Hd
        | i t l c0 Hi Ha
        | act arg destroy todo pick tp' ns ws m Hm He Hd
        | Hm | i Hm Hlt Hi | i Hm Hge | Hm | i Hi | Hm ]; simpl;
        try (by rewrite Hthreads in Hi);
        try (by rewrite Hm in Hmain).
      + pose proof (deliver_all_woken _ _ _ _ _ _ Hd) as [Hws _].
        rewrite Hthreads in Hws. apply Forall2_nil_inv_l in Hws as ->.
        unfold enqueue_task in He. simplify_eq. simpl.
        split; [done|]. split; [done|]. split.
        * by rewrite called_app, Hcalled.
        * right. by destruct (head (tp s1)).
      + split; [done|]. split; [done|]. split; [done|].
        unfold wait_for_completion_waits, queue_is_empty.
        rewrite Hstop. simpl. rewrite andb_true_r.
        destruct Hm as [Hm|Hm]; rewrite Hm in Hmain.
        * destruct (head (tp s1)) as [|t q] eqn:Hq; simpl; [|done].
          by destruct Hmain.
        * by destruct (head (tp s1)). }
  split; [destruct (main s); simpl; tauto|]. split; [done|]. split; [done|].
  split; [done|].
  intros Hm a s' Hs. destruct a as [i pick|pick| i|]; simpl in Hs.
  - unfold worker_step in Hs. by rewrite Hthreads in Hs.
  - unfold main_step in Hs. by rewrite Hm in Hs.
  - by rewrite Hthreads in Hs.
  - done.
Qed.
End NoThreads.

(** ** A bound on the steps of the traversal *)

Section Cost.
Import Parallel.
Implicit Types (s : sys fn nat globals pc) (ws : list (worker fn nat pc))
  (w : worker fn nat pc) (m : submitter fn nat) (tp : os_threadpool fn nat).

Lemma marks_cost_mark ns vs idx current :
  vs !! idx = Some NOT_VISITED -> ns !! idx = Some current ->
  marks_cost ns (<[idx := DONE]> vs) + 1 + 5 * length (neighbours current)
  = marks_cost ns vs.
Proof.
  revert vs idx. induction ns as [|nd ns IH]; intros vs idx Hv Hn; [done|].
  destruct vs as [|v vs]; [done|]. destruct idx as [|idx]; simpl in *.
  - simplify_eq. lia.
  - specialize (IH vs idx Hv Hn). destruct v; lia.
Qed.

Lemma workers_cost_cons w ws :
  workers_cost (w :: ws) = worker_cost w + workers_cost ws.
Proof. done. Qed.

Lemma workers_cost_insert ws i w w' :
  ws !! i = Some w ->
  workers_cost (<[i := w']> ws) + worker_cost w
  = workers_cost ws + worker_cost w'.
Proof.
  revert i. induction ws as [|x ws IH]; intros i Hi; [done|].
  destruct i as [|i]; simpl in *.
  - simplify_eq. rewrite !workers_cost_cons. lia.
  - rewrite !workers_cost_cons. specialize (IH i Hi). lia.
Qed.

Lemma workers_cost_wake ws :
  workers_cost (map wake ws) <= workers_cost ws + length ws.
Proof.
  induction ws as [|w ws IH]; simpl; [done|].
  rewrite !workers_cost_cons. destruct w as [| | |t [idx|todo]|]; simpl; lia.
Qed.

Lemma wake_awake ws :
  Forall (fun w => is_in_cond_wait w = false) ws -> map wake ws = ws.
Proof.
  induction 1 as [|w ws Hw _ IH]; [done|]. simpl. rewrite IH.
  by destruct w.
Qed.

Lemma workers_cost_replicate k :
  workers_cost (replicate k AtDequeue) = 2 * k.
Proof.
  induction k as [|k IH]; [done|]. simpl. rewrite workers_cost_cons, IH.
  simpl. lia.
Qed.

Lemma main_cost_wake k m : main_cost k (wake_submitter m) <= main_cost k m + 1.
Proof. destruct m; simpl; lia. Qed.

(** [pthread_cond_signal] on [cond_queue] wakes one worker at most. *)
Lemma signal_cost pick ws m ws' m' :
  deliver_all pick [Signal cond_queue] (ws, m) = Some (ws', m') ->
  m' = m /\ length ws' = length ws /\ workers_cost ws' <= workers_cost ws + 1.
Proof.
  simpl. destruct pick as [j|].
  - destruct (ws !! j) as [[]|] eqn:Hj; try done.
    intros Heq. simplify_eq. rewrite length_insert.
    pose proof (workers_cost_insert ws j InCondWait Woken Hj) as Hins.
    simpl in Hins. repeat split; lia.
  - destruct (existsb _ _); [done|]. intros Heq. simplify_eq.
    repeat split; lia.
Qed.

Lemma enqueue_cost tp t tp' ns pick ws m ws' m' :
  enqueue_task tp t = (tp', ns) ->
  deliver_all pick ns (ws, m) = Some (ws', m') ->
  m' = m /\ length ws' = length ws /\ workers_cost ws' <= workers_cost ws + 1 /\
  length (head tp') = S (length (head tp)) /\ stop_work tp' = stop_work tp /\
  num_threads tp' = num_threads tp.
Proof.
  unfold enqueue_task. intros Heq Hd. simplify_eq. simpl.
  assert (m' = m /\ length ws' = length ws /\
          workers_cost ws' <= workers_cost ws + 1) as (? & ? & ?); [|done].
  destruct (queue_is_empty tp).
  - by apply (signal_cost pick).
  - simpl in Hd. simplify_eq. repeat split; lia.
Qed.

(** *** The critical sections of [dequeue_task] *)

Lemma dequeue_leave_notifies tp :
  (head tp = [] /\ dequeue_leave tp
     = (set_waiting_threads (wrap_uint (waiting_threads tp - 1)) tp, [], None))
  \/
  (exists t q, head tp = q ++ [t] /\
     dequeue_leave tp
     = (set_waiting_threads (wrap_uint (waiting_threads tp - 1))
          (set_head q tp), [Signal work_done], Some t)).
Proof.
  unfold dequeue_leave, queue_is_empty, OsList.list_empty,
    OsList.list_del_prev, OsList.list_prev.
  destruct (head tp) as [|x l] eqn:Hhead using rev_ind; [by left|].
  right. exists x, l. split; [done|].
  destruct (l ++ [x]) eqn:Hl; [by destruct l|]. rewrite <- Hl. simpl.
  by rewrite removelast_last, last_snoc.
Qed.
Lemma dequeue_loop_cost k tp tp' ns o pick ws0 m0 ws m :
  dequeue_loop tp = (tp', ns, o) ->
  deliver_all pick ns (ws0, m0) = Some (ws, m) ->
  ws = ws0 /\ num_threads tp' = num_threads tp /\
  stop_work tp' = stop_work tp /\
  main_cost k m + worker_cost (resume_at o) + 3 * length (head tp')
  < main_cost k m0 + 2 + 3 * length (head tp).
Proof.
  unfold dequeue_loop.
  destruct (queue_is_empty tp && (stop_work tp =? 0)%Z).
  - intros Heq Hd. simplify_eq. simpl in Hd. simplify_eq. simpl.
    repeat split; lia.
  - destruct (dequeue_leave_notifies tp) as [[Hnil ->]|(t & q & Hhead & ->)];
      intros Heq Hd; simplify_eq; simpl in Hd; simplify_eq; simpl.
    + repeat split; lia.
    + rewrite Hhead, length_app. simpl.
      pose proof (main_cost_wake k m0). repeat split; lia.
Qed.

Lemma dequeue_task_cost k tp tp' ns o pick ws0 m0 ws m :
  dequeue_task tp = (tp', ns, o) ->
  deliver_all pick ns (ws0, m0) = Some (ws, m) ->
  (stop_work tp <> 0%Z -> Forall (fun w => is_in_cond_wait w = false) ws0) ->
  length ws0 = k ->
  length ws = length ws0 /\ num_threads tp' = num_threads tp /\
  main_cost k m + workers_cost ws + worker_cost (resume_at o)
  + 3 * length (head tp') + flag_cost k tp'
  < main_cost k m0 + workers_cost ws0 + 2 + 3 * length (head tp)
    + flag_cost k tp.
Proof.
  unfold dequeue_task, dequeue_enter. intros Hdq Hd Hawake Hk.
  destruct (waiting_threads tp =? wrap_uint (num_threads tp - 1))%Z.
  - destruct (dequeue_loop _) as [[tp2 ns2] o2] eqn:Hloop. simplify_eq.
    cbn [app deliver_all deliver] in Hd.
    destruct (dequeue_loop_cost (length ws0) _ _ _ _ _ _ _ _ _ Hloop Hd)
      as (-> & Hnum & Hstop & Hcost).
    simpl in Hnum, Hstop, Hcost. rewrite length_map.
    split; [done|]. split; [done|].
    unfold flag_cost. rewrite Hstop. simpl.
    destruct (Z.eqb_spec (stop_work tp) 0) as [Hclear|Hset].
    + pose proof (workers_cost_wake ws0). lia.
    + rewrite (wake_awake ws0) by auto. lia.
  - destruct (dequeue_loop _) as [[tp2 ns2] o2] eqn:Hloop. simplify_eq.
    cbn [app] in Hd.
    destruct (dequeue_loop_cost (length ws0) _ _ _ _ _ _ _ _ _ Hloop Hd)
      as (-> & Hnum & Hstop & Hcost).
    simpl in Hnum, Hstop, Hcost.
    split; [done|]. split; [done|].
    unfold flag_cost. rewrite Hstop. lia.
Qed.

(** *** Every step counts *)

Lemma steps_left_step n g0 a s s' :
  (0 < n < 2 ^ 32)%Z ->
  main_reaches n g0 s ->
  is_spurious a = false ->
  step a s = Some s' ->
  steps_left s' < steps_left s.
Proof.
  intros Hn Hr Ha Hs.
  pose proof (counts_ok_reachable n _ _ s ltac:(lia) Hr) as (Hnum & Hlen & _).
  pose proof (awake_ok_reachable _ _ _ _ Hn Hr) as [_ Hawake].
  pose proof (joined_ok_reachable n _ _ s ltac:(lia) Hr) as Hjoined.
  unfold steps_left.
  destruct a as [i pick|pick| |]; simpl in Hs; try done.
  - (* a worker *)
    unfold worker_step in Hs.
    destruct (threads s !! i) as [[| | |t l|]|] eqn:Hi; try done.
    + unfold after_dequeue in Hs.
      destruct (dequeue_task (tp s)) as [[tp' ns] o] eqn:Hdq.
      destruct (deliver_all pick ns (threads s, main s)) as [[ws m]|] eqn:Hd;
        [|done].
      simplify_eq. simpl.
      destruct (dequeue_task_cost _ _ _ _ _ _ _ _ _ _ Hdq Hd Hawake eq_refl)
        as (Hlength & _ & Hcost).
      pose proof (deliver_all_woken _ _ _ _ _ _ Hd) as [Hws _].
      pose proof (woken_lookup_same _ _ _ _ Hws Hi eq_refl) as Hi'.
      pose proof (workers_cost_insert ws i _ (resume_at o) Hi') as Hins.
      simpl in Hins. rewrite length_insert, Hlength. lia.
    + unfold after_dequeue, dequeue_task_resume in Hs.
      destruct (dequeue_loop (tp s)) as [[tp' ns] o] eqn:Hdq.
      destruct (deliver_all pick ns (threads s, main s)) as [[ws m]|] eqn:Hd;
        [|done].
      simplify_eq. simpl.
      destruct (dequeue_loop_cost (length (threads s)) _ _ _ _ _ _ _ _ _ Hdq Hd)
        as (-> & _ & Hstop & Hcost).
      pose proof (workers_cost_insert (threads s) i _ (resume_at o) Hi) as Hins.
      simpl in Hins. rewrite length_insert.
      unfold flag_cost. rewrite Hstop. lia.
    + destruct (action_step l (shared s)) as [| |c l'|act arg destroy c l'|c]
        eqn:Hact; try done; simpl in Hact.
      * apply process_graph_step_internal in Hact
          as (idx & current & -> & _ & Hv & Hnd & -> & ->).
        simplify_eq. simpl.
        pose proof (workers_cost_insert (threads s) i _
                      (InAction t (InLoop (neighbours current))) Hi) as Hins.
        pose proof (marks_cost_mark _ _ _ _ Hv Hnd) as Hmark.
        simpl in Hins. rewrite length_insert. lia.
      * apply process_graph_step_submit in Hact
          as (todo & -> & -> & -> & -> & ->).
        unfold submit in Hs.
        destruct (enqueue_task _ _) as [tp' ns] eqn:He.
        destruct (deliver_all pick ns (threads s, main s)) as [[ws m]|] eqn:Hd;
          [|done].
        simpl in Hs. simplify_eq. simpl.
        destruct (enqueue_cost _ _ _ _ _ _ _ _ _ He Hd)
          as (-> & Hlength & Hcost & Hhead & Hstop & _).
        pose proof (deliver_all_woken _ _ _ _ _ _ Hd) as [Hws _].
        pose proof (woken_lookup_same _ _ _ _ Hws Hi eq_refl) as Hi'.
        pose proof (workers_cost_insert ws i _ (InAction t (InLoop todo)) Hi')
          as Hins.
        simpl in Hins. rewrite length_insert, Hlength, Hhead.
        unfold flag_cost. rewrite Hstop. lia.
      * simplify_eq. simpl.
        pose proof (workers_cost_insert (threads s) i _ AtDequeue Hi) as Hins.
        rewrite length_insert.
        apply process_graph_step_return in Hact
          as [(idx & -> & _ & _ & ->)|[-> ->]]; simpl in *; lia.
  - (* the submitter *)
    unfold main_step in Hs. unfold joined_ok in Hjoined.
    destruct (main s) as [[|[[act arg] destroy] todo]| | |k| |] eqn:Hm;
      try done.
    + simplify_eq. simpl.
      destruct (wait_for_completion_waits (tp s)); simpl; lia.
    + unfold submit in Hs.
      destruct (enqueue_task _ _) as [tp' ns] eqn:He.
      destruct (deliver_all pick ns (threads s, main s)) as [[ws m]|] eqn:Hd;
        [|done].
      simpl in Hs. simplify_eq. simpl.
      destruct (enqueue_cost _ _ _ _ _ _ _ _ _ He Hd)
        as (_ & Hlength & Hcost & Hhead & Hstop & _).
      rewrite Hlength, Hhead. unfold flag_cost. rewrite Hstop. lia.
    + simplify_eq. simpl.
      destruct (wait_for_completion_waits (tp s)); simpl; lia.
    + destruct Hjoined as [Hk _].
      destruct (Z.ltb_spec k (num_threads (tp s))) as [Hlt|Hge].
      * destruct (threads s !! Z.to_nat k) as [[]|]; try done.
        simplify_eq. simpl.
        rewrite wrap_uint_small by lia. lia.
      * simplify_eq. simpl. lia.
    + unfold destroy_threadpool in Hs. simplify_eq. simpl.
      unfold flag_cost. simpl. lia.
Qed.
Lemma steps_left_run n g0 tr s s' :
  (0 < n < 2 ^ 32)%Z ->
  main_reaches n g0 s ->
  Forall (fun a => is_spurious a = false) tr ->
  run tr s = Some s' ->
  length tr + steps_left s' <= steps_left s.
Proof.
  intros Hn Hr Htr. revert s Hr.
  induction Htr as [|a tr Ha _ IH]; intros s Hr Hrun; simpl in Hrun.
  - simplify_eq. simpl. lia.
  - destruct (step a s) as [s1|] eqn:Hs; [|done].
    pose proof (steps_left_step n g0 a s s1 Hn Hr Ha Hs) as Hlt.
    specialize (IH s1 (reachable_step _ _ _ _ _ _ Hr Hs) Hrun).
    simpl. lia.
Qed.

(** X15: returns of [pthread_cond_wait] that no notification caused
    apart, every run of [main] is finite.  With [n] threads it takes at
    most [4 * n + 10] steps, and one more for each unmarked node and five
    more for each neighbour of an unmarked node: every step of a thread
    uses up one of the steps left. *)
Theorem main_terminates n g0 tr s :
  (0 < n < 2 ^ 32)%Z ->
  Forall (fun a => is_spurious a = false) tr ->
  run tr (main_program n g0) = Some s ->
  length tr + steps_left s
  <= 4 * Z.to_nat n + 10 + marks_cost (nodes g0) (visited g0).
Proof.
  intros Hn Htr Hrun.
  assert (main_reaches n g0 (main_program n g0)) as Hr by (by exists []).
  pose proof (steps_left_run n g0 tr _ s Hn Hr Htr Hrun) as Hle.
  assert (steps_left (main_program n g0)
          = 4 * Z.to_nat n + 10 + marks_cost (nodes g0) (visited g0)) as <-;
    [|done].
  unfold steps_left, main_program, init, flag_cost. simpl.
  rewrite length_replicate, workers_cost_replicate. lia.
Qed.
End Cost.

(** ** The marks along a run *)

Section Marks.
Import Parallel.
Implicit Types (s : sys fn nat globals pc).

(** X18: the program never clears a mark and never changes the nodes.
    Along every run, from any state, a node marked [DONE] stays marked,
    and the table of nodes and the length of the table of marks stay as
    they are. *)
Theorem marks_never_cleared tr s s' :
  run tr s = Some s' ->
  nodes (graph (shared s')) = nodes (graph (shared s)) /\
  length (visited (graph (shared s'))) = length (visited (graph (shared s))) /\
  (forall i, visited (graph (shared s)) !! i = Some DONE ->
             visited (graph (shared s')) !! i = Some DONE).
Proof.
  apply (run_invariant
           (fun s1 =>
              nodes (graph (shared s1)) = nodes (graph (shared s)) /\
              length (visited (graph (shared s1)))
              = length (visited (graph (shared s))) /\
              (forall i, visited (graph (shared s)) !! i = Some DONE ->
                         visited (graph (shared s1)) !! i = Some DONE)));
    [|done].
  intros a s1 s2 (Hnodes & Hlen & Hdone) Hs.
  apply step_transition, transition_effect in Hs as [Heff _].
  destruct Heff as [Hg _ _|idx Hg _ _ _|idx current rest Hv _ Hg _ _ _|Hg _ _ _];
    rewrite Hg; try done.
  simpl. rewrite length_insert. split; [done|]. split; [done|].
  intros i Hi. apply (mark_lookup _ _ _ Hv). right. by apply Hdone.
Qed.
End Marks.

(** ** The further properties on the example programs *)

Section OutcomeWitnesses.
Lemma dequeue_task_outcome_witness :
  exists tp' ns,
    dequeue_task Demo.last_to_idle = (tp', ns, Returned None) /\
    stop_work tp' <> 0%Z /\ head tp' = [].
Proof.
  eexists _, _. split; [reflexivity|].
  destruct (dequeue_task_outcome Demo.last_to_idle _ _ _ eq_refl)
    as (_ & _ & _ & Hnull & _).
  exact (Hnull eq_refl).
Defined.
End OutcomeWitnesses.

Section ServiceWitnesses.
Local Existing Instance Demo.client.

Lemma demo_joined_reachable : reachable 1 Demo.seeds tt demo_joined.
Proof. exists (Demo.submit_and_run ++ demo_join). reflexivity. Defined.

Lemma demo_submitted_reachable : reachable 1 Demo.seeds tt demo_submitted.
Proof. exists [RunMain None]. reflexivity. Defined.

Lemma demo_submitted_served : served demo_submitted.
Proof. intros _. exists 0, AtDequeue. split; [reflexivity | discriminate]. Defined.


Lemma wait_for_completion_joins_witness :
  (0 <= 1 < 2 ^ 32)%Z /\
  reachable 1 Demo.seeds tt demo_joined /\
  main demo_joined = Destroying /\
  Forall (fun w => w = Exited) (threads demo_joined) /\
  called (log demo_joined) ≡ₚ freed (log demo_joined).
Proof.
  split; [lia|]. split; [exact demo_joined_reachable|]. split; [reflexivity|].
  destruct (wait_for_completion_joins 1 Demo.seeds tt demo_joined
              ltac:(lia) demo_joined_reachable (or_introl eq_refl))
    as (Hexited & _ & _ & _ & Hlog).
  split; [exact Hexited | exact (proj1 (Hlog eq_refl))].
Defined.

Lemma no_lost_work_witness :
  (0 <= 1 < 2 ^ 32)%Z /\
  reachable 1 Demo.seeds tt demo_submitted /\
  main demo_submitted = Submitting [] /\
  served demo_submitted /\
  run demo_run_and_shut_down demo_submitted = Some Demo.finished /\
  main Demo.finished = Finished /\
  called (log Demo.finished) ≡ₚ created (log Demo.finished).
Proof.
  split; [lia|]. split; [exact demo_submitted_reachable|].
  split; [reflexivity|]. split; [exact demo_submitted_served|].
  split; [reflexivity|]. split; [reflexivity|].
  destruct (no_lost_work 1 Demo.seeds tt demo_submitted
              demo_run_and_shut_down Demo.finished
              ltac:(lia) demo_submitted_reachable eq_refl demo_submitted_served
              eq_refl (or_intror eq_refl)) as (_ & _ & Hcalled).
  exact Hcalled.
Defined.
Lemma demo_never_blocks (l c0 : unit) :
  action_step l c0 <> (AFault : action_result nat nat unit unit) /\
  action_step l c0 <> ABlocked.
Proof. split; discriminate. Defined.

Lemma pool_never_stuck_witness :
  (0 < 1 < 2 ^ 32)%Z /\
  reachable 1 Demo.seeds tt demo_submitted /\
  main demo_submitted <> Finished /\
  can_step demo_submitted.
Proof.
  split; [lia|]. split; [exact demo_submitted_reachable|].
  split; [discriminate|].
  exact (pool_never_stuck 1 Demo.seeds tt demo_submitted ltac:(lia)
           demo_never_blocks demo_submitted_reachable ltac:(discriminate)).
Defined.

Lemma demo_no_threads_reachable : reachable 0 Demo.seeds tt demo_no_threads.
Proof. exists [RunMain None; RunMain None]. reflexivity. Defined.

Lemma pool_without_threads_witness :
  Demo.seeds <> [] /\
  reachable 0 Demo.seeds tt demo_no_threads /\
  main demo_no_threads = InWorkDoneWait /\
  ~ past_wait_loop (main demo_no_threads) /\
  called (log demo_no_threads) = [].
Proof.
  split; [discriminate|]. split; [exact demo_no_threads_reachable|].
  split; [reflexivity|].
  destruct (pool_without_threads Demo.seeds tt demo_no_threads
              ltac:(discriminate) demo_no_threads_reachable)
    as (Hloop & _ & _ & Hcalled & _).
  split; [exact Hloop | exact Hcalled].
Defined.
Lemma action_called_once_witness :
  reachable 1 Demo.seeds tt demo_joined /\
  main demo_joined <> Finished /\
  NoDup (self <$> called (log demo_joined)) /\
  (forall t, t ∈ freed (log demo_joined) -> t ∈ called (log demo_joined)).
Proof.
  split; [exact demo_joined_reachable|]. split; [discriminate|].
  destruct (action_called_once 1 Demo.seeds tt demo_joined
              demo_joined_reachable) as (Hnodup & _ & Hfreed).
  split; [exact Hnodup | exact (Hfreed ltac:(discriminate))].
Defined.
End ServiceWitnesses.

Section TraversalWitnesses.
Import Parallel.

Lemma five_nodes_in_range : in_range five_nodes.
Proof. split; [reflexivity|]. repeat constructor. Defined.

Lemma five_nodes_unvisited :
  Forall (fun v => v = NOT_VISITED) (visited five_nodes).
Proof. repeat constructor. Defined.

Lemma five_nodes_submitted_reaches :
  main_reaches NUM_THREADS five_nodes five_nodes_submitted.
Proof. exists node_0_submitted. reflexivity. Defined.

Lemma five_nodes_in_loop_reaches :
  main_reaches NUM_THREADS five_nodes five_nodes_in_loop.
Proof. exists (node_0_submitted ++ first_node_marked). reflexivity. Defined.

Lemma five_nodes_last_call_reaches :
  main_reaches NUM_THREADS five_nodes five_nodes_last_call.
Proof. exists (node_0_submitted ++ three_workers_wait). reflexivity. Defined.

Lemma five_nodes_joined_reaches :
  main_reaches NUM_THREADS five_nodes five_nodes_joined.
Proof. exists (node_0_submitted ++ workers_joined). reflexivity. Defined.

Lemma five_nodes_finished_reaches :
  main_reaches NUM_THREADS five_nodes five_nodes_finished.
Proof. exists (node_0_submitted ++ workers_then_join). reflexivity. Defined.

Lemma five_nodes_submitted_served : served five_nodes_submitted.
Proof. intros _. exists 0, AtDequeue. split; [reflexivity | discriminate]. Defined.

Lemma task_has_one_owner_witness :
  (0 <= NUM_THREADS < 2 ^ 32)%Z /\
  main_reaches NUM_THREADS five_nodes five_nodes_in_loop /\
  NoDup (self <$> head (tp five_nodes_in_loop)
                  ++ executing (threads five_nodes_in_loop)
                  ++ freed (log five_nodes_in_loop)).
Proof.
  split; [unfold NUM_THREADS; lia|]. split; [exact five_nodes_in_loop_reaches|].
  destruct (task_has_one_owner NUM_THREADS [process_node 0] _ five_nodes_in_loop
              ltac:(unfold NUM_THREADS; lia) five_nodes_in_loop_reaches)
    as (Hnodup & _).
  exact Hnodup.
Defined.

Lemma last_worker_test_witness :
  (0 <= NUM_THREADS < 2 ^ 32)%Z /\
  main_reaches NUM_THREADS five_nodes five_nodes_last_call /\
  threads five_nodes_last_call !! 3 = Some AtDequeue /\
  (waiting_threads (tp five_nodes_last_call)
   =? wrap_uint (num_threads (tp five_nodes_last_call) - 1))%Z = true /\
  (forall j w, j <> 3 -> threads five_nodes_last_call !! j = Some w ->
     is_idle w = true) /\
  executing (threads five_nodes_last_call) = [].
Proof.
  split; [unfold NUM_THREADS; lia|].
  split; [exact five_nodes_last_call_reaches|].
  split; [reflexivity|]. split; [reflexivity|].
  exact (last_worker_test NUM_THREADS [process_node 0] _ five_nodes_last_call 3
           ltac:(unfold NUM_THREADS; lia) five_nodes_last_call_reaches
           eq_refl eq_refl).
Defined.

Lemma no_destructor_called_witness :
  main_reaches NUM_THREADS five_nodes five_nodes_finished /\
  Forall (fun t => destroy_arg t = None) (created (log five_nodes_finished)) /\
  arg_destroyed (log five_nodes_finished) = [].
Proof.
  split; [exact five_nodes_finished_reaches|].
  destruct (no_destructor_called NUM_THREADS five_nodes five_nodes_finished
              five_nodes_finished_reaches) as (Hcreated & _ & Hdestroyed).
  split; [exact Hcreated | exact Hdestroyed].
Defined.

Lemma process_graph_in_bounds_witness :
  in_range five_nodes /\
  0 < length (nodes five_nodes) /\
  main_reaches NUM_THREADS five_nodes five_nodes_in_loop /\
  Forall (fun t => argument t < length (nodes five_nodes))
         (head (tp five_nodes_in_loop)) /\
  (forall i t l, threads five_nodes_in_loop !! i = Some (InAction t l) ->
     process_graph_step l (shared five_nodes_in_loop) <> AFault).
Proof.
  split; [exact five_nodes_in_range|]. split; [simpl; lia|].
  split; [exact five_nodes_in_loop_reaches|].
  destruct (process_graph_in_bounds NUM_THREADS five_nodes five_nodes_in_loop
              five_nodes_in_range ltac:(simpl; lia) five_nodes_in_loop_reaches)
    as (_ & _ & Hqueue & Hcalls).
  split; [exact Hqueue | exact Hcalls].
Defined.

Lemma process_graph_exclusive_witness :
  main_reaches NUM_THREADS five_nodes five_nodes_in_loop /\
  (mutex (shared five_nodes_in_loop) = true <->
   exists i t todo,
     threads five_nodes_in_loop !! i = Some (InAction t (InLoop todo))).
Proof.
  split; [exact five_nodes_in_loop_reaches|].
  destruct (process_graph_exclusive NUM_THREADS five_nodes five_nodes_in_loop
              five_nodes_in_loop_reaches) as (Hheld & _).
  exact Hheld.
Defined.

Lemma traversal_marks_reached_witness :
  Forall (fun v => v = NOT_VISITED) (visited five_nodes) /\
  main_reaches NUM_THREADS five_nodes five_nodes_joined /\
  main five_nodes_joined <> Finished /\
  wanted five_nodes_joined = [] /\
  (forall i, visited (graph (shared five_nodes_joined)) !! i = Some DONE
             <-> reach (nodes five_nodes) 0 i) /\
  sum (shared five_nodes_joined)
    = wrap_int (done_total (nodes five_nodes)
                           (visited (graph (shared five_nodes_joined)))).
Proof.
  split; [exact five_nodes_unvisited|].
  split; [exact five_nodes_joined_reaches|].
  split; [discriminate|]. split; [reflexivity|].
  exact (traversal_marks_reached NUM_THREADS five_nodes five_nodes_joined
           five_nodes_unvisited five_nodes_joined_reaches
           ltac:(discriminate) eq_refl).
Defined.

Lemma traversal_sums_reached_witness :
  (0 <= NUM_THREADS < 2 ^ 32)%Z /\
  Forall (fun v => v = NOT_VISITED) (visited five_nodes) /\
  main_reaches NUM_THREADS five_nodes five_nodes_submitted /\
  main five_nodes_submitted = Submitting [] /\
  served five_nodes_submitted /\
  run workers_then_join five_nodes_submitted = Some five_nodes_finished /\
  main five_nodes_finished = Finished /\
  (forall i, visited (graph (shared five_nodes_finished)) !! i = Some DONE
             <-> reach (nodes five_nodes) 0 i) /\
  sum (shared five_nodes_finished)
    = wrap_int (done_total (nodes five_nodes)
                           (visited (graph (shared five_nodes_finished)))).
Proof.
  split; [unfold NUM_THREADS; lia|]. split; [exact five_nodes_unvisited|].
  split; [exact five_nodes_submitted_reaches|]. split; [reflexivity|].
  split; [exact five_nodes_submitted_served|]. split; [reflexivity|].
  split; [reflexivity|].
  exact (traversal_sums_reached NUM_THREADS five_nodes five_nodes_submitted
           workers_then_join five_nodes_finished
           ltac:(unfold NUM_THREADS; lia) five_nodes_unvisited
           five_nodes_submitted_reaches eq_refl five_nodes_submitted_served
           eq_refl (or_intror eq_refl)).
Defined.

Lemma submitter_first_not_spurious :
  Forall (fun a => is_spurious a = false)
         (node_0_submitted ++ workers_then_join).
Proof. repeat constructor. Defined.

Lemma main_terminates_witness :
  (0 < NUM_THREADS < 2 ^ 32)%Z /\
  Forall (fun a => is_spurious a = false)
         (node_0_submitted ++ workers_then_join) /\
  run (node_0_submitted ++ workers_then_join)
      (main_program NUM_THREADS five_nodes) = Some five_nodes_finished /\
  length (node_0_submitted ++ workers_then_join)
  + steps_left five_nodes_finished
  <= 4 * Z.to_nat NUM_THREADS + 10
     + marks_cost (nodes five_nodes) (visited five_nodes).
Proof.
  split; [unfold NUM_THREADS; lia|].
  split; [exact submitter_first_not_spurious|]. split; [reflexivity|].
  exact (main_terminates NUM_THREADS five_nodes
           (node_0_submitted ++ workers_then_join) five_nodes_finished
           ltac:(unfold NUM_THREADS; lia) submitter_first_not_spurious
           eq_refl).
Defined.

Lemma marks_never_cleared_witness :
  run (drop 3 workers_then_join) five_nodes_in_loop = Some five_nodes_finished /\
  visited (graph (shared five_nodes_in_loop)) !! 0 = Some DONE /\
  visited (graph (shared five_nodes_finished)) !! 0 = Some DONE.
Proof.
  split; [reflexivity|]. split; [reflexivity|].
  destruct (marks_never_cleared (drop 3 workers_then_join) five_nodes_in_loop
              five_nodes_finished eq_refl) as (_ & _ & Hdone).
  exact (Hdone 0 eq_refl).
Defined.
End TraversalWitnesses.
